(** * Clean Code checker: detection and refactoring engines

    A shallow embedding of [scripts/analyze_code.py] (class
    [CleanCodeAnalyzer]) and [scripts/refactor_code.py] (class
    [CleanCodeRefactorer]), with the properties of the specification
    stated and settled against it.

    Text.  A Python [str] is modelled as a list of characters whose code
    points lie in 0..255, held in the 8-bit type [ascii].  The character
    classes used by [str.strip], [str.lower], [str.isupper] and by the
    [re] module ([\s], [\d], [\w], [\b]) follow Python's tables on that
    range.  The title-case forms of U+00B5 and U+00FF leave the range:
    [str.capitalize] is modelled with an [option], [None] standing for a
    result that is not text of the range.  Python integers are
    unbounded: line numbers are [nat], literal values are [N], the brace
    counter is [Z]; [int] refuses a literal of more than 4300 digits.

    Files.  The file system maps the path of a readable file to the
    text its bytes decode to in UTF-8, as it is stored; a path, which
    holds no null character, without an entry is a file that does not
    exist.  The program opens its files in text mode, which hands it
    every CR LF and every lone CR as a line feed; the line separator of
    the platform is taken to be the line feed, so that text is written
    as it is.  The output streams take every character of the range. *)

From Stdlib Require Import ZArith Lia Ascii String DecimalString DecimalN.
From Stdlib Require Import Sorting.Sorted Sorting.Permutation.
From stdpp Require Import base list gmap strings.

Local Open Scope nat_scope.

(* ================================================================== *)
(** * Part I: the program *)
(* ================================================================== *)

(* ================================================================== *)
(** ** Strings *)
(* ================================================================== *)

Definition str := list ascii.

Inductive str_literal := LNil | LCons (c : ascii) (s : str_literal).

Fixpoint literal_of_bytes (l : list Byte.byte) : str_literal :=
  match l with
  | [] => LNil
  | b :: l' => LCons (ascii_of_byte b) (literal_of_bytes l')
  end.

Fixpoint bytes_of_literal (s : str_literal) : list Byte.byte :=
  match s with
  | LNil => []
  | LCons c s' => byte_of_ascii c :: bytes_of_literal s'
  end.

Declare Scope str_scope.
Delimit Scope str_scope with str.
Bind Scope str_scope with str.
#[warnings="-via-type-remapping,-via-type-mismatch"]
String Notation str literal_of_bytes bytes_of_literal
  (via str_literal mapping [[nil] => LNil, [cons] => LCons]) : str_scope.
Local Open Scope str_scope.

Definition code (c : ascii) : N := N_of_ascii c.

(** The line feed. *)
Definition newline : ascii := "010"%char.

(** The carriage return. *)
Definition cr : ascii := "013"%char.

Definition in_range (lo hi : N) (c : ascii) : bool :=
  ((lo <=? code c) && (code c <=? hi))%N.

(** [str.isspace] on one character; also the class [\s]. *)
Definition isspace (c : ascii) : bool :=
  in_range 9 13 c || in_range 28 32 c || (code c =? 133)%N || (code c =? 160)%N.

(** The class [\d]. *)
Definition isdigit (c : ascii) : bool := in_range 48 57 c.

Definition is_ascii_lower (c : ascii) : bool := in_range 97 122 c.
Definition is_ascii_upper (c : ascii) : bool := in_range 65 90 c.

(** [str.isupper] on one character. *)
Definition isupper (c : ascii) : bool :=
  is_ascii_upper c || (in_range 192 222 c && negb (code c =? 215)%N).

(** Lower-case letters that have an upper-case form in the range. *)
Definition has_upper (c : ascii) : bool :=
  is_ascii_lower c || (in_range 224 254 c && negb (code c =? 247)%N).

Definition lower_char (c : ascii) : ascii :=
  if isupper c then ascii_of_N (code c + 32) else c.

(** The title-case form of a character, which [str.capitalize] puts
    first.  That of U+00DF is the two characters [Ss]; those of U+00B5
    and U+00FF are U+039C and U+0178, outside the range: [None]. *)
Definition title_char (c : ascii) : option str :=
  if has_upper c then Some [ascii_of_N (code c - 32)]
  else if (code c =? 223)%N then Some "Ss"
  else if (code c =? 181)%N || (code c =? 255)%N then None
  else Some [c].

(** The class [\w]: alphanumeric characters and the underscore. *)
Definition isword (c : ascii) : bool :=
  isdigit c || is_ascii_lower c || is_ascii_upper c || (code c =? 95)%N
  || (code c =? 170)%N || (code c =? 178)%N || (code c =? 179)%N
  || (code c =? 181)%N || (code c =? 185)%N || (code c =? 186)%N
  || in_range 188 190 c || in_range 192 214 c || in_range 216 246 c
  || in_range 248 255 c.

Definition char_eqb (a b : ascii) : bool := Ascii.eqb a b.

Fixpoint str_eqb (a b : str) : bool :=
  match a, b with
  | [], [] => true
  | x :: a', y :: b' => char_eqb x y && str_eqb a' b'
  | _, _ => false
  end.

(** [s.lower()] *)
Definition lower (s : str) : str := map lower_char s.

(** [s.capitalize()] *)
Definition capitalize (s : str) : option str :=
  match s with
  | [] => Some []
  | c :: s' =>
      match title_char c with
      | Some t => Some (t ++ lower s')
      | None => None
      end
  end.

(** [s.lstrip()] *)
Fixpoint lstrip (s : str) : str :=
  match s with
  | [] => []
  | c :: s' => if isspace c then lstrip s' else s
  end.

(** [s.rstrip()] *)
Fixpoint rstrip (s : str) : str :=
  match s with
  | [] => []
  | c :: s' =>
      match rstrip s' with
      | [] => if isspace c then [] else [c]
      | r => c :: r
      end
  end.

(** [s.strip()] *)
Definition strip (s : str) : str := lstrip (rstrip s).

(** [s.startswith(p)] *)
Fixpoint startswith (p s : str) : bool :=
  match p, s with
  | [], _ => true
  | x :: p', y :: s' => char_eqb x y && startswith p' s'
  | _ :: _, [] => false
  end.

(** [s.startswith((p1, p2, ...))] *)
Definition startswith_any (ps : list str) (s : str) : bool :=
  existsb (fun p => startswith p s) ps.

(** [s.endswith(p)] *)
Definition endswith (p s : str) : bool := startswith (rev p) (rev s).

(** [p in s] *)
Fixpoint contains (p s : str) : bool :=
  startswith p s ||
  match s with
  | [] => false
  | _ :: s' => contains p s'
  end.

(** [s.count(c)] for a one-character [c]. *)
Definition count_char (c : ascii) (s : str) : nat :=
  length (filter (fun x => char_eqb x c = true) s).

(** [s.split(sep)] for a one-character [sep]. *)
Fixpoint split (sep : ascii) (s : str) : list str :=
  match s with
  | [] => [[]]
  | c :: s' =>
      if char_eqb c sep then [] :: split sep s'
      else match split sep s' with
           | [] => [[c]]
           | w :: ws => (c :: w) :: ws
           end
  end.

(** [sep.join(parts)] *)
Fixpoint join (sep : str) (parts : list str) : str :=
  match parts with
  | [] => []
  | [p] => p
  | p :: ps => p ++ sep ++ join sep ps
  end.

(** [str(n)] for a non-negative integer. *)
Definition str_of_N (n : N) : str :=
  list_ascii_of_string (NilEmpty.string_of_uint (N.to_uint n)).

Definition str_of_nat (n : nat) : str := str_of_N (N.of_nat n).

(** [repr(s)]: the text between quotes, single ones unless it holds a
    single and no double quote; the quote in use and the backslash are
    escaped, and so are the characters that are not printable. *)
Definition single_quote : ascii := "039"%char.
Definition double_quote : ascii := "034"%char.
Definition backslash : ascii := "092"%char.

Definition hex_digit (n : N) : ascii :=
  nth (N.to_nat n) "0123456789abcdef" "0"%char.

Definition printable (c : ascii) : bool :=
  negb ((code c <? 32)%N || in_range 127 160 c || (code c =? 173)%N).

Definition repr_char (quote c : ascii) : str :=
  if char_eqb c quote || char_eqb c backslash then [backslash; c]
  else if (code c =? 9)%N then [backslash; "t"%char]
  else if (code c =? 10)%N then [backslash; "n"%char]
  else if (code c =? 13)%N then [backslash; "r"%char]
  else if printable c then [c]
  else [backslash; "x"%char; hex_digit (code c / 16); hex_digit (code c mod 16)].

Definition repr (s : str) : str :=
  let quote :=
    if existsb (char_eqb single_quote) s && negb (existsb (char_eqb double_quote) s)
    then double_quote else single_quote in
  [quote] ++ flat_map (repr_char quote) s ++ [quote].

(** The value of a string of decimal digits. *)
Definition int_of_digits (s : str) : N :=
  fold_left (fun acc c => (acc * 10 + (code c - 48))%N) s 0%N.

(** The longest string of digits [int] converts. *)
Definition max_str_digits : nat := 4300.

(** The text of the [ValueError] of [int] for a longer one. *)
Definition int_error (digits : nat) : str :=
  "Exceeds the limit (4300 digits) for integer string conversion: value has "
  ++ str_of_nat digits
  ++ " digits; use sys.set_int_max_str_digits() to increase the limit".

(** [int(s)] for a string of decimal digits: its value, or the text of
    the [ValueError] it raises. *)
Definition int (s : str) : N + str :=
  if max_str_digits <? length s then inr (int_error (length s))
  else inl (int_of_digits s).

(** [open(path, 'r')] hands the text of a file to the program with every
    CR LF and every lone CR turned into a line feed. *)
Fixpoint universal_newlines (s : str) : str :=
  match s with
  | [] => []
  | c :: s' =>
      if char_eqb c cr then
        newline :: match s' with
                   | d :: s'' =>
                       if char_eqb d newline then universal_newlines s''
                       else universal_newlines s'
                   | [] => []
                   end
      else c :: universal_newlines s'
  end.

(** The text read from [path] in text mode; [None] when there is no such
    file. *)
Definition read_text (fs : gmap str str) (path : str) : option str :=
  universal_newlines <$> fs !! path.

(** [enumerate(lines, 1)] *)
Definition enumerate1 {A} (l : list A) : list (nat * A) :=
  zip (seq 1 (length l)) l.

(** [enumerate(lines)] *)
Definition enumerate0 {A} (l : list A) : list (nat * A) :=
  zip (seq 0 (length l)) l.

(** Comparison of two [str] values, as Python's [<] and [==] decide it:
    lexicographic on code points, a proper prefix being smaller. *)
Fixpoint str_compare (a b : str) : comparison :=
  match a, b with
  | [], [] => Eq
  | [], _ :: _ => Lt
  | _ :: _, [] => Gt
  | x :: a', y :: b' =>
      match N.compare (code x) (code y) with
      | Eq => str_compare a' b'
      | o => o
      end
  end.

(* ================================================================== *)
(** ** Regular expressions

    The fragment of [re] used by the detectors: [\b], literals, one
    character of a class, greedy [*] and [+] over a class, alternation,
    concatenation and numbered capturing groups, matched by backtracking
    in the order [re] tries the alternatives. *)
(* ================================================================== *)

Inductive regex :=
| RBound
| RLit (s : str)
| RSet (p : ascii -> bool)
| RStar (p : ascii -> bool)
| RPlus (p : ascii -> bool)
| RAlt (r1 r2 : regex)
| RSeq (r1 r2 : regex)
| RGroup (n : nat) (r : regex).

(** A position inside a match attempt: the character before the
    position, the text still ahead, the text consumed since the attempt
    began (last character first) and the groups captured so far. *)
Record mstate := MState {
  ms_prev : option ascii;
  ms_rest : str;
  ms_taken : str;
  ms_groups : list (nat * str)
}.

Definition word_before (st : mstate) : bool :=
  match ms_prev st with Some c => isword c | None => false end.

Definition word_after (st : mstate) : bool :=
  match ms_rest st with c :: _ => isword c | [] => false end.

Definition at_boundary (st : mstate) : bool :=
  negb (Bool.eqb (word_before st) (word_after st)).

Definition advance (c : ascii) (rest : str) (st : mstate) : mstate :=
  MState (Some c) rest (c :: ms_taken st) (ms_groups st).

Fixpoint match_lit (s : str) (st : mstate) : option mstate :=
  match s with
  | [] => Some st
  | x :: s' =>
      match ms_rest st with
      | c :: rest => if char_eqb x c then match_lit s' (advance c rest st) else None
      | [] => None
      end
  end.

(** Greedy repetition of a class: the longest run is tried first, then
    each shorter one. *)
Fixpoint match_star (p : ascii -> bool) (rest : str) (st : mstate)
    (k : mstate -> option mstate) : option mstate :=
  match rest with
  | c :: rest' =>
      if p c then
        match match_star p rest' (advance c rest' st) k with
        | Some r => Some r
        | None => k st
        end
      else k st
  | [] => k st
  end.

Fixpoint rmatch (r : regex) (st : mstate) (k : mstate -> option mstate)
    : option mstate :=
  match r with
  | RBound => if at_boundary st then k st else None
  | RLit s => match match_lit s st with Some st' => k st' | None => None end
  | RSet p =>
      match ms_rest st with
      | c :: rest => if p c then k (advance c rest st) else None
      | [] => None
      end
  | RStar p => match_star p (ms_rest st) st k
  | RPlus p =>
      match ms_rest st with
      | c :: rest =>
          if p c then match_star p rest (advance c rest st) k else None
      | [] => None
      end
  | RAlt r1 r2 =>
      match rmatch r1 st k with
      | Some res => Some res
      | None => rmatch r2 st k
      end
  | RSeq r1 r2 => rmatch r1 st (fun st' => rmatch r2 st' k)
  | RGroup n r' =>
      rmatch r' st (fun st' =>
        let len := length (ms_taken st') - length (ms_taken st) in
        k (MState (ms_prev st') (ms_rest st') (ms_taken st')
                  ((n, rev (take len (ms_taken st'))) :: ms_groups st')))
  end.

(** One match object: [group()] and the numbered groups. *)
Record re_match := ReMatch {
  m_text : str;
  m_groups : list (nat * str)
}.

Definition group (n : nat) (m : re_match) : str :=
  match list_find (fun g => fst g = n) (m_groups m) with
  | Some (_, (_, s)) => s
  | None => []
  end.

Definition match_here (r : regex) (prev : option ascii) (s : str)
    : option re_match :=
  match rmatch r (MState prev s [] []) Some with
  | Some st => Some (ReMatch (rev (ms_taken st)) (ms_groups st))
  | None => None
  end.

(** [re.finditer]: the scan tries each position from left to right and
    resumes where a match ended; [skip] counts the characters of the last
    match still to be passed.  An empty match is reported and the scan
    moves on by one character. *)
Fixpoint scan (r : regex) (prev : option ascii) (s : str) (skip : nat)
    : list re_match :=
  match skip with
  | S n =>
      match s with
      | [] => []
      | c :: s' => scan r (Some c) s' n
      end
  | 0 =>
      match match_here r prev s with
      | Some m =>
          m :: match s with
               | [] => []
               | c :: s' => scan r (Some c) s' (length (m_text m) - 1)
               end
      | None =>
          match s with
          | [] => []
          | c :: s' => scan r (Some c) s' 0
          end
      end
  end.

Definition finditer (r : regex) (s : str) : list re_match := scan r None s 0.

Definition ident_char (c : ascii) : bool :=
  is_ascii_lower c || is_ascii_upper c || isdigit c || char_eqb c "_".

Definition ident_start (c : ascii) : bool :=
  is_ascii_lower c || is_ascii_upper c || char_eqb c "_".

(** The declaration pattern of the [js]/[ts] naming rule: [\b], group 1
    [(let|const|var|function)], [\s+], then group 2, one character of
    [a-z] followed by any number of [a-zA-Z0-9_]. *)
Definition js_decl_pattern : regex :=
  RSeq RBound
    (RSeq (RGroup 1 (RAlt (RLit "let") (RAlt (RLit "const")
                      (RAlt (RLit "var") (RLit "function")))))
      (RSeq (RPlus isspace)
        (RGroup 2 (RSeq (RSet is_ascii_lower) (RStar ident_char))))).

(** The declaration pattern of the [python] naming rule: [\b], group 1
    [(def|class)], [\s+], then group 2, one character of [a-zA-Z_]
    followed by any number of [a-zA-Z0-9_]. *)
Definition py_decl_pattern : regex :=
  RSeq RBound
    (RSeq (RGroup 1 (RAlt (RLit "def") (RLit "class")))
      (RSeq (RPlus isspace)
        (RGroup 2 (RSeq (RSet ident_start) (RStar ident_char))))).

(** [\b\d+\b] *)
Definition number_pattern : regex :=
  RSeq RBound (RSeq (RPlus isdigit) RBound).

(* ================================================================== *)
(** ** The detection engine: [CleanCodeAnalyzer] *)
(* ================================================================== *)

Record Violation := mkViolation {
  rule_category : str;
  rule_name : str;
  severity : str;
  line_number : nat;
  description : str;
  suggestion : str;
  code_snippet : str
}.

(** What a call of a rule function did: it returned, or it raised. *)
Inductive outcome := Returned | Raised (e : str).

Section Detectors.

(** [self.language], already lower-cased by [__init__]. *)
Variable language : str.

Definition is_js : bool := str_eqb language "js" || str_eqb language "ts".
Definition is_python : bool := str_eqb language "python".

(** The body of a [for i, line in enumerate(lines, 1)] loop that only
    appends violations. *)
Definition for_lines (body : nat -> str -> list Violation)
    (lines : list str) : list Violation :=
  flat_map (fun il => body (fst il) (snd il)) (enumerate1 lines).

Definition naming_js (i : nat) (line : str) : list Violation :=
  flat_map (fun m =>
      if contains "_" (group 2 m) then
        [mkViolation "naming" "camelCaseConvention" "error" i
           ("Use camelCase: " ++ group 2 m)
           "Change variable/function name to camelCase" (strip line)]
      else [])
    (finditer js_decl_pattern line).

Definition naming_python (i : nat) (line : str) : list Violation :=
  flat_map (fun m =>
      let name := group 2 m in
      if negb (str_eqb name (lower name)) && negb (contains "_" name) then
        [mkViolation "naming" "snakeCaseConvention" "error" i
           ("Use snake_case: " ++ name)
           "Change function/class name to snake_case" (strip line)]
      else [])
    (finditer py_decl_pattern line).

Definition _check_naming_conventions (lines : list str) : list Violation :=
  if is_js then for_lines naming_js lines
  else if is_python then for_lines naming_python lines
  else [].

Definition brace_delta (line : str) : Z :=
  (Z.of_nat (count_char "{" line) - Z.of_nat (count_char "}" line))%Z.

(** The [while j < len(lines) and brace_count > 0] loop; [rest] is
    [lines[j:]] and the result the lines it appends to [func_lines]. *)
Fixpoint brace_scan (rest : list str) (brace_count : Z) : list str :=
  match rest with
  | [] => []
  | l :: rest' =>
      if (0 <? brace_count)%Z
      then l :: brace_scan rest' (brace_count + brace_delta l)%Z
      else []
  end.

Definition js_func_lines (lines : list str) (i : nat) (line : str) : list str :=
  line :: brace_scan (drop i lines) (brace_delta line).

Definition function_js (lines : list str) (i : nat) (line : str)
    : list Violation :=
  if contains "function " line then
    let func_start := i - 1 in
    let func_lines := js_func_lines lines i line in
    let func_content := join [newline] func_lines in
    if 20 <? length func_lines then
      [mkViolation "functions" "functionLength" "warning" func_start
         ("Function is too long (" ++ str_of_nat (length func_lines) ++ " lines)")
         "Break down into smaller functions"
         (take 100 func_content ++ "...")]
    else []
  else [].

Definition indent_of (line : str) : nat := length line - length (lstrip line).

(** The [while j < len(lines)] loop of the indentation variant. *)
Fixpoint indent_scan (rest : list str) (indent_level : nat) : list str :=
  match rest with
  | [] => []
  | l :: rest' =>
      if negb (str_eqb (strip l) []) && (indent_of l <=? indent_level)
      then []
      else l :: indent_scan rest' indent_level
  end.

Definition function_python (lines : list str) (i : nat) (line : str)
    : list Violation :=
  if startswith "def " (strip line) then
    let func_start := i - 1 in
    let func_lines := indent_scan (drop i lines) (indent_of line) in
    if 20 <? length func_lines then
      [mkViolation "functions" "functionLength" "warning" func_start
         ("Function is too long (" ++ str_of_nat (length func_lines) ++ " lines)")
         "Break down into smaller functions"
         (join [newline] (take 3 func_lines) ++ "...")]
    else []
  else [].

Definition _check_function_design (lines : list str) : list Violation :=
  if is_js then for_lines (function_js lines) lines
  else if is_python then for_lines (function_python lines) lines
  else [].

Definition str_in (s : str) (l : list str) : bool :=
  existsb (str_eqb s) l.

Definition comment_line (i : nat) (line : str) : list Violation :=
  let stripped := strip line in
  if startswith "//" stripped || startswith "#" stripped then
    let comment := strip (drop 1 stripped) in
    if str_in (lower comment) ["todo"; "fixme"; "hack"]
       || startswith "this function" (lower comment)
       || startswith "this variable" (lower comment) then
      [mkViolation "comments" "uselessComment" "info" i
         ("Potentially useless comment: " ++ comment)
         "Remove or make the comment more meaningful" (strip line)]
    else []
  else [].

Definition _check_comments (lines : list str) : list Violation :=
  for_lines comment_line lines.

Definition formatting_line (i : nat) (line : str) : list Violation :=
  (if 100 <? length line then
     [mkViolation "formatting" "lineLength" "warning" i
        ("Line too long (" ++ str_of_nat (length line) ++ " characters)")
        "Break line or shorten variable names" (strip line)]
   else [])
  ++
  (if negb (str_eqb (rstrip line) line) then
     [mkViolation "formatting" "trailingWhitespace" "info" i
        "Line has trailing whitespace"
        "Remove trailing whitespace" (strip line)]
   else []).

Definition _check_formatting (lines : list str) : list Violation :=
  for_lines formatting_line lines.

(** The [while] loop over a catch block; [rest] is [lines[j:]]. *)
Fixpoint catch_scan (rest : list str) (j : nat) : list Violation :=
  match rest with
  | [] => []
  | l :: rest' =>
      if endswith "}" (strip l) then []
      else if contains "console.log" l || contains "throw" l then []
      else
        (if negb (str_eqb (strip l) []) && negb (startswith "//" (strip l))
         then [mkViolation "error_handling" "emptyCatch" "warning" j
                 "Empty catch block or only console.log"
                 "Add proper error handling or re-throw" (strip l)]
         else [])
        ++ catch_scan rest' (S j)
  end.

Definition error_handling_line (lines : list str) (i : nat) (line : str)
    : list Violation :=
  if is_js && contains "catch" line && contains "{" line then
    catch_scan (drop i lines) i
  else if is_python && contains "except" line then
    if contains ":" line &&
       (endswith ":" (strip line) ||
        match lines !! i with
        | Some next =>
            negb (startswith "pass" (strip next)) &&
            negb (startswith "#" (strip next))
        | None => false
        end)
    then []
    else
      [mkViolation "error_handling" "poorExcept" "warning" i
         "Poor exception handling"
         "Add proper error handling logic" (strip line)]
  else [].

Definition _check_error_handling (lines : list str) : list Violation :=
  for_lines (error_handling_line lines) lines.

(** A Python [dict] from text to line numbers, in insertion order. *)
Definition line_dict := list (str * list nat).

(** [d.get(k, [])] *)
Fixpoint dict_get (k : str) (d : line_dict) : list nat :=
  match d with
  | [] => []
  | (k', v) :: d' => if str_eqb k k' then v else dict_get k d'
  end.

(** [d[k] = v]: an existing key keeps its place, a new one goes last. *)
Fixpoint dict_set (k : str) (v : list nat) (d : line_dict) : line_dict :=
  match d with
  | [] => [(k, v)]
  | (k', v') :: d' =>
      if str_eqb k k' then (k, v) :: d' else (k', v') :: dict_set k v d'
  end.

Definition comment_markers : list str := ["#"; "//"; "/*"; "*/"].

(** The test [stripped and not stripped.startswith(('#', '//', '/*', '*/'))]
    that decides whether a line is counted. *)
Definition counted (stripped : str) : bool :=
  negb (str_eqb stripped []) && negb (startswith_any comment_markers stripped).

(** One turn of the first loop of [_check_duplication]. *)
Definition count_line (line_counts : line_dict) (il : nat * str) : line_dict :=
  let stripped := strip (snd il) in
  if counted stripped
  then dict_set stripped (dict_get stripped line_counts ++ [fst il]) line_counts
  else line_counts.

Definition build_line_counts (lines : list str) : line_dict :=
  fold_left count_line (enumerate1 lines) [].

Definition duplicate_entry (e : str * list nat) : list Violation :=
  let (line, occurrences) := e in
  if (2 <? length occurrences) && (20 <? length line) then
    [mkViolation "duplication" "duplicateCode" "warning"
       (hd 0 occurrences)
       ("Duplicate code found (" ++ str_of_nat (length occurrences) ++ " times)")
       "Extract to a function or utility" line]
  else [].

Definition _check_duplication (lines : list str) : list Violation :=
  flat_map duplicate_entry (build_line_counts lines).

Definition complexity_line (i : nat) (line : str) : list Violation :=
  if startswith_any ["if "; "for "; "while "; "with "] (strip line) then
    let nesting_level := indent_of line in
    if 8 <? nesting_level then
      [mkViolation "complexity" "deepNesting" "warning" i
         ("Deep nesting level (" ++ str_of_nat (nesting_level / 4) ++ ")")
         "Use guard clauses or extract to function" (strip line)]
    else []
  else [].

Definition _check_complexity (lines : list str) : list Violation :=
  for_lines complexity_line lines.

Definition testability_line (i : nat) (line : str) : list Violation :=
  if existsb (fun keyword => contains keyword (lower line))
       ["new date()"; "datetime.now()"; "math.random"] then
    [mkViolation "testability" "hardcodedDependencies" "warning" i
       "Hardcoded time/random values make testing difficult"
       "Inject dependencies or use test doubles" (strip line)]
  else [].

Definition _check_testability (lines : list str) : list Violation :=
  for_lines testability_line lines.

Definition _check_design_patterns (lines : list str) : list Violation :=
  let class_count :=
    length (filter (fun line => contains "class " line = true) lines) in
  if 10 <? class_count then
    [mkViolation "design_patterns" "tooManyClasses" "warning" 1
       ("Too many classes (" ++ str_of_nat class_count ++ ") in single file")
       "Consider breaking into modules" "File structure analysis"]
  else [].

Definition common_numbers : list N := [0; 1; 2; 10; 100; 1000]%N.

Definition magic_contexts : list str := ["="; "+"; "-"; "*"; "/"; "if"; "for"].

Definition N_in (n : N) (l : list N) : bool := existsb (N.eqb n) l.

(** The test on one match of [number_pattern]. *)
Definition is_magic (line : str) (num : N) : bool :=
  negb (N_in num common_numbers) && (1 <? length (str_of_N num))
  && existsb (fun ctx => contains ctx (lower line)) magic_contexts.

Definition magic_violation (i : nat) (line : str) (num : N) : Violation :=
  mkViolation "magic_numbers" "magicNumber" "info" i
    ("Potential magic number: " ++ str_of_N num)
    "Replace with a named constant" (strip line).

(** The loop over the matches of one line.  [violations] is
    [self.violations]; the first match [int] refuses ends the rule, with
    what was appended before left in place. *)
Fixpoint magic_matches (i : nat) (line : str) (found : list re_match)
    (violations : list Violation) : list Violation * outcome :=
  match found with
  | [] => (violations, Returned)
  | m :: found' =>
      match int (m_text m) with
      | inl num =>
          magic_matches i line found'
            (if is_magic line num
             then violations ++ [magic_violation i line num]
             else violations)
      | inr e => (violations, Raised e)
      end
  end.

(** The loop over the lines, [i] counting them. *)
Fixpoint magic_lines (i : nat) (lines : list str) (violations : list Violation)
    : list Violation * outcome :=
  match lines with
  | [] => (violations, Returned)
  | line :: lines' =>
      match magic_matches i line (finditer number_pattern line) violations with
      | (violations', Returned) => magic_lines (S i) lines' violations'
      | (violations', Raised e) => (violations', Raised e)
      end
  end.

Definition _check_magic_numbers (lines : list str) (violations : list Violation)
    : list Violation * outcome :=
  magic_lines 1 lines violations.

End Detectors.

(** A rule function receives [content] and [lines], may append to
    [self.violations], and returns or raises. *)
Definition rule_func := str -> list str -> list Violation -> list Violation * outcome.

(** A detector that only appends and never raises: what the first nine
    are.  The tenth calls [int]. *)
Definition appends (check : list str -> list Violation) : rule_func :=
  fun _ lines violations => (violations ++ check lines, Returned).

(** [self.rules], in the order of the dictionary literal. *)
Definition rules (language : str) : list (str * rule_func) :=
  [ ("naming", appends (_check_naming_conventions language));
    ("functions", appends (_check_function_design language));
    ("comments", appends _check_comments);
    ("formatting", appends _check_formatting);
    ("error_handling", appends (_check_error_handling language));
    ("duplication", appends _check_duplication);
    ("complexity", appends _check_complexity);
    ("testability", appends _check_testability);
    ("design_patterns", appends _check_design_patterns);
    ("magic_numbers", fun _ lines => _check_magic_numbers lines) ].

(** The state threaded through the rule loop of [analyze]:
    [self.violations] and the lines printed so far. *)
Definition run_rule (content : str) (lines : list str)
    (st : list Violation * list str) (rule : str * rule_func)
    : list Violation * list str :=
  let (violations, printed) := st in
  let (rule_name, rule_func) := rule in
  match rule_func content lines violations with
  | (violations', Returned) => (violations', printed)
  | (violations', Raised e) =>
      (violations', printed ++ ["Warning: Rule " ++ rule_name ++ " failed: " ++ e])
  end.

Definition run_rules (registry : list (str * rule_func)) (content : str)
    (lines : list str) : list Violation * list str :=
  fold_left (run_rule content lines) registry ([], []).

(** The sort key [(v.severity, v.line_number)] and Python's order on it. *)
Definition key_le (a b : Violation) : bool :=
  match str_compare (severity a) (severity b) with
  | Lt => true
  | Gt => false
  | Eq => line_number a <=? line_number b
  end.

Fixpoint insert_sorted (v : Violation) (l : list Violation) : list Violation :=
  match l with
  | [] => [v]
  | w :: l' => if key_le v w then v :: l else w :: insert_sorted v l'
  end.

(** [sorted(violations, key=...)]: ascending and stable. *)
Definition sorted (l : list Violation) : list Violation :=
  foldr insert_sorted [] l.


Inductive analysis :=
| Violations (vs : list Violation)
| FileNotFoundError (msg : str).

(** [CleanCodeAnalyzer.analyze] over a rule registry; the second
    component is what the call printed. *)
Definition analyze_with (registry : list (str * rule_func)) (fs : gmap str str)
    (file_path : str) : analysis * list str :=
  match read_text fs file_path with
  | None => (FileNotFoundError ("File not found: " ++ file_path), [])
  | Some content =>
      let lines := split newline content in
      let (violations, printed) := run_rules registry content lines in
      (Violations (sorted violations), printed)
  end.

(** [CleanCodeAnalyzer(language).analyze(file_path)] *)
Definition analyze (language : str) (fs : gmap str str) (file_path : str)
    : analysis * list str :=
  analyze_with (rules (lower language)) fs file_path.

(** The violations [analyze] returns when [content] is the text it has
    read. *)
Definition analyze_content (language : str) (content : str) : list Violation :=
  sorted (fst (run_rules (rules (lower language)) content (split newline content))).

(* ================================================================== *)
(** ** The transformation engine: [CleanCodeRefactorer] *)
(* ================================================================== *)

(** The attributes of a [CleanCodeRefactorer] object. *)
Record Refactorer := mkRefactorer {
  language : str;
  refactored_lines : list str;
  rules_applied : gset str
}.

Definition set_lines (self : Refactorer) (lines : list str) : Refactorer :=
  mkRefactorer (language self) lines (rules_applied self).

Definition set_applied (self : Refactorer) (applied : gset str) : Refactorer :=
  mkRefactorer (language self) (refactored_lines self) applied.

(** [_to_camel_case] *)
Definition _to_camel_case (snake_str : str) : option str :=
  let components := split "_" snake_str in
  match mapM capitalize (tl components) with
  | Some words => Some (hd [] components ++ concat words)
  | None => None
  end.

(** [_to_snake_case] *)
Definition _to_snake_case (camel_str : str) : str :=
  concat (map (fun ic =>
                 (if isupper (snd ic) && (0 <? fst ic) then ["_"%char] else [])
                 ++ [lower_char (snd ic)])
              (enumerate0 camel_str)).

(** One turn of the loop of [_remove_trailing_whitespace]: the line at
    index [i] of the buffer is read and assigned back, stripped. *)
Definition strip_line_at (buffer : list str) (i : nat) : list str :=
  match buffer !! i with
  | Some line => <[i := rstrip line ++ [newline]]> buffer
  | None => buffer
  end.

(** [_remove_trailing_whitespace], on the line buffer. *)
Definition remove_trailing_whitespace_lines (buffer : list str) : list str :=
  fold_left strip_line_at (seq 0 (length buffer)) buffer.

Definition _remove_trailing_whitespace (self : Refactorer) : Refactorer :=
  set_lines self (remove_trailing_whitespace_lines (refactored_lines self)).

(** A method of the refactorer bound to its object, as
    [self._fix_naming_conventions] is: its qualified name and its body.
    Every transformer is declared with the single parameter [self]. *)
Record bound_method := mkMethod {
  qualname : str;
  body : Refactorer -> Refactorer * outcome
}.

(** A call of a bound method with [nargs] positional arguments.  The
    object is already bound and the method declares no other parameter,
    so any argument is one too many: Python raises [TypeError] before the
    body runs.  Both loops of [refactor] call [rule.apply_function(self)],
    with one argument. *)
Definition call (f : bound_method) (nargs : nat) (self : Refactorer)
    : Refactorer * outcome :=
  match nargs with
  | 0 => body f self
  | S _ =>
      (self, Raised (qualname f ++ "() takes 1 positional argument but "
                     ++ str_of_nat (S nargs) ++ " were given"))
  end.

Record RefactoringRule := mkRule {
  name : str;
  category : str;
  rule_description : str;
  apply_function : bound_method
}.

(** The dictionaries [refactor] returns. *)
Inductive refactor_result :=
| Succeeded (applied : list str) (backup_file : option str) (changes_count : Z)
| Failed (error : str) (applied : list str).

(** [file.readlines()] on the text read: each line keeps its line
    feed. *)
Fixpoint readlines (s : str) : list str :=
  match s with
  | [] => []
  | c :: s' =>
      if char_eqb c newline then [c] :: readlines s'
      else match readlines s' with
           | [] => [[c]]
           | l :: ls => (c :: l) :: ls
           end
  end.

(** [file.writelines(lines)] writes the concatenation; a line feed is
    written as it is. *)
Definition writelines (lines : list str) : str := concat lines.

(** The state of one [refactor] call: the object, the files, the writes
    in the order they were made, and what was printed. *)
Record world := mkWorld {
  w_self : Refactorer;
  w_files : gmap str str;
  w_writes : list (str * str);
  w_printed : list str
}.

Definition write_file (path : str) (text : str) (w : world) : world :=
  mkWorld (w_self w) (<[path := text]> (w_files w))
          (w_writes w ++ [(path, text)]) (w_printed w).

Section Engine.

(** The rule table returned by [_get_all_rules], in the order of its
    dictionary literal. *)
Variable all_rules : list (str * RefactoringRule).

(** [all_rules[rule_name]], when [rule_name in all_rules]. *)
Definition find_rule (rule_name : str) : option RefactoringRule :=
  match list_find (fun e => str_eqb rule_name (fst e) = true) all_rules with
  | Some (_, (_, rule)) => Some rule
  | None => None
  end.

(** The loop over an explicit list of rule names: no handler around
    the call, so the first exception leaves the loop. *)
Fixpoint apply_named (names : list str) (self : Refactorer)
    : Refactorer * outcome :=
  match names with
  | [] => (self, Returned)
  | rule_name :: names' =>
      match find_rule rule_name with
      | Some rule =>
          match call (apply_function rule) 1 self with
          | (self', Returned) =>
              apply_named names'
                (set_applied self' ({[rule_name]} ∪ rules_applied self'))
          | (self', Raised e) => (self', Raised e)
          end
      | None => apply_named names' self
      end
  end.

(** The loop over every rule: each call has its own handler. *)
Fixpoint apply_all (table : list (str * RefactoringRule))
    (st : Refactorer * list str) : Refactorer * list str :=
  match table with
  | [] => st
  | (_, rule) :: table' =>
      let (self, printed) := st in
      match call (apply_function rule) 1 self with
      | (self', Returned) =>
          apply_all table'
            (set_applied self' ({[name rule]} ∪ rules_applied self'), printed)
      | (self', Raised e) =>
          apply_all table'
            (self', printed ++ ["Warning: Rule " ++ name rule ++ " failed: " ++ e])
      end
  end.

(** [refactor(file_path, rules)]; [now] is the formatted time stamp. *)
Definition refactor_with (self : Refactorer) (fs : gmap str str)
    (file_path : str) (rules : option (list str)) (now : str)
    : refactor_result * world :=
  match read_text fs file_path with
  | None =>
      (Failed ("[Errno 2] No such file or directory: " ++ repr file_path)
              (elements (rules_applied self)),
       mkWorld self fs [] [])
  | Some text =>
      let lines := readlines text in
      let self0 := mkRefactorer (language self) lines ∅ in
      let '(self1, printed, raised) :=
        match rules with
        | Some (r :: rs) =>
            let (s, o) := apply_named (r :: rs) self0 in (s, [], o)
        | _ =>
            let (s, p) := apply_all all_rules (self0, []) in (s, p, Returned)
        end in
      match raised with
      | Raised e =>
          (Failed e (elements (rules_applied self1)),
           mkWorld self1 fs [] printed)
      | Returned =>
          if bool_decide (rules_applied self1 = ∅) then
            (Succeeded [] None 0, mkWorld self1 fs [] printed)
          else
            let backup_path := file_path ++ ".backup." ++ now in
            let w := write_file file_path (writelines (refactored_lines self1))
                       (write_file backup_path (writelines lines)
                          (mkWorld self1 fs [] printed)) in
            (Succeeded (elements (rules_applied self1)) (Some backup_path)
               (Z.of_nat (length (refactored_lines self1))
                - Z.of_nat (length lines))%Z,
             w)
      end
  end.

End Engine.

Section Registry.

(** The bodies of the six transformers no property below depends on;
    each is a method with the single parameter [self]. *)
Variables _fix_naming_conventions _shorten_functions _break_long_lines
          _extract_constants _improve_error_handling _remove_useless_comments
  : Refactorer -> Refactorer * outcome.

Definition method (short : str) (f : Refactorer -> Refactorer * outcome)
    : bound_method :=
  mkMethod ("CleanCodeRefactorer." ++ short) f.

(** [_get_all_rules]: each rule holds the bound method [self._...]. *)
Definition _get_all_rules : list (str * RefactoringRule) :=
  [ ("fix_naming",
     mkRule "fix_naming" "naming" "Fix naming conventions"
       (method "_fix_naming_conventions" _fix_naming_conventions));
    ("shorten_functions",
     mkRule "shorten_functions" "functions" "Break down long functions"
       (method "_shorten_functions" _shorten_functions));
    ("remove_trailing_whitespace",
     mkRule "remove_trailing_whitespace" "formatting" "Remove trailing whitespace"
       (method "_remove_trailing_whitespace"
          (fun self => (_remove_trailing_whitespace self, Returned))));
    ("break_long_lines",
     mkRule "break_long_lines" "formatting" "Break long lines"
       (method "_break_long_lines" _break_long_lines));
    ("extract_constants",
     mkRule "extract_constants" "magic_numbers" "Extract magic numbers to constants"
       (method "_extract_constants" _extract_constants));
    ("improve_error_handling",
     mkRule "improve_error_handling" "error_handling" "Improve error handling"
       (method "_improve_error_handling" _improve_error_handling));
    ("remove_useless_comments",
     mkRule "remove_useless_comments" "comments" "Remove useless comments"
       (method "_remove_useless_comments" _remove_useless_comments)) ].

(** [CleanCodeRefactorer.refactor] *)
Definition refactor := refactor_with _get_all_rules.

End Registry.

(* ================================================================== *)
(** ** Definitions used by the statements *)
(* ================================================================== *)

(** The brace depth after the lines [ls]: opening minus closing braces. *)
Definition brace_depth (ls : list str) : Z :=
  foldr (fun l acc => (brace_delta l + acc)%Z) 0%Z ls.

(** The function opened at index [k] has a body of [n] lines, counted
    from the opening line: the depth stays positive after each of the
    first [n - 1] lines and is back at zero (or below) after the [n]-th,
    unless the file ends there. *)
Definition brace_body (lines : list str) (k n : nat) : bool :=
  (1 <=? n) && (k + n <=? length lines)
  && forallb (fun t => (0 <? brace_depth (take t (drop k lines)))%Z)
             (seq 1 (n - 1))
  && ((brace_depth (take n (drop k lines)) <=? 0)%Z
      || (k + n =? length lines)).

(** The numbers, ascending from 1, of the lines whose trimmed text is
    [key]. *)
Definition occurrences_of (key : str) (lines : list str) : list nat :=
  map fst (filter (fun il => strip (snd il) = key) (enumerate1 lines)).

(** What the loop of [_remove_trailing_whitespace] assigns to a line. *)
Definition strip_newline (line : str) : str := rstrip line ++ [newline].

(** The keys are pairwise distinct and no entry is empty. *)
Definition dict_ok (d : line_dict) : Prop :=
  NoDup (map fst d) /\ Forall (fun e => snd e <> []) d.

(** The violation [_check_duplication] appends for the text [key] found
    on the lines [occ]. *)
Definition duplicate_violation (key : str) (occ : list nat) : Violation :=
  mkViolation "duplication" "duplicateCode" "warning" (hd 0 occ)
    ("Duplicate code found (" ++ str_of_nat (length occ) ++ " times)")
    "Extract to a function or utility" key.

(** A line of 25 characters. *)
Definition sample_line : str := "result = compute(a, b, c)".

(** A brace-delimited function with [statements] lines between its
    opening and its closing line, followed by one more line. *)
Definition brace_function (statements : nat) : list str :=
  ["function compute(items) {"] ++ replicate statements "  total += step(items);"
  ++ ["}"; "render();"].




(** Three lines: 42 after [=], 42 with no context, 100 after [=]. *)
(** What the loop over the matches of a line appends when [int]
    accepts each of them. *)
Definition magic_line (i : nat) (line : str) : list Violation :=
  flat_map (fun m =>
      let num := int_of_digits (m_text m) in
      if is_magic line num then [magic_violation i line num] else [])
    (finditer number_pattern line).





(** The ranking the specification gives the severities: errors first,
    then warnings, then the rest. *)
Definition spec_severity_rank (sev : str) : nat :=
  if str_eqb sev "error" then 0 else if str_eqb sev "warning" then 1 else 2.

(** The order the specification asks for: by rank, then by line. *)
Definition spec_key_le (a b : Violation) : Prop :=
  spec_severity_rank (severity a) < spec_severity_rank (severity b)
  \/ (spec_severity_rank (severity a) = spec_severity_rank (severity b)
      /\ line_number a <= line_number b).

(** A list is in the specified order when each violation precedes, in
    that order, every violation after it. *)
Definition spec_ordered (l : list Violation) : Prop :=
  StronglySorted spec_key_le l.

(** A file system holding one file. *)
Definition single_file (path content : str) : gmap str str := {[ path := content ]}.

(** A file with a warning on line 1 and an info on line 2. *)
Definition order_sample : str :=
  "stamp = datetime.now()" ++ [newline] ++ "limit = 999" ++ [newline].

(** The scenario of the specification: a 30-character line with trailing
    whitespace, the literal 999 in an assignment, a bare [except:] whose
    next line is [pass]. *)
Definition scenario : str :=
  "try:" ++ [newline] ++
  "    value = compute_total()   " ++ [newline] ++
  "    limit = 999" ++ [newline] ++
  "except:" ++ [newline] ++
  "    pass" ++ [newline].

(** A rule function that, returning or raising, leaves what
    [self.violations] held in place and at most appends to it. *)
Definition only_appends (f : rule_func) : Prop :=
  forall content lines violations,
    exists more, fst (f content lines violations) = violations ++ more.

(** A method body that returns at once. *)
Definition keep : Refactorer -> Refactorer * outcome :=
  fun self => (self, Returned).

(** One python file with trailing whitespace on its only line. *)
Definition app_file : gmap str str :=
  single_file "app.py" ("x = 1  " ++ [newline]).

(** [CleanCodeRefactorer("python")], as [__init__] leaves it. *)
Definition fresh : Refactorer := mkRefactorer "python" [] ∅.

(** The text of a file with a CR LF after its first line and a lone CR
    after its second. *)
Definition crlf_text : str := "x = 1" ++ [cr; newline] ++ "y = 2" ++ [cr].

(* ================================================================== *)
(** ** The other transformers of [CleanCodeRefactorer] *)
(* ================================================================== *)

(** [s.replace(old, new)] for a non-empty [old]: every occurrence, from
    left to right, without overlap; [skip] counts the characters of the
    last occurrence still to be passed. *)
Fixpoint replace_from (old new s : str) (skip : nat) : str :=
  match s with
  | [] => []
  | c :: s' =>
      match skip with
      | S n => replace_from old new s' n
      | 0 =>
          if startswith old s
          then new ++ replace_from old new s' (length old - 1)
          else c :: replace_from old new s' 0
      end
  end.

Definition replace (old new s : str) : str := replace_from old new s 0.

(** [s.replace(old, new, 1)] for a non-empty [old]: the first occurrence
    only. *)
Fixpoint replace_first (old new s : str) : str :=
  match s with
  | [] => []
  | c :: s' =>
      if startswith old s then new ++ drop (length old) s
      else c :: replace_first old new s'
  end.

(** One turn of a loop [for i, line in enumerate(buffer)] whose body
    assigns [buffer[i]] when [f] yields a new line and leaves the buffer
    alone otherwise. *)
Definition update_at (f : str -> option str) (buffer : list str) (i : nat)
    : list str :=
  match buffer !! i with
  | Some line =>
      match f line with
      | Some line' => <[i := line']> buffer
      | None => buffer
      end
  | None => buffer
  end.

Definition update_each (f : str -> option str) (buffer : list str) : list str :=
  fold_left (update_at f) (seq 0 (length buffer)) buffer.

(** The test of [_remove_useless_comments] on the trimmed line. *)
Definition useless_comment (stripped : str) : bool :=
  startswith "//" stripped &&
  (startswith "// todo" (lower stripped)
   || startswith "// fixme" (lower stripped)
   || startswith "// hack" (lower stripped)
   || startswith "// this function" (lower stripped)).

Definition blank_comment (line : str) : option str :=
  let stripped := strip line in
  if useless_comment stripped then Some (replace_first stripped [] line)
  else None.

(** [_remove_useless_comments], on the line buffer. *)
Definition remove_useless_comments_lines (buffer : list str) : list str :=
  update_each blank_comment buffer.

Definition _remove_useless_comments (self : Refactorer) : Refactorer :=
  set_lines self (remove_useless_comments_lines (refactored_lines self)).

(** [' ' * n] *)
Definition spaces (n : nat) : str := replicate n " "%char.

(** [_break_js_line] *)
Definition _break_js_line (line : str) : str :=
  if contains "+" line && negb (contains "template" line) then
    let parts := split "+" line in
    if 1 <? length parts then
      let indent := indent_of line in
      hd [] parts ++ " +" ++ [newline] ++ spaces indent ++ join " + " (tl parts)
    else line
  else line.

(** [_break_python_line] *)
Definition _break_python_line (line : str) : str :=
  if contains "(" line && contains ")" line then
    match split "(" line with
    | part0 :: part1 :: _ =>
        let indent := indent_of line in
        part0 ++ "(" ++ [newline] ++ spaces (indent + 4)
        ++ join ", " (split "," part1) ++ [newline] ++ spaces indent ++ ")"
    | _ => line
    end
  else line.

Definition break_line (language : str) (line : str) : str :=
  if is_js language then _break_js_line line else _break_python_line line.

(** [_shorten_functions], on the line buffer: a list comprehension. *)
Definition shorten_functions_lines (language : str) (buffer : list str)
    : list str :=
  map (fun line => if length line <=? 80 then line else break_line language line)
      buffer.

Definition _shorten_functions (self : Refactorer) : Refactorer :=
  set_lines self (shorten_functions_lines (language self) (refactored_lines self)).

(** [_break_long_lines], on the line buffer. *)
Definition break_long_lines_lines (language : str) (buffer : list str)
    : list str :=
  update_each (fun line => if 100 <? length line
                           then Some (break_line language line) else None)
              buffer.

Definition _break_long_lines (self : Refactorer) : Refactorer :=
  set_lines self (break_long_lines_lines (language self) (refactored_lines self)).

Definition logger_line : str := "    logger.error(f'Error: {e}')" ++ [newline].

Definition console_line : str := "    console.error('Error:', error);" ++ [newline].

(** One turn of the [python] loop of [_improve_error_handling]: the
    lines at [i] and [i + 1] are read from the buffer as it is now. *)
Definition improve_except_at (buffer : list str) (i : nat) : list str :=
  match buffer !! i with
  | Some line =>
      if str_eqb (strip line) "except:" then
        match buffer !! (i + 1) with
        | Some next =>
            if str_eqb (strip next) "pass" then
              <[i + 1 := logger_line]>
                (<[i := replace "except:" "except Exception as e:" line]> buffer)
            else buffer
        | None => buffer
        end
      else buffer
  | None => buffer
  end.

(** One turn of the [js]/[ts] loop of [_improve_error_handling]. *)
Definition improve_catch_at (buffer : list str) (i : nat) : list str :=
  match buffer !! i with
  | Some line =>
      if contains "catch () {" line then
        let buffer' := <[i := replace "catch () {" "catch (error) {" line]> buffer in
        match buffer' !! (i + 1) with
        | Some next => <[i + 1 := console_line ++ next]> buffer'
        | None => buffer'
        end
      else buffer
  | None => buffer
  end.

(** [_improve_error_handling], on the line buffer. *)
Definition improve_error_handling_lines (language : str) (buffer : list str)
    : list str :=
  if is_js language then
    fold_left improve_catch_at (seq 0 (length buffer)) buffer
  else if is_python language then
    fold_left improve_except_at (seq 0 (length buffer)) buffer
  else buffer.

Definition _improve_error_handling (self : Refactorer) : Refactorer :=
  set_lines self
    (improve_error_handling_lines (language self) (refactored_lines self)).

(** The dictionary [magic_numbers] of [_extract_constants], in the
    order of its literal. *)
Definition magic_numbers : list (str * str) :=
  [ ("1000", "MAX_ITEMS");
    ("100", "DEFAULT_TIMEOUT");
    ("50", "MAX_RESULTS");
    ("10", "DEFAULT_LIMIT");
    ("5", "RETRY_COUNT") ].

(** The line inserted for a constant. *)
Definition declaration (language : str) (num const_name : str) : str :=
  if is_python language then const_name ++ " = " ++ num ++ [newline]
  else "const " ++ const_name ++ " = " ++ num ++ ";" ++ [newline].

(** [lines.insert(i, x)] for [i] within the list. *)
Definition insert_at (i : nat) (x : str) (buffer : list str) : list str :=
  take i buffer ++ x :: drop i buffer.

(** One turn of the inner loop of [_extract_constants], over the state
    made of the buffer, the local [i] and the local [line]. *)
Definition extract_step (language : str) (st : list str * nat * str)
    (entry : str * str) : list str * nat * str :=
  let '(buffer, i, line) := st in
  let (num, const_name) := entry in
  if contains num line then
    if (0 <? i) && negb (existsb (contains const_name) (take i buffer)) then
      (insert_at i (declaration language num const_name) buffer, S i,
       replace num const_name line)
    else (buffer, i, replace num const_name line)
  else st.

(** One turn of the outer loop: the line the iterator yields at [k] goes
    through the dictionary, then is assigned at the local [i]. *)
Definition extract_turn (language : str) (buffer : list str) (k : nat)
    (line : str) : list str :=
  let '(buffer', i, line') :=
    fold_left (extract_step language) magic_numbers (buffer, k, line) in
  <[i := line']> buffer'.

(** The outer loop runs over the buffer while it grows: the iterator
    stops when its index reaches the length the buffer has by then.
    [None] when the turns allowed by [fuel] do not get there. *)
Fixpoint extract_loop (language : str) (fuel : nat) (k : nat)
    (buffer : list str) : option (list str) :=
  match buffer !! k with
  | None => Some buffer
  | Some line =>
      match fuel with
      | 0 => None
      | S fuel' =>
          extract_loop language fuel' (S k) (extract_turn language buffer k line)
      end
  end.

(** [_extract_constants], on the line buffer. *)
Definition extract_constants_lines (language : str) (buffer : list str)
    : option (list str) :=
  extract_loop language (length buffer + 5 * length magic_numbers) 0 buffer.

(** [re.sub(pattern, repl, s)] with a function [repl]: the matches of
    [re.finditer], from left to right, each replaced by what [repl]
    gives for it; [skip] counts the characters of the last match still
    to be passed.  After an empty match the scan moves on by one
    character, which is kept.  [None] when a replacement is. *)
Fixpoint sub_scan (r : regex) (repl : re_match -> option str)
    (prev : option ascii) (s : str) (skip : nat) : option str :=
  match skip with
  | S n =>
      match s with
      | [] => Some []
      | c :: s' => sub_scan r repl (Some c) s' n
      end
  | 0 =>
      match match_here r prev s with
      | Some m =>
          match repl m with
          | Some text =>
              match s with
              | [] => Some text
              | c :: s' =>
                  match sub_scan r repl (Some c) s' (length (m_text m) - 1) with
                  | Some rest =>
                      Some (text
                            ++ (if length (m_text m) =? 0 then [c] else [])
                            ++ rest)
                  | None => None
                  end
              end
          | None => None
          end
      | None =>
          match s with
          | [] => Some []
          | c :: s' =>
              match sub_scan r repl (Some c) s' 0 with
              | Some rest => Some (c :: rest)
              | None => None
              end
          end
      end
  end.

Definition sub (r : regex) (repl : re_match -> option str) (s : str)
    : option str :=
  sub_scan r repl None s 0.

(** The patterns of [_fix_naming_conventions]: [\b], a keyword, [\s+]
    and a group made of one character of [a-z] (of [A-Z] after [class])
    followed by any number of [a-zA-Z0-9_].  In the first the keyword is
    the group [(let|const|var)] and the name is group 2. *)
Definition js_var_pattern : regex :=
  RSeq RBound
    (RSeq (RGroup 1 (RAlt (RLit "let") (RAlt (RLit "const") (RLit "var"))))
      (RSeq (RPlus isspace)
        (RGroup 2 (RSeq (RSet is_ascii_lower) (RStar ident_char))))).

Definition keyword_pattern (keyword : str) (first : ascii -> bool) : regex :=
  RSeq RBound
    (RSeq (RLit keyword)
      (RSeq (RPlus isspace)
        (RGroup 1 (RSeq (RSet first) (RStar ident_char))))).

Definition js_function_pattern : regex := keyword_pattern "function" is_ascii_lower.
Definition py_def_pattern : regex := keyword_pattern "def" is_ascii_lower.
Definition py_class_pattern : regex := keyword_pattern "class" is_ascii_upper.

(** The two substitutions on a line, for [js]/[ts] and for [python]. *)
Definition fix_js_line (line : str) : option str :=
  match sub js_var_pattern
          (fun m =>
             match _to_camel_case (group 2 m) with
             | Some name => Some (group 1 m ++ " " ++ name)
             | None => None
             end)
          line with
  | Some line' =>
      sub js_function_pattern
        (fun m =>
           match _to_camel_case (group 1 m) with
           | Some name => Some ("function " ++ name)
           | None => None
           end)
        line'
  | None => None
  end.

Definition fix_python_line (line : str) : option str :=
  match sub py_def_pattern
          (fun m => Some ("def " ++ _to_snake_case (group 1 m))) line with
  | Some line' =>
      sub py_class_pattern
        (fun m => Some ("class " ++ _to_snake_case (group 1 m))) line'
  | None => None
  end.

(** [_fix_naming_conventions], on the line buffer: each line is read,
    rewritten and assigned back in turn. *)
Definition fix_naming_conventions_lines (language : str) (buffer : list str)
    : option (list str) :=
  if is_js language then mapM fix_js_line buffer
  else if is_python language then mapM fix_python_line buffer
  else Some buffer.

Definition _fix_naming_conventions (self : Refactorer) : option Refactorer :=
  set_lines self
    <$> fix_naming_conventions_lines (language self) (refactored_lines self).

(* ================================================================== *)
(** ** The command line of the analyzer: [main] *)
(* ================================================================== *)

(** [table[key]] on a dictionary literal with text keys. *)
Fixpoint assoc (key : str) (table : list (str * str)) : option str :=
  match table with
  | [] => None
  | (k, v) :: table' => if str_eqb key k then Some v else assoc key table'
  end.

(** The choices of [--language] and of [--output]: [parse_args] lets
    no other value through. *)
Inductive language_choice := Js | Ts | Python.
Inductive output_choice := Text | Json.

(** The namespace [parse_args] returns. *)
Record Namespace := mkNamespace {
  args_file : str;
  args_language : language_choice;
  args_output : output_choice
}.

(** [args.language] *)
Definition language_text (choice : language_choice) : str :=
  match choice with
  | Js => "js"
  | Ts => "ts"
  | Python => "python"
  end.

(** [args.language.upper()], at each choice. *)
Definition language_upper (choice : language_choice) : str :=
  match choice with
  | Js => "JS"
  | Ts => "TS"
  | Python => "PYTHON"
  end.

(** What a run of the program leaves behind. *)
Record run := mkRun {
  stdout : list str;
  stderr : list str;
  status : nat
}.

Definition severity_icon : list (str * str) :=
  [ ("error", "[ERROR]"); ("warning", "[WARN]"); ("info", "[INFO]") ].

Section Main.

(** [json.dumps(result, indent=2)] of the report dictionary: a library
    function, left open. *)
Variable json_dumps : str -> str -> list Violation -> str.

(** The three [print] calls for one violation; a severity without an
    icon raises [KeyError]. *)
Definition print_violation (v : Violation) : option (list str) :=
  match assoc (severity v) severity_icon with
  | Some icon =>
      Some [ icon ++ " Line " ++ str_of_nat (line_number v) ++ ": " ++ description v;
             "   Suggestion: " ++ suggestion v;
             "   Code: " ++ take 50 (code_snippet v) ++ "..." ++ [newline] ]
  | None => None
  end.

(** The loop over the violations of the text report. *)
Fixpoint print_violations (violations : list Violation) (printed : list str)
    : list str * outcome :=
  match violations with
  | [] => (printed, Returned)
  | v :: violations' =>
      match print_violation v with
      | Some texts => print_violations violations' (printed ++ texts)
      | None => (printed, Raised (repr (severity v)))
      end
  end.

(** [main], from the parsed arguments on. *)
Definition main (args : Namespace) (fs : gmap str str) : run :=
  match analyze (language_text (args_language args)) fs (args_file args) with
  | (FileNotFoundError msg, printed) => mkRun printed ["Error: " ++ msg] 1
  | (Violations violations, printed) =>
      match args_output args with
      | Json =>
          mkRun (printed
                 ++ [json_dumps (args_file args)
                       (language_text (args_language args)) violations])
                [] 0
      | Text =>
          let header :=
            [ [newline] ++ "Clean Code Analysis Report";
              "File: " ++ args_file args;
              "Language: " ++ language_upper (args_language args);
              "Total Violations: " ++ str_of_nat (length violations)
              ++ [newline] ] in
          match violations with
          | [] =>
              mkRun (printed ++ header ++ ["No Clean Code violations found!"])
                    [] 0
          | _ =>
              match print_violations violations (printed ++ header) with
              | (printed', Returned) => mkRun printed' [] 0
              | (printed', Raised e) => mkRun printed' ["Error: " ++ e] 1
              end
          end
      end
  end.

End Main.

(* ================================================================== *)
(** ** Definitions used by the further statements *)
(* ================================================================== *)

(** Two violations have the same sort key. *)
Definition same_key (a b : Violation) : bool :=
  str_eqb (severity a) (severity b) && (line_number a =? line_number b).

(** The category, rule name and severity of the violations the ten
    detectors build. *)
Definition rule_signatures : list (str * str * str) :=
  [ ("naming", "camelCaseConvention", "error");
    ("naming", "snakeCaseConvention", "error");
    ("functions", "functionLength", "warning");
    ("comments", "uselessComment", "info");
    ("formatting", "lineLength", "warning");
    ("formatting", "trailingWhitespace", "info");
    ("error_handling", "emptyCatch", "warning");
    ("error_handling", "poorExcept", "warning");
    ("duplication", "duplicateCode", "warning");
    ("complexity", "deepNesting", "warning");
    ("testability", "hardcodedDependencies", "warning");
    ("design_patterns", "tooManyClasses", "warning");
    ("magic_numbers", "magicNumber", "info") ].

Definition signature (v : Violation) : str * str * str :=
  (rule_category v, rule_name v, severity v).

(** The two rules that report a list index instead of a line number. *)
Definition reports_index (v : Violation) : bool :=
  str_eqb (rule_name v) "functionLength" || str_eqb (rule_name v) "emptyCatch".

(** The place of a severity in the order of the strings. *)
Definition text_rank (sev : str) : nat :=
  if str_eqb sev "error" then 0 else if str_eqb sev "info" then 1 else 2.

(** The order [analyze] returns the violations of the ten detectors in. *)
Definition text_order (a b : Violation) : Prop :=
  text_rank (severity a) < text_rank (severity b)
  \/ (text_rank (severity a) = text_rank (severity b)
      /\ line_number a <= line_number b).

(** A rule function that raises [e] whatever it is given. *)
Definition always_raises (f : rule_func) (e : str) : Prop :=
  forall content lines violations, snd (f content lines violations) = Raised e.

(** A rule function that raises at once. *)
Definition failing_rule : rule_func :=
  fun _ _ violations => (violations, Raised "index out of range").

(** What the ten detectors append, in the order of the registry. *)
Definition collected (language : str) (lines : list str) : list Violation :=
  _check_naming_conventions language lines
  ++ _check_function_design language lines
  ++ _check_comments lines
  ++ _check_formatting lines
  ++ _check_error_handling language lines
  ++ _check_duplication lines
  ++ _check_complexity lines
  ++ _check_testability lines
  ++ _check_design_patterns lines
  ++ fst (_check_magic_numbers lines []).

(** What [analyze] prints for the ten detectors: the warning of the
    tenth, when [int] has raised in it. *)
Definition magic_warning (lines : list str) : list str :=
  match snd (_check_magic_numbers lines []) with
  | Returned => []
  | Raised e => ["Warning: Rule magic_numbers failed: " ++ e]
  end.

(** The index in [lines] of the line a violation quotes: [emptyCatch]
    carries the index itself, the other rules the line number. *)
Definition quoted_index (v : Violation) : nat :=
  if str_eqb (rule_name v) "emptyCatch" then line_number v
  else line_number v - 1.

(** The rules whose snippet is the trimmed text of one line. *)
Definition quotes_line (v : Violation) : bool :=
  negb (str_eqb (rule_name v) "functionLength"
        || str_eqb (rule_name v) "tooManyClasses").

(** The facts every violation of the ten detectors satisfies. *)
Definition well_formed (lines : list str) (v : Violation) : Prop :=
  signature v ∈ rule_signatures
  /\ line_number v <= length lines
  /\ (reports_index v = false -> 1 <= line_number v)
  /\ (quotes_line v = true ->
      exists line, lines !! quoted_index v = Some line
                   /\ code_snippet v = strip line).

(** The test of [_check_comments] on the comment text. *)
Definition useless_text (comment : str) : bool :=
  str_in (lower comment) ["todo"; "fixme"; "hack"]
  || startswith "this function" (lower comment)
  || startswith "this variable" (lower comment).

(** The body of the function defined at index [k] has [n] lines in the
    indentation variant: the [n] lines after the [def] line are blank or
    indented deeper than it, and the next line, if there is one, is
    neither. *)
Definition in_body (indent_level : nat) (l : str) : bool :=
  str_eqb (strip l) [] || (indent_level <? indent_of l).

Definition indent_body (lines : list str) (k n : nat) (line : str) : bool :=
  (S k + n <=? length lines)
  && forallb (in_body (indent_of line)) (take n (drop (S k) lines))
  && match lines !! (S k + n) with
     | Some l => negb (in_body (indent_of line) l)
     | None => true
     end.

(** A [def] followed by [statements] indented lines and one line at the
    margin. *)
Definition python_function (statements : nat) : list str :=
  ["def compute(items):"] ++ replicate statements "    total += step(items)"
  ++ ["render()"].

(** The lines [readlines] yields are well shaped: each holds no line
    feed before its last character, and each but the last ends in one. *)
Definition full_line (line : str) : Prop :=
  exists body, (newline ∉ body) /\ line = body ++ [newline].

Definition last_line (line : str) : Prop :=
  full_line line \/ (line <> [] /\ (newline ∉ line)).

Fixpoint well_split (lines : list str) : Prop :=
  match lines with
  | [] => True
  | [line] => last_line line
  | line :: rest => full_line line /\ well_split rest
  end.

(** [_to_snake_case] from the character at index [k] on. *)
Definition snake_from (k : nat) (s : str) : str :=
  concat (map (fun ic =>
                 (if isupper (snd ic) && (0 <? fst ic) then ["_"%char] else [])
                 ++ [lower_char (snd ic)])
              (zip (seq k (length s)) s)).

(** After its first character, a name in the underscore convention has
    no upper-case character, and after each underscore a lower-case
    letter with its upper-case form in the range: one of U+0061..U+007A,
    U+00E0..U+00F6, U+00F8..U+00FE. *)
Fixpoint snake_tail (s : str) : bool :=
  match s with
  | [] => true
  | c :: s' =>
      (if char_eqb c "_"
       then match s' with d :: _ => has_upper d | [] => false end
       else negb (isupper c))
      && snake_tail s'
  end.

(** A name in the underscore convention: it does not start with an
    underscore either. *)
Definition snake_name (s : str) : bool :=
  match s with
  | [] => true
  | c :: _ => negb (char_eqb c "_")
  end && snake_tail s.

(** A name in the mixed-case convention: no underscore, and no
    upper-case first character. *)
Definition camel_name (s : str) : bool :=
  match s with
  | [] => true
  | c :: _ => negb (isupper c)
  end && forallb (fun c => negb (char_eqb c "_")) s.

(** The characters of a line that are not whitespace. *)
Definition visible (s : str) : str := filter (fun c => isspace c = false) s.

(** The pair the [python] loop of [_improve_error_handling] looks for:
    a line whose trimmed text is [except:] followed by one whose trimmed
    text is [pass]. *)
Definition bare_except_at (buffer : list str) (i : nat) : bool :=
  match buffer !! i, buffer !! (i + 1) with
  | Some line, Some next =>
      str_eqb (strip line) "except:" && str_eqb (strip next) "pass"
  | _, _ => false
  end.

(** A buffer with one long line, for [js]. *)
Definition long_js_buffer : list str :=
  [ "  const message = 'a long greeting for ' + firstName + ' ' + lastName + ', signed ' + author + ' on ' + today;" ++ [newline];
    "  return message;" ++ [newline] ].

(** The keys of the dictionary of [_get_all_rules], each with the name
    of the method its rule holds. *)
Definition rule_methods : list (str * str) :=
  [ ("fix_naming", "_fix_naming_conventions");
    ("shorten_functions", "_shorten_functions");
    ("remove_trailing_whitespace", "_remove_trailing_whitespace");
    ("break_long_lines", "_break_long_lines");
    ("extract_constants", "_extract_constants");
    ("improve_error_handling", "_improve_error_handling");
    ("remove_useless_comments", "_remove_useless_comments") ].

(** The method behind the first name of the list that is a key of the
    dictionary. *)
Fixpoint first_registered (names : list str) : option str :=
  match names with
  | [] => None
  | rule_name :: names' =>
      match assoc rule_name rule_methods with
      | Some m => Some m
      | None => first_registered names'
      end
  end.

(** The [TypeError] of a call with one argument too many. *)
Definition one_argument_too_many (m : str) : str :=
  "CleanCodeRefactorer." ++ m ++ "() takes 1 positional argument but 2 were given".

(** What the [js] loop of [_improve_error_handling] puts before the line
    at index [i]: the logging line, when the line before it holds an
    empty [catch]. *)
Definition console_prefix (buffer : list str) (i : nat) : str :=
  match i with
  | 0 => []
  | S j =>
      match buffer !! j with
      | Some prev => if contains "catch () {" prev then console_line else []
      | None => []
      end
  end.

(** The state of the buffer when the [js] loop reaches index [k]. *)
Definition catch_state (buffer : list str) (k : nat) (buf : list str) : Prop :=
  length buf = length buffer
  /\ forall j line, buffer !! j = Some line ->
       buf !! j
       = Some (if j <? k then
                 console_prefix buffer j
                 ++ replace "catch () {" "catch (error) {" line
               else if j =? k then console_prefix buffer j ++ line
               else line).

(** A buffer with an empty [catch]. *)
Definition catch_buffer : list str :=
  [ "try { load(); }" ++ [newline];
    "catch () {" ++ [newline];
    "}" ++ [newline] ].

(** The constants of [magic_numbers] no line before index [k] mentions. *)
Definition undeclared (k : nat) (buffer : list str) : list (str * str) :=
  filter (fun entry => existsb (contains (snd entry)) (take k buffer) = false)
         magic_numbers.

(** What the inner loop of [_extract_constants] makes of a line. *)
Definition replace_numbers (line : str) : str :=
  fold_left (fun l entry => replace (fst entry) (snd entry) l) magic_numbers line.

(** No key of [magic_numbers] occurs in the line. *)
Definition no_magic_number (line : str) : bool :=
  forallb (fun entry => negb (contains (fst entry) line)) magic_numbers.

(** A dictionary entry that maps a run of digits to a name without
    digits. *)
Definition digits_to_name (entry : str * str) : bool :=
  forallb isdigit (fst entry) && negb (str_eqb (fst entry) [])
  && forallb (fun c => negb (isdigit c)) (snd entry)
  && negb (str_eqb (snd entry) []).

(** What a pattern can match: a text and the groups it fills, the last
    filled first. *)
Fixpoint matches (r : regex) (text : str) (groups : list (nat * str)) : Prop :=
  match r with
  | RBound => text = [] /\ groups = []
  | RLit s => text = s /\ groups = []
  | RSet p => (exists c, text = [c] /\ p c = true) /\ groups = []
  | RStar p => Forall (fun c => p c = true) text /\ groups = []
  | RPlus p => text <> [] /\ Forall (fun c => p c = true) text /\ groups = []
  | RAlt r1 r2 => matches r1 text groups \/ matches r2 text groups
  | RSeq r1 r2 =>
      exists t1 g1 t2 g2,
        text = t1 ++ t2 /\ groups = g2 ++ g1
        /\ matches r1 t1 g1 /\ matches r2 t2 g2
  | RGroup n r' => exists g, matches r' text g /\ groups = (n, text) :: g
  end.

(** The text of a line without its white space and underscores, in
    lower case. *)
Definition plain (s : str) : str :=
  filter (fun c => isspace c = false /\ c <> "_"%char) (lower s).

(** How far a match attempt has come from [st] when it is at [st']: the
    text read and the groups filled in between. *)
Definition reads (st st' : mstate) (text : str) (groups : list (nat * str))
    : Prop :=
  ms_rest st = text ++ ms_rest st'
  /\ ms_taken st' = rev text ++ ms_taken st
  /\ ms_groups st' = groups ++ ms_groups st.

(** The keywords the patterns of [_fix_naming_conventions] begin with. *)
Definition naming_keywords (language : str) : list str :=
  if is_js language then ["let"; "const"; "var"; "function"]
  else if is_python language then ["def"; "class"]
  else [].

(* ================================================================== *)
(** * Part II: properties *)
(* ================================================================== *)

(* ================================================================== *)
(** ** Facts about strings *)
(* ================================================================== *)

Lemma char_eqb_eq (a b : ascii) : char_eqb a b = true <-> a = b.
Proof. apply Ascii.eqb_eq. Qed.

Lemma str_eqb_eq (a b : str) : str_eqb a b = true <-> a = b.
Proof.
  revert b. induction a as [|x a IH]; intros [|y b]; simpl; try (split; congruence).
  rewrite andb_true_iff, char_eqb_eq, IH. split.
  - intros [-> ->]; reflexivity.
  - intros [= -> ->]; split; reflexivity.
Qed.

Lemma str_eqb_refl (a : str) : str_eqb a a = true.
Proof. apply str_eqb_eq; reflexivity. Qed.

Lemma str_eqb_neq (a b : str) : str_eqb a b = false <-> a <> b.
Proof.
  rewrite <- str_eqb_eq. destruct (str_eqb a b); split; congruence.
Qed.

Lemma rstrip_cons (c : ascii) (s : str) :
  rstrip (c :: s) =
  if isspace c && str_eqb (rstrip s) [] then [] else c :: rstrip s.
Proof.
  simpl. destruct (rstrip s) as [|x r]; simpl.
  - destruct (isspace c); reflexivity.
  - rewrite andb_false_r. reflexivity.
Qed.

Lemma rstrip_cons_nonspace (c : ascii) (s : str) :
  isspace c = false -> rstrip (c :: s) = c :: rstrip s.
Proof. intros H. rewrite rstrip_cons, H. reflexivity. Qed.

Lemma rstrip_cons_nonempty (c : ascii) (s : str) :
  rstrip s <> [] -> rstrip (c :: s) = c :: rstrip s.
Proof.
  intros H. rewrite rstrip_cons.
  apply str_eqb_neq in H. rewrite H, andb_false_r. reflexivity.
Qed.

Lemma rstrip_app_nonempty (ws s : str) :
  rstrip s <> [] -> rstrip (ws ++ s) = ws ++ rstrip s.
Proof.
  intros H. induction ws as [|w ws IH]; [reflexivity|].
  change ((w :: ws) ++ s) with (w :: (ws ++ s)).
  rewrite rstrip_cons_nonempty; rewrite IH; [reflexivity|].
  destruct ws; simpl; [exact H | discriminate].
Qed.

Lemma rstrip_snoc_space (s : str) (c : ascii) :
  isspace c = true -> rstrip (s ++ [c]) = rstrip s.
Proof.
  intros Hc. induction s as [|x s IH].
  - simpl. rewrite Hc. reflexivity.
  - change ((x :: s) ++ [c]) with (x :: (s ++ [c])).
    rewrite !rstrip_cons, IH. reflexivity.
Qed.

Lemma rstrip_idempotent (s : str) : rstrip (rstrip s) = rstrip s.
Proof.
  induction s as [|x s IH]; [reflexivity|].
  rewrite rstrip_cons.
  destruct (isspace x && str_eqb (rstrip s) []) eqn:E; [reflexivity|].
  apply andb_false_iff in E as [Hx|He].
  - rewrite rstrip_cons_nonspace by exact Hx. rewrite IH. reflexivity.
  - apply str_eqb_neq in He.
    rewrite rstrip_cons_nonempty; rewrite IH; [reflexivity | exact He].
Qed.

Lemma lstrip_app_space (ws s : str) :
  Forall (fun c => isspace c = true) ws -> lstrip (ws ++ s) = lstrip s.
Proof.
  induction 1 as [|w ws Hw _ IH]; [reflexivity|].
  simpl. rewrite Hw. exact IH.
Qed.

Lemma startswith_app (p s : str) : startswith p (p ++ s) = true.
Proof.
  induction p as [|x p IH]; [reflexivity|].
  simpl. rewrite IH, andb_true_r. apply char_eqb_eq. reflexivity.
Qed.

Lemma startswith_spec (p s : str) :
  startswith p s = true <-> exists t, s = p ++ t.
Proof.
  split.
  - revert s. induction p as [|x p IH]; intros s H.
    + exists s. reflexivity.
    + destruct s as [|y s]; [discriminate|]. simpl in H.
      apply andb_true_iff in H as [Hx Hp]. apply char_eqb_eq in Hx as ->.
      destruct (IH _ Hp) as [t ->]. exists t. reflexivity.
  - intros [t ->]. apply startswith_app.
Qed.

Lemma strip_line_at_length (buffer : list str) (i : nat) :
  length (strip_line_at buffer i) = length buffer.
Proof.
  unfold strip_line_at. destruct (buffer !! i); [apply length_insert | reflexivity].
Qed.

Lemma strip_line_at_app (l t : list str) (i : nat) :
  i < length l -> strip_line_at (l ++ t) i = strip_line_at l i ++ t.
Proof.
  intros Hi. unfold strip_line_at.
  rewrite lookup_app_l by exact Hi.
  destruct (l !! i) eqn:E; [|reflexivity].
  apply insert_app_l. exact Hi.
Qed.

Lemma fold_strip_app (idx : list nat) (l t : list str) :
  Forall (fun i => i < length l) idx ->
  fold_left strip_line_at idx (l ++ t) = fold_left strip_line_at idx l ++ t.
Proof.
  revert l. induction idx as [|i idx IH]; intros l H; [reflexivity|].
  inversion H as [|? ? Hi Hidx]; subst. simpl.
  rewrite strip_line_at_app by exact Hi.
  apply IH. rewrite strip_line_at_length. exact Hidx.
Qed.

Lemma fold_strip_length (idx : list nat) (l : list str) :
  length (fold_left strip_line_at idx l) = length l.
Proof.
  revert l. induction idx as [|i idx IH]; intros l; [reflexivity|].
  simpl. rewrite IH. apply strip_line_at_length.
Qed.

Lemma remove_trailing_whitespace_lines_map (buffer : list str) :
  remove_trailing_whitespace_lines buffer = map strip_newline buffer.
Proof.
  unfold remove_trailing_whitespace_lines.
  induction buffer as [|x l IH] using rev_ind; [reflexivity|].
  rewrite length_app, Nat.add_comm. simpl length at 1.
  rewrite seq_S, fold_left_app. simpl.
  rewrite fold_strip_app.
  2:{ apply Forall_forall. intros i Hi. apply elem_of_seq in Hi. lia. }
  rewrite IH, map_app. simpl.
  unfold strip_line_at.
  replace (length l) with (length (map strip_newline l) + 0)
    by (rewrite length_map; lia).
  rewrite lookup_app_r by lia.
  replace (length (map strip_newline l) + 0 - length (map strip_newline l)) with 0 by lia.
  simpl.
  rewrite insert_app_r. reflexivity.
Qed.

Lemma strip_newline_idempotent (line : str) :
  strip_newline (strip_newline line) = strip_newline line.
Proof.
  unfold strip_newline.
  rewrite rstrip_snoc_space by reflexivity.
  rewrite rstrip_idempotent. reflexivity.
Qed.

(** C9. The trailing-whitespace transformer is idempotent: on every
    refactorer object, hence on every line buffer, running
    [_remove_trailing_whitespace] twice leaves the same object as running
    it once. *)
Theorem remove_trailing_whitespace_idempotent (self : Refactorer) :
  _remove_trailing_whitespace (_remove_trailing_whitespace self)
  = _remove_trailing_whitespace self.
Proof.
  unfold _remove_trailing_whitespace, set_lines. simpl. f_equal.
  rewrite !remove_trailing_whitespace_lines_map, map_map.
  apply map_ext. intros line. apply strip_newline_idempotent.
Qed.

(** C8. The two concrete conversions: [my_var_name] becomes [myVarName]
    under [_to_camel_case], the convention of the brace languages, and
    [myVarName] becomes [my_var_name] under [_to_snake_case], the
    convention of the indentation language. *)
Theorem naming_round_trip_instances :
  _to_camel_case "my_var_name" = Some "myVarName"
  /\ _to_snake_case "myVarName" = "my_var_name".
Proof. split; reflexivity. Qed.

(* ================================================================== *)
(** ** The duplication detector *)
(* ================================================================== *)

Lemma dict_get_set (k k' : str) (v : list nat) (d : line_dict) :
  dict_get k (dict_set k' v d) = if str_eqb k k' then v else dict_get k d.
Proof.
  induction d as [|[k0 v0] d IH]; simpl.
  - reflexivity.
  - destruct (str_eqb k' k0) eqn:E; simpl.
    + apply str_eqb_eq in E as ->. destruct (str_eqb k k0); reflexivity.
    + destruct (str_eqb k k0) eqn:E0.
      * apply str_eqb_eq in E0 as ->.
        destruct (str_eqb k0 k') eqn:E1; [|reflexivity].
        apply str_eqb_eq in E1 as ->. rewrite str_eqb_refl in E. discriminate.
      * exact IH.
Qed.

Lemma dict_set_keys (k : str) (v : list nat) (d : line_dict) :
  map fst (dict_set k v d) = if bool_decide (k ∈ map fst d) then map fst d
                            else map fst d ++ [k].
Proof.
  induction d as [|[k0 v0] d IH]; simpl; [reflexivity|].
  destruct (str_eqb k k0) eqn:E.
  - apply str_eqb_eq in E as ->. simpl.
    rewrite bool_decide_eq_true_2 by (left). reflexivity.
  - apply str_eqb_neq in E. simpl. rewrite IH.
    destruct (bool_decide (k ∈ map fst d)) eqn:B.
    + apply bool_decide_eq_true in B.
      rewrite bool_decide_eq_true_2 by (right; exact B). reflexivity.
    + apply bool_decide_eq_false in B.
      rewrite bool_decide_eq_false_2; [reflexivity|].
      intros H. apply elem_of_cons in H as [H|H]; [congruence | exact (B H)].
Qed.

Lemma dict_set_ok (k : str) (v : list nat) (d : line_dict) :
  v <> [] -> dict_ok d -> dict_ok (dict_set k v d).
Proof.
  intros Hv [Hnd Hne]. split.
  - rewrite dict_set_keys. case_bool_decide as B; [exact Hnd|].
    apply NoDup_app. repeat split; [exact Hnd | | apply NoDup_singleton].
    intros x Hx Hx'. apply list_elem_of_singleton in Hx' as ->. exact (B Hx).
  - clear Hnd. induction d as [|[k0 v0] d IH]; simpl.
    + constructor; [exact Hv | constructor].
    + inversion Hne; subst.
      destruct (str_eqb k k0); constructor; auto.
Qed.

Lemma dict_entry_get (d : line_dict) (k : str) (v : list nat) :
  dict_ok d -> ((k, v) ∈ d <-> dict_get k d = v /\ v <> []).
Proof.
  intros [Hnd Hne]. induction d as [|[k0 v0] d IH]; simpl.
  - split; [intros H; inversion H | intros [<- H]; congruence].
  - inversion Hnd as [|? ? Hk0 Hnd']; subst. inversion Hne as [|? ? Hv0 Hne']; subst.
    simpl in Hv0. specialize (IH Hnd' Hne').
    rewrite elem_of_cons. destruct (str_eqb k k0) eqn:E.
    + apply str_eqb_eq in E as ->. split.
      * intros [[= ->]|H]; [split; [reflexivity | exact Hv0]|].
        exfalso. apply Hk0. apply list_elem_of_fmap. exists (k0, v). split; [reflexivity | exact H].
      * intros [-> _]. left. reflexivity.
    + apply str_eqb_neq in E. rewrite <- IH. split.
      * intros [[= -> ->]|H]; [congruence | exact H].
      * intros H. right. exact H.
Qed.

Lemma count_line_get (k : str) (d : line_dict) (il : nat * str) :
  dict_get k (count_line d il) =
  dict_get k d ++ (if counted k && bool_decide (strip (snd il) = k)
                   then [fst il] else []).
Proof.
  unfold count_line. destruct il as [i line]. cbn [fst snd].
  set (stripped := strip line).
  case_bool_decide as B.
  - rewrite <- B. rewrite andb_true_r.
    destruct (counted stripped).
    + rewrite dict_get_set, str_eqb_refl. reflexivity.
    + rewrite app_nil_r. reflexivity.
  - rewrite andb_false_r, app_nil_r.
    destruct (counted stripped); [|reflexivity].
    rewrite dict_get_set.
    destruct (str_eqb k stripped) eqn:E; [|reflexivity].
    apply str_eqb_eq in E. congruence.
Qed.

Lemma count_line_ok (d : line_dict) (il : nat * str) :
  dict_ok d -> dict_ok (count_line d il).
Proof.
  intros H. unfold count_line.
  destruct (counted _); [|exact H].
  apply dict_set_ok; [|exact H]. destruct (dict_get _ d); discriminate.
Qed.

Lemma fold_count_ok (els : list (nat * str)) (d : line_dict) :
  dict_ok d -> dict_ok (fold_left count_line els d).
Proof.
  revert d. induction els as [|il els IH]; intros d H; [exact H|].
  simpl. apply IH, count_line_ok, H.
Qed.

Lemma fold_count_get (k : str) (els : list (nat * str)) (d : line_dict) :
  dict_get k (fold_left count_line els d) =
  dict_get k d ++ (if counted k
                   then map fst (filter (fun il => strip (snd il) = k) els)
                   else []).
Proof.
  revert d. induction els as [|il els IH]; intros d; simpl.
  - destruct (counted k); rewrite app_nil_r; reflexivity.
  - rewrite IH, count_line_get, <- app_assoc. f_equal.
    destruct (counted k); simpl; [|reflexivity].
    rewrite filter_cons. case_bool_decide as B.
    + rewrite decide_True by exact B. reflexivity.
    + rewrite decide_False by exact B. reflexivity.
Qed.

(** The dictionary built by the first loop of [_check_duplication]. *)
Lemma build_line_counts_spec (lines : list str) (key : str) (occ : list nat) :
  (key, occ) ∈ build_line_counts lines <->
  counted key = true /\ occ = occurrences_of key lines /\ occ <> [].
Proof.
  unfold build_line_counts.
  assert (Hok : dict_ok (fold_left count_line (enumerate1 lines) [])).
  { apply fold_count_ok. split; constructor. }
  rewrite (dict_entry_get _ _ _ Hok), fold_count_get. simpl.
  unfold occurrences_of. destruct (counted key).
  - split; [intros [<- H]; auto | intros (_ & -> & H); auto].
  - split; [intros [<- H]; congruence | intros (H & _); discriminate].
Qed.

Lemma build_line_counts_keys (lines : list str) :
  NoDup (map fst (build_line_counts lines)).
Proof.
  unfold build_line_counts.
  apply (fold_count_ok (enumerate1 lines) []). split; constructor.
Qed.

Lemma enumerate1_lookup {A} (l : list A) (n : nat) (x : A) :
  (n, x) ∈ enumerate1 l <-> 1 <= n /\ l !! (n - 1) = Some x.
Proof.
  unfold enumerate1. generalize 1 as k.
  induction l as [|y l IH]; intros k; simpl.
  - split; [intros H; inversion H | intros [_ H]; discriminate].
  - rewrite elem_of_cons, IH. split.
    + intros [[= -> ->]|[Hk Hl]].
      * split; [lia|]. replace (k - k) with 0 by lia. reflexivity.
      * split; [lia|]. replace (n - k) with (S (n - S k)) by lia. exact Hl.
    + intros [Hk Hl]. destruct (decide (n = k)) as [->|Hne].
      * left. replace (k - k) with 0 in Hl by lia. simpl in Hl. congruence.
      * right. split; [lia|]. replace (n - k) with (S (n - S k)) in Hl by lia. exact Hl.
Qed.

(** [occurrences_of] lists exactly the lines whose trimmed text is the key. *)
Lemma occurrences_of_spec (key : str) (lines : list str) (n : nat) :
  n ∈ occurrences_of key lines <->
  exists line, 1 <= n /\ lines !! (n - 1) = Some line /\ strip line = key.
Proof.
  unfold occurrences_of. rewrite list_elem_of_fmap. split.
  - intros [[m line] [-> H]]. apply list_elem_of_filter in H as [Hs H].
    apply enumerate1_lookup in H as [H1 H2]. exists line. simpl in *. auto.
  - intros (line & H1 & H2 & H3). exists (n, line). split; [reflexivity|].
    apply list_elem_of_filter. split; [exact H3|].
    apply enumerate1_lookup. auto.
Qed.

(** ... in ascending order, so that its head is the first occurrence. *)
Lemma occurrences_of_ascending (key : str) (lines : list str) :
  StronglySorted lt (occurrences_of key lines).
Proof.
  unfold occurrences_of, enumerate1. generalize 1 as k.
  induction lines as [|l lines IH]; intros k; simpl; [constructor|].
  rewrite filter_cons. destruct (decide _) as [E|E]; simpl; [|apply IH].
  constructor; [apply IH|].
  apply Forall_forall. intros m Hm.
  apply list_elem_of_fmap in Hm as [[m' x] [-> Hm]].
  apply list_elem_of_filter in Hm as [_ Hm].
  apply elem_of_zip_l in Hm. apply elem_of_seq in Hm. simpl. lia.
Qed.

Lemma check_duplication_snippets (lines : list str) :
  NoDup (map code_snippet (_check_duplication lines)).
Proof.
  unfold _check_duplication.
  pose proof (build_line_counts_keys lines) as H.
  induction (build_line_counts lines) as [|[k v] d IH]; simpl; [constructor|].
  inversion H as [|? ? Hk Hd]; subst. specialize (IH Hd).
  destruct ((2 <? length v) && (20 <? length k)); simpl; [|exact IH].
  constructor; [|exact IH].
  intros Hin. apply Hk. clear -Hin.
  induction d as [|[k' v'] d IH]; simpl in *; [inversion Hin|].
  destruct ((2 <? length v') && (20 <? length k')); simpl in *.
  - apply elem_of_cons in Hin as [->|Hin]; [left | right; auto].
  - right; auto.
Qed.

(** C7. The duplication detector flags a trimmed, non-comment text of
    more than 20 characters exactly when it is the trimmed text of more
    than two lines; the violation carries the number of the first such
    line and the number of such lines, and each text is flagged once.  A
    25-character line repeated three times is flagged at line 1 with
    count 3; repeated twice it is not flagged. *)
Theorem duplication_threshold (lines : list str) :
  (forall v : Violation,
     v ∈ _check_duplication lines <->
     exists key, counted key = true /\ 20 < length key
       /\ 2 < length (occurrences_of key lines)
       /\ v = duplicate_violation key (occurrences_of key lines))
  /\ NoDup (map code_snippet (_check_duplication lines))
  /\ length sample_line = 25
  /\ _check_duplication [sample_line; sample_line; sample_line]
     = [mkViolation "duplication" "duplicateCode" "warning" 1
          "Duplicate code found (3 times)"
          "Extract to a function or utility" sample_line]
  /\ _check_duplication [sample_line; sample_line] = [].
Proof.
  split; [|split; [apply check_duplication_snippets | repeat split; reflexivity]].
  intros v. unfold _check_duplication.
  rewrite list_elem_of_In, in_flat_map. split.
  - intros [[key occ] [Hin Hv]].
    apply list_elem_of_In, build_line_counts_spec in Hin as (Hc & -> & _).
    simpl in Hv.
    destruct (2 <? _) eqn:E2; [|destruct Hv].
    destruct (20 <? _) eqn:E20; [|destruct Hv].
    destruct Hv as [<-|[]].
    apply Nat.ltb_lt in E2, E20. exists key. auto.
  - intros (key & Hc & H20 & H2 & ->).
    exists (key, occurrences_of key lines). split.
    + apply list_elem_of_In, build_line_counts_spec. repeat split; [exact Hc|].
      intros E. rewrite E in H2. simpl in H2. lia.
    + simpl. apply Nat.ltb_lt in H2, H20. rewrite H2, H20. left. reflexivity.
Qed.

Lemma rstrip_app_nonspace (m rest : str) :
  Forall (fun c => isspace c = false) m -> rstrip (m ++ rest) = m ++ rstrip rest.
Proof.
  induction 1 as [|c m Hc _ IH]; [reflexivity|].
  change ((c :: m) ++ rest) with (c :: (m ++ rest)).
  rewrite rstrip_cons_nonspace by exact Hc. rewrite IH. reflexivity.
Qed.

(** Trimming an indented line that starts with visible text. *)
Lemma strip_indented (ws m rest : str) :
  Forall (fun c => isspace c = true) ws ->
  Forall (fun c => isspace c = false) m -> m <> [] ->
  strip (ws ++ m ++ rest) = m ++ rstrip rest.
Proof.
  intros Hws Hm Hne. unfold strip.
  rewrite rstrip_app_nonempty; rewrite rstrip_app_nonspace by exact Hm.
  - rewrite lstrip_app_space by exact Hws.
    destruct m as [|c m]; [congruence|]. inversion Hm; subst.
    simpl. rewrite H1. reflexivity.
  - destruct m; [congruence | discriminate].
Qed.

Lemma comment_marker_visible (marker : str) :
  marker ∈ comment_markers ->
  Forall (fun c => isspace c = false) marker /\ marker <> [].
Proof.
  unfold comment_markers. intros H.
  repeat (apply elem_of_cons in H as [->|H]);
    [split; [repeat constructor | discriminate] ..|inversion H].
Qed.

Lemma indented_comment_not_counted (ws marker rest : str) :
  Forall (fun c => isspace c = true) ws -> marker ∈ comment_markers ->
  startswith marker (strip (ws ++ marker ++ rest)) = true
  /\ counted (strip (ws ++ marker ++ rest)) = false.
Proof.
  intros Hws Hm. destruct (comment_marker_visible _ Hm) as [Hv Hne].
  rewrite strip_indented by assumption.
  split; [apply startswith_app|].
  unfold counted. apply andb_false_iff. right. apply negb_false_iff.
  unfold startswith_any. apply existsb_exists. exists marker.
  split; [apply list_elem_of_In; exact Hm | apply startswith_app].
Qed.

(** C10. The comment exclusion of the duplication detector tolerates
    indentation.  For a line made of any run of whitespace, a comment
    marker and any text: its trimmed text starts with the marker; the
    counting step leaves the dictionary as it was; in a file holding that
    line, no entry of the dictionary lists its number, and every entry
    lists exactly the lines whose trimmed text is its key. *)
Theorem duplication_comment_exclusion (ws marker rest : str) :
  Forall (fun c => isspace c = true) ws ->
  marker ∈ comment_markers ->
  let line := ws ++ marker ++ rest in
  startswith marker (strip line) = true
  /\ (forall (d : line_dict) (i : nat), count_line d (i, line) = d)
  /\ (forall (lines : list str) (i : nat) (key : str) (occ : list nat),
        lines !! i = Some line ->
        (key, occ) ∈ build_line_counts lines ->
        (S i ∉ occ)
        /\ forall n, n ∈ occ <->
             exists l, 1 <= n /\ lines !! (n - 1) = Some l /\ strip l = key).
Proof.
  intros Hws Hm line.
  destruct (indented_comment_not_counted ws marker rest Hws Hm) as [Hs Hc].
  fold line in Hs, Hc. split; [exact Hs|]. split.
  - intros d i. unfold count_line. cbn [fst snd].
    rewrite Hc. reflexivity.
  - intros lines i key occ Hi Hin.
    apply build_line_counts_spec in Hin as (Hk & -> & _). split.
    + intros Hocc. apply occurrences_of_spec in Hocc as (l & _ & Hl & Hkey).
      rewrite Nat.sub_1_r in Hl. cbn [Nat.pred] in Hl.
      pose proof (eq_trans (eq_sym Hl) Hi) as E. injection E as ->.
      rewrite Hkey, Hk in Hc. discriminate.
    + intros n. apply occurrences_of_spec.
Qed.

Lemma duplication_comment_exclusion_witness :
  let line : str := "    " ++ "//" ++ " shared helper comment text" in
  startswith "//" (strip line) = true
  /\ (forall (d : line_dict) (i : nat), count_line d (i, line) = d)
  /\ (forall (lines : list str) (i : nat) (key : str) (occ : list nat),
        lines !! i = Some line ->
        (key, occ) ∈ build_line_counts lines ->
        (S i ∉ occ)
        /\ forall n, n ∈ occ <->
             exists l, 1 <= n /\ lines !! (n - 1) = Some l /\ strip l = key).
Proof.
  apply (duplication_comment_exclusion "    " "//" " shared helper comment text").
  - repeat constructor.
  - unfold comment_markers. apply elem_of_cons. right. apply elem_of_cons. left. reflexivity.
Defined.

(* ================================================================== *)
(** ** The function-length detector, brace variant *)
(* ================================================================== *)

Lemma for_lines_elem (body : nat -> str -> list Violation) (lines : list str)
    (v : Violation) :
  v ∈ for_lines body lines <->
  exists i line, 1 <= i /\ lines !! (i - 1) = Some line /\ v ∈ body i line.
Proof.
  unfold for_lines. rewrite list_elem_of_In, in_flat_map. split.
  - intros [[i line] [Hin Hv]]. apply list_elem_of_In, enumerate1_lookup in Hin.
    exists i, line. rewrite list_elem_of_In. tauto.
  - intros (i & line & H1 & H2 & Hv). exists (i, line). split.
    + apply list_elem_of_In, enumerate1_lookup. auto.
    + apply list_elem_of_In. exact Hv.
Qed.

Lemma brace_scan_take (rest : list str) (c : Z) (m : nat) :
  m <= length rest ->
  (forall t, t < m -> (0 < c + brace_depth (take t rest))%Z) ->
  ((c + brace_depth (take m rest) <= 0)%Z \/ m = length rest) ->
  brace_scan rest c = take m rest.
Proof.
  revert c m. induction rest as [|l rest IH]; intros c m Hm Hpos Hend.
  - simpl in Hm. replace m with 0 by lia. reflexivity.
  - destruct m as [|m].
    + simpl. destruct Hend as [Hend|Hend]; [|discriminate].
      simpl in Hend. destruct (0 <? c)%Z eqn:E; [|reflexivity].
      apply Z.ltb_lt in E. lia.
    + simpl. pose proof (Hpos 0 ltac:(lia)) as H0. simpl in H0.
      replace (0 <? c)%Z with true by (symmetry; apply Z.ltb_lt; lia).
      f_equal. apply IH.
      * simpl in Hm. lia.
      * intros t Ht. specialize (Hpos (S t) ltac:(lia)). simpl in Hpos. lia.
      * destruct Hend as [Hend|Hend]; [left | right].
        -- simpl in Hend. lia.
        -- simpl in Hend. lia.
Qed.

Lemma brace_body_func_lines (lines : list str) (k n : nat) (line : str) :
  lines !! k = Some line -> brace_body lines k n = true ->
  js_func_lines lines (S k) line = take n (drop k lines).
Proof.
  intros Hk Hb. unfold brace_body in Hb.
  apply andb_true_iff in Hb as [Hb Hend].
  apply andb_true_iff in Hb as [Hb Hpos].
  apply andb_true_iff in Hb as [H1 Hlen].
  apply Nat.leb_le in H1, Hlen.
  rewrite forallb_forall in Hpos.
  rewrite (drop_S _ _ _ Hk) in Hpos, Hend |- *.
  destruct n as [|n]; [lia|]. unfold js_func_lines. simpl. f_equal.
  apply brace_scan_take.
  - rewrite length_drop. lia.
  - intros t Ht. specialize (Hpos (S t)).
    assert (Hin : In (S t) (seq 1 (S n - 1))) by (apply in_seq; lia).
    apply Hpos, Z.ltb_lt in Hin. simpl in Hin. lia.
  - apply orb_true_iff in Hend as [Hend|Hend]; [left | right].
    + apply Z.leb_le in Hend. simpl in Hend. lia.
    + apply Nat.eqb_eq in Hend. rewrite length_drop. lia.
Qed.

(** C6. In a brace-block language the body of a function is delimited by
    the brace-depth counter: it runs from the opening line to the line
    after which the depth is back at zero.  A function whose body has [n]
    lines in that sense is reported (under [func_start], the index of its
    opening line) exactly when [n] exceeds 20: a body of 20 lines is not
    flagged, a body of 21 lines is. *)
Theorem function_length_boundary (language : str) (lines : list str)
    (k n : nat) (line : str) :
  is_js language = true ->
  lines !! k = Some line ->
  contains "function " line = true ->
  brace_body lines k n = true ->
  js_func_lines lines (S k) line = take n (drop k lines)
  /\ ((exists v, v ∈ _check_function_design language lines
                /\ rule_name v = "functionLength" /\ line_number v = k)
      <-> 20 < n).
Proof.
  intros Hjs Hk Hf Hb.
  pose proof (brace_body_func_lines lines k n line Hk Hb) as Hbody.
  split; [exact Hbody|].
  assert (Hn : length (js_func_lines lines (S k) line) = n).
  { rewrite Hbody, length_take, length_drop.
    unfold brace_body in Hb. rewrite !andb_true_iff in Hb.
    destruct Hb as [[[_ Hlen] _] _]. apply Nat.leb_le in Hlen. lia. }
  unfold _check_function_design. rewrite Hjs. split.
  - intros (v & Hv & _ & Hline).
    apply for_lines_elem in Hv as (i & l & Hi & Hl & Hv).
    unfold function_js in Hv.
    destruct (contains "function " l); [|inversion Hv].
    destruct (20 <? length (js_func_lines lines i l)) eqn:E; [|inversion Hv].
    apply list_elem_of_singleton in Hv. subst v. cbn [line_number] in Hline.
    assert (i = S k) as -> by lia.
    replace (S k - 1) with k in Hl by lia.
    pose proof (eq_trans (eq_sym Hl) Hk) as El. injection El as ->.
    apply Nat.ltb_lt in E. rewrite Hn in E. exact E.
  - intros H20. eexists. split; [|split].
    + apply for_lines_elem. exists (S k), line.
      split; [lia|]. split; [replace (S k - 1) with k by lia; exact Hk|].
      unfold function_js. rewrite Hf, Hn.
      replace (20 <? n) with true by (symmetry; apply Nat.ltb_lt; exact H20).
      apply list_elem_of_singleton. reflexivity.
    + reflexivity.
    + cbn [line_number]. lia.
Qed.

Lemma function_length_boundary_witness :
  (~ exists v, v ∈ _check_function_design "js" (brace_function 18)
               /\ rule_name v = "functionLength" /\ line_number v = 0)
  /\ (exists v, v ∈ _check_function_design "js" (brace_function 19)
                /\ rule_name v = "functionLength" /\ line_number v = 0).
Proof.
  split.
  - intros H.
    apply (function_length_boundary "js" (brace_function 18) 0 20
             "function compute(items) {") in H; [lia | reflexivity ..].
  - apply (function_length_boundary "js" (brace_function 19) 0 21
             "function compute(items) {"); [reflexivity .. | lia].
Defined.

(* ================================================================== *)
(** ** The magic-number detector *)
(* ================================================================== *)










Lemma contains_char (c : ascii) (s : str) :
  contains [c] s = true <-> c ∈ s.
Proof.
  induction s as [|x s IH].
  - simpl. split; [discriminate | intros H; inversion H].
  - cbn [contains startswith]. rewrite orb_true_iff, IH, elem_of_cons.
    destruct s; rewrite andb_true_r, char_eqb_eq; split; intros [H|H]; auto.
Qed.



Lemma magic_line_elem (i : nat) (line : str) (v : Violation) :
  v ∈ magic_line i line <->
  exists m, m ∈ finditer number_pattern line
            /\ is_magic line (int_of_digits (m_text m)) = true
            /\ v = magic_violation i line (int_of_digits (m_text m)).
Proof.
  unfold magic_line. rewrite list_elem_of_In, in_flat_map. split.
  - intros [m [Hm Hv]]. exists m. rewrite list_elem_of_In.
    destruct (is_magic line _); [|destruct Hv].
    destruct Hv as [<-|[]]. auto.
  - intros (m & Hm & Hmag & ->). exists m. rewrite <- list_elem_of_In.
    split; [exact Hm|]. rewrite Hmag. left. reflexivity.
Qed.


(** The loop over the matches never takes back what was appended; what
    it appends comes from a match that passes the test. *)
Lemma magic_matches_elem (i : nat) (line : str) (found : list re_match)
    (violations : list Violation) :
  (forall v, v ∈ violations -> v ∈ fst (magic_matches i line found violations))
  /\ (forall v, v ∈ fst (magic_matches i line found violations) ->
       v ∈ violations
       \/ exists m, m ∈ found
                    /\ is_magic line (int_of_digits (m_text m)) = true
                    /\ v = magic_violation i line (int_of_digits (m_text m))).
Proof.
  revert violations. induction found as [|m found IH]; intros violations.
  - split; [auto | intros v Hv; left; exact Hv].
  - cbn [magic_matches]. unfold int.
    destruct (max_str_digits <? length (m_text m)).
    + split; [auto | intros v Hv; left; exact Hv].
    + destruct (IH (if is_magic line (int_of_digits (m_text m))
                    then violations
                         ++ [magic_violation i line (int_of_digits (m_text m))]
                    else violations)) as [Hkeep Hfrom].
      split.
      * intros v Hv. apply Hkeep.
        destruct (is_magic line _); [apply elem_of_app; left|]; exact Hv.
      * intros v Hv. destruct (Hfrom v Hv) as [Hin|(m' & Hm' & Hmag & ->)].
        -- destruct (is_magic line (int_of_digits (m_text m))) eqn:Hmag;
             [|left; exact Hin].
           apply elem_of_app in Hin as [Hin|Hin]; [left; exact Hin|].
           apply list_elem_of_singleton in Hin as ->.
           right. exists m. split; [left | auto].
        -- right. exists m'. split; [right; exact Hm' | auto].
Qed.


Lemma magic_lines_elem (lines : list str) :
  forall (k : nat) (violations : list Violation),
    (forall v, v ∈ violations -> v ∈ fst (magic_lines k lines violations))
    /\ (forall v, v ∈ fst (magic_lines k lines violations) ->
         v ∈ violations
         \/ exists j line,
              lines !! j = Some line /\ v ∈ magic_line (k + j) line).
Proof.
  induction lines as [|line lines IH]; intros k violations.
  - split; [auto | intros v Hv; left; exact Hv].
  - cbn [magic_lines].
    destruct (magic_matches_elem k line (finditer number_pattern line) violations)
      as [Hkeep Hfrom].
    assert (Hline : forall v,
              v ∈ fst (magic_matches k line (finditer number_pattern line)
                         violations) ->
              v ∈ violations
              \/ exists j l, (line :: lines) !! j = Some l
                             /\ v ∈ magic_line (k + j) l).
    { intros v Hv. destruct (Hfrom v Hv) as [Hin|Hm]; [left; exact Hin|].
      right. exists 0, line. split; [reflexivity|].
      rewrite Nat.add_0_r. apply magic_line_elem, Hm. }
    destruct (magic_matches k line (finditer number_pattern line) violations)
      as [violations' [|e]]; cbn [fst] in *.
    + destruct (IH (S k) violations') as [Hkeep' Hfrom']. split.
      * intros v Hv. apply Hkeep', Hkeep, Hv.
      * intros v Hv. destruct (Hfrom' v Hv) as [Hin|(j & l & Hj & Hl)].
        -- apply Hline, Hin.
        -- right. exists (S j), l. split; [exact Hj|].
           replace (k + S j) with (S k + j) by lia. exact Hl.
    + split; [exact Hkeep | exact Hline].
Qed.


Lemma check_magic_numbers_elem (lines : list str) (v : Violation) :
  v ∈ fst (_check_magic_numbers lines []) ->
  exists i line m,
    lines !! i = Some line
    /\ m ∈ finditer number_pattern line
    /\ is_magic line (int_of_digits (m_text m)) = true
    /\ v = magic_violation (S i) line (int_of_digits (m_text m)).
Proof.
  intros H. unfold _check_magic_numbers in H.
  apply (proj2 (magic_lines_elem lines 1 [])) in H as [H|(j & line & Hj & H)];
    [inversion H|].
  apply magic_line_elem in H as (m & Hm & Hmag & ->).
  exists j, line, m. auto.
Qed.




Lemma str_compare_antisym (a b : str) :
  str_compare b a = CompOpp (str_compare a b).
Proof.
  revert b. induction a as [|x a IH]; intros [|y b]; simpl; try reflexivity.
  rewrite (N.compare_antisym (code x) (code y)).
  destruct (N.compare (code x) (code y)); simpl; [apply IH | reflexivity ..].
Qed.

Lemma key_le_total (a b : Violation) : key_le a b = false -> key_le b a = true.
Proof.
  unfold key_le. rewrite (str_compare_antisym (severity a) (severity b)).
  destruct (str_compare (severity a) (severity b)); simpl; try congruence.
  intros H. apply Nat.leb_gt in H. apply Nat.leb_le. lia.
Qed.

Lemma insert_sorted_perm (v : Violation) (l : list Violation) :
  Permutation (v :: l) (insert_sorted v l).
Proof.
  induction l as [|w l IH]; simpl; [reflexivity|].
  destruct (key_le v w); [reflexivity|].
  rewrite perm_swap. constructor. exact IH.
Qed.

Lemma insert_sorted_sorted (v : Violation) (l : list Violation) :
  Sorted (fun a b => key_le a b = true) l ->
  Sorted (fun a b => key_le a b = true) (insert_sorted v l).
Proof.
  induction 1 as [|w l Hs IH Hhd]; simpl; [repeat constructor|].
  destruct (key_le v w) eqn:E.
  - constructor; [constructor; assumption | constructor; exact E].
  - constructor; [exact IH|].
    destruct l as [|u l]; simpl.
    + constructor. apply key_le_total, E.
    + inversion Hhd; subst. destruct (key_le v u); constructor;
        [apply key_le_total, E | assumption].
Qed.

(** What [sorted] does: the result is a rearrangement of the argument in
    ascending order of [(severity, line_number)], the severities compared
    as strings. *)
Lemma sorted_spec (l : list Violation) :
  Permutation l (sorted l) /\ Sorted (fun a b => key_le a b = true) (sorted l).
Proof.
  induction l as [|v l [IHp IHs]]; simpl; [split; constructor|]. split.
  - rewrite <- insert_sorted_perm. constructor. exact IHp.
  - apply insert_sorted_sorted, IHs.
Qed.

Lemma read_text_single (path content : str) :
  read_text (single_file path content) path = Some (universal_newlines content).
Proof.
  unfold read_text, single_file. rewrite lookup_singleton_eq. reflexivity.
Qed.

Lemma analyze_reads (language : str) (path content : str) :
  fst (analyze language (single_file path content) path)
  = Violations (analyze_content language (universal_newlines content)).
Proof.
  unfold analyze, analyze_with, analyze_content.
  rewrite read_text_single.
  destruct (run_rules _ _ _). reflexivity.
Qed.

(** C1. On a file whose first line draws a warning and whose second line
    draws an info, [analyze] returns the info first: the sort key holds
    the severity as text, and ["info"] precedes ["warning"].  The returned
    list is not in the order error, warning, info. *)
Theorem analyze_puts_info_before_warning :
  fst (analyze "python" (single_file "sample.py" order_sample) "sample.py")
  = Violations
      [ mkViolation "magic_numbers" "magicNumber" "info" 2
          "Potential magic number: 999" "Replace with a named constant"
          "limit = 999";
        mkViolation "testability" "hardcodedDependencies" "warning" 1
          "Hardcoded time/random values make testing difficult"
          "Inject dependencies or use test doubles"
          "stamp = datetime.now()" ]
  /\ ~ spec_ordered (analyze_content "python" order_sample).
Proof.
  split.
  - rewrite analyze_reads. vm_compute. reflexivity.
  - intros H.
    assert (E : analyze_content "python" order_sample =
      [ mkViolation "magic_numbers" "magicNumber" "info" 2
          "Potential magic number: 999" "Replace with a named constant"
          "limit = 999";
        mkViolation "testability" "hardcodedDependencies" "warning" 1
          "Hardcoded time/random values make testing difficult"
          "Inject dependencies or use test doubles"
          "stamp = datetime.now()" ]) by (vm_compute; reflexivity).
    rewrite E in H. inversion H as [|? ? _ Hall]; subst.
    inversion Hall as [|? ? Hle _]; subst.
    destruct Hle as [Hlt|[Heq _]]; vm_compute in *; lia.
Qed.

(* ================================================================== *)
(** ** The error-handling detector, indentation variant *)
(* ================================================================== *)

Lemma lstrip_suffix (s : str) : exists ws, s = ws ++ lstrip s.
Proof.
  induction s as [|c s [ws IH]]; [exists []; reflexivity|].
  simpl. destruct (isspace c).
  - exists (c :: ws). simpl. congruence.
  - exists []. reflexivity.
Qed.

Lemma rstrip_prefix (s : str) : exists ws, s = rstrip s ++ ws.
Proof.
  induction s as [|c s [ws IH]]; [exists []; reflexivity|].
  rewrite rstrip_cons. destruct (isspace c && str_eqb (rstrip s) []).
  - exists (c :: s). reflexivity.
  - exists ws. simpl. congruence.
Qed.

Lemma strip_elem (c : ascii) (s : str) : c ∈ strip s -> c ∈ s.
Proof.
  unfold strip. intros H.
  destruct (lstrip_suffix (rstrip s)) as [ws1 E1].
  destruct (rstrip_prefix s) as [ws2 E2].
  rewrite E2, E1. rewrite !elem_of_app. auto.
Qed.

Lemma endswith_char_elem (c : ascii) (s : str) :
  endswith [c] s = true -> c ∈ s.
Proof.
  unfold endswith. simpl. intros H.
  destruct (rev s) as [|x r] eqn:E; [discriminate|].
  simpl in H. rewrite andb_true_r in H. apply char_eqb_eq in H as <-.
  apply list_elem_of_In, in_rev. rewrite E. left. reflexivity.
Qed.

(** An [except] line that ends in a colon is never reported, whatever
    follows it: the first disjunct of the test holds and the loop
    continues. *)
Lemma except_colon_never_reported (lines : list str) (i : nat) (line : str) :
  endswith ":" (strip line) = true ->
  error_handling_line "python" lines i line = [].
Proof.
  intros H. unfold error_handling_line.
  change (is_js "python") with false. change (is_python "python") with true.
  cbn [andb]. destruct (contains "except" line); [|reflexivity].
  rewrite H. cbn [orb].
  assert (Hc : contains ":" line = true).
  { apply contains_char, strip_elem, endswith_char_elem, H. }
  rewrite Hc. reflexivity.
Qed.

(** C2. On the scenario file [analyze] reports two violations, not
    three: the trailing whitespace on line 2 and the literal 999 on line
    3.  The bare [except:] on line 4, followed by [pass], is not
    reported. *)
Theorem scenario_misses_bare_except :
  fst (analyze "python" (single_file "scenario.py" scenario) "scenario.py")
  = Violations
      [ mkViolation "formatting" "trailingWhitespace" "info" 2
          "Line has trailing whitespace" "Remove trailing whitespace"
          "value = compute_total()";
        mkViolation "magic_numbers" "magicNumber" "info" 3
          "Potential magic number: 999" "Replace with a named constant"
          "limit = 999" ]
  /\ _check_error_handling "python" (split newline scenario) = [].
Proof.
  split.
  - rewrite analyze_reads. vm_compute. reflexivity.
  - vm_compute. reflexivity.
Qed.

(* ================================================================== *)
(** ** The rule loops of the two engines *)
(* ================================================================== *)

(** [analyze] returns a violation list whenever the file can be read,
    whatever the rules of the registry do: a rule that raises adds a line
    to the output and the loop goes on. *)
Lemma analyze_with_returns (registry : list (str * rule_func))
    (fs : gmap str str) (file_path content : str) :
  read_text fs file_path = Some content ->
  exists violations printed,
    analyze_with registry fs file_path = (Violations violations, printed).
Proof.
  intros H. unfold analyze_with. rewrite H.
  destruct (run_rules registry content (split newline content)) as [vs printed].
  eauto.
Qed.

Lemma run_rule_raised (content : str) (lines : list str)
    (violations violations' : list Violation) (printed : list str)
    (rule_name e : str) (f : rule_func) :
  f content lines violations = (violations', Raised e) ->
  run_rule content lines (violations, printed) (rule_name, f)
  = (violations', printed ++ ["Warning: Rule " ++ rule_name ++ " failed: " ++ e]).
Proof. intros H. unfold run_rule. rewrite H. reflexivity. Qed.

Lemma run_rules_snoc (registry : list (str * rule_func)) (rule : str * rule_func)
    (content : str) (lines : list str) :
  run_rules (registry ++ [rule]) content lines
  = run_rule content lines (run_rules registry content lines) rule.
Proof. unfold run_rules. rewrite fold_left_app. reflexivity. Qed.

Lemma run_rule_violations (content : str) (lines : list str)
    (st : list Violation * list str) (rule : str * rule_func) :
  fst (run_rule content lines st rule) = fst (snd rule content lines (fst st)).
Proof.
  destruct st as [violations printed], rule as [rule_name f]. cbn [fst snd run_rule].
  destruct (f content lines violations) as [violations' [|e]]; reflexivity.
Qed.

Lemma fold_rules_keep (registry : list (str * rule_func)) (content : str)
    (lines : list str) (st : list Violation * list str) :
  Forall (fun rule => only_appends (snd rule)) registry ->
  exists more,
    fst (fold_left (run_rule content lines) registry st) = fst st ++ more.
Proof.
  intros Hreg. revert st.
  induction Hreg as [|rule registry Hrule _ IH]; intros st.
  - exists []. rewrite app_nil_r. reflexivity.
  - cbn [fold_left].
    destruct (IH (run_rule content lines st rule)) as [more2 ->].
    rewrite run_rule_violations.
    destruct (Hrule content lines (fst st)) as [more1 ->].
    exists (more1 ++ more2). rewrite app_assoc. reflexivity.
Qed.

(** Isolation in the detection engine: what a detector appends is in the
    list the loop ends with, whatever the rules before it did, and whether
    the rules after it return or raise, as long as these only append. *)
Lemma run_rules_isolation (before after : list (str * rule_func))
    (rule_name : str) (check : list str -> list Violation)
    (content : str) (lines : list str) (v : Violation) :
  Forall (fun rule => only_appends (snd rule)) after ->
  v ∈ check lines ->
  v ∈ fst (run_rules (before ++ (rule_name, appends check) :: after) content lines).
Proof.
  intros Hafter Hv. unfold run_rules.
  rewrite fold_left_app. cbn [fold_left].
  destruct (fold_rules_keep after content lines
              (run_rule content lines
                 (fold_left (run_rule content lines) before ([], []))
                 (rule_name, appends check)) Hafter) as [more ->].
  rewrite run_rule_violations. cbn [snd appends fst].
  rewrite !elem_of_app. auto.
Qed.

Lemma appends_only_appends (check : list str -> list Violation) :
  only_appends (appends check).
Proof. intros content lines violations. exists (check lines). reflexivity. Qed.

(** A transformer called as [rule.apply_function(self)] raises before
    its body runs, and leaves the object as it was. *)
Lemma call_with_argument_raises (f : bound_method) (n : nat) (self : Refactorer) :
  call f (S n) self
  = (self, Raised (qualname f ++ "() takes 1 positional argument but "
                   ++ str_of_nat (S (S n)) ++ " were given")).
Proof. reflexivity. Qed.

Section EngineFacts.

Variable all_rules : list (str * RefactoringRule).

(** The loop over every rule prints one warning per rule and applies
    none. *)
Lemma apply_all_applies_nothing (table : list (str * RefactoringRule))
    (self : Refactorer) (printed : list str) :
  exists warnings,
    apply_all table (self, printed) = (self, printed ++ warnings)
    /\ length warnings = length table.
Proof.
  revert printed. induction table as [|[key rule] table IH]; intros printed.
  - exists []. rewrite app_nil_r. auto.
  - cbn [apply_all]. rewrite call_with_argument_raises.
    destruct (IH (printed ++ ["Warning: Rule " ++ name rule ++ " failed: "
                ++ qualname (apply_function rule)
                ++ "() takes 1 positional argument but "
                ++ str_of_nat 2 ++ " were given"])) as (ws & -> & Hlen).
    eexists (_ :: ws). rewrite <- app_assoc. split; [reflexivity|].
    simpl. rewrite Hlen. reflexivity.
Qed.

(** The loop over an explicit list stops at the first name found in
    the table; no name is ever recorded. *)
Lemma apply_named_outcome (names : list str) (self : Refactorer) :
  match list_find (fun n => is_Some (find_rule all_rules n)) names with
  | Some (_, rule_name) =>
      exists rule, find_rule all_rules rule_name = Some rule
        /\ apply_named all_rules names self
           = (self, Raised (qualname (apply_function rule)
                            ++ "() takes 1 positional argument but "
                            ++ str_of_nat 2 ++ " were given"))
  | None => apply_named all_rules names self = (self, Returned)
  end.
Proof.
  induction names as [|n names IH]; [reflexivity|].
  cbn [list_find apply_named].
  destruct (find_rule all_rules n) as [rule|] eqn:E.
  - rewrite decide_True by eauto. cbn [fmap option_fmap option_map].
    exists rule. split; [exact E | reflexivity].
  - rewrite decide_False by (intros [? ?]; discriminate).
    destruct (list_find _ names) as [[k rn]|]; exact IH.
Qed.

(** Whatever the call returns, the object keeps the lines read from the
    file and an empty set of applied rules, and nothing is written. *)
Lemma refactor_with_writes_nothing (self : Refactorer) (fs : gmap str str)
    (file_path : str) (rules : option (list str)) (now : str) (text : str) :
  read_text fs file_path = Some text ->
  let (result, w) := refactor_with all_rules self fs file_path rules now in
  w_self w = mkRefactorer (language self) (readlines text) ∅
  /\ w_files w = fs /\ w_writes w = []
  /\ match result with
     | Succeeded applied backup delta =>
         applied = [] /\ backup = None /\ delta = 0%Z
     | Failed _ applied => applied = []
     end.
Proof.
  intros Hfile. unfold refactor_with. rewrite Hfile.
  set (self0 := mkRefactorer (language self) (readlines text) ∅).
  assert (Hall : exists ws, apply_all all_rules (self0, []) = (self0, ws)).
  { destruct (apply_all_applies_nothing all_rules self0 []) as (ws & H & _).
    exists ws. exact H. }
  destruct Hall as [ws Hall].
  assert (Hempty : bool_decide (rules_applied self0 = ∅) = true)
    by (apply bool_decide_eq_true_2; reflexivity).
  destruct rules as [[|r rs]|].
  - rewrite Hall, Hempty. cbn. repeat split.
  - pose proof (apply_named_outcome (r :: rs) self0) as H.
    destruct (list_find _ (r :: rs)) as [[k rn]|].
    + destruct H as (rule & _ & ->). cbn. repeat split.
    + rewrite H, Hempty. cbn. repeat split.
  - rewrite Hall, Hempty. cbn. repeat split.
Qed.

End EngineFacts.


(** C4. With an explicit list of rule names the first transformer that
    raises ends the call: [refactor] returns the failure dictionary, the
    rule after it is never tried, and no warning is printed.  On the same
    file without a list, each of the seven transformers raises in turn,
    each failure is caught and reported, and the call succeeds. *)
Theorem explicit_rules_stop_at_first_failure
    (_fix_naming_conventions _shorten_functions _break_long_lines
     _extract_constants _improve_error_handling _remove_useless_comments
       : Refactorer -> Refactorer * outcome) :
  let refactor' :=
    refactor _fix_naming_conventions _shorten_functions _break_long_lines
      _extract_constants _improve_error_handling _remove_useless_comments
      fresh app_file "app.py" in
  let named :=
    refactor' (Some ["fix_naming"; "remove_trailing_whitespace"]) "20260101_120000" in
  let every := refactor' None "20260101_120000" in
  fst named
  = Failed "CleanCodeRefactorer._fix_naming_conventions() takes 1 positional argument but 2 were given" []
  /\ w_printed (snd named) = []
  /\ fst every = Succeeded [] None 0
  /\ length (w_printed (snd every)) = 7.
Proof. vm_compute. repeat split; reflexivity. Qed.

(* ================================================================== *)
(** ** The order and the content of what [analyze] returns *)
(* ================================================================== *)

Lemma code_inj (a b : ascii) : code a = code b -> a = b.
Proof.
  unfold code. intros H.
  rewrite <- (ascii_N_embedding a), <- (ascii_N_embedding b), H. reflexivity.
Qed.

Lemma str_compare_eq (a b : str) : str_compare a b = Eq <-> a = b.
Proof.
  revert b. induction a as [|x a IH]; intros [|y b]; simpl;
    try (split; congruence).
  destruct (N.compare (code x) (code y)) eqn:E.
  - apply N.compare_eq_iff, code_inj in E as ->. rewrite IH.
    split; congruence.
  - split; [discriminate|]. intros [= -> ->].
    rewrite N.compare_refl in E. discriminate.
  - split; [discriminate|]. intros [= -> ->].
    rewrite N.compare_refl in E. discriminate.
Qed.

Lemma str_compare_lt_trans (a b c : str) :
  str_compare a b = Lt -> str_compare b c = Lt -> str_compare a c = Lt.
Proof.
  revert b c. induction a as [|x a IH]; intros [|y b] [|z c]; simpl;
    try congruence.
  destruct (N.compare (code x) (code y)) eqn:Exy; try discriminate;
    destruct (N.compare (code y) (code z)) eqn:Eyz; try discriminate;
    intros H1 H2.
  - apply N.compare_eq_iff in Exy, Eyz.
    rewrite Exy, Eyz, N.compare_refl. eapply IH; eassumption.
  - apply N.compare_eq_iff in Exy. rewrite Exy, Eyz. reflexivity.
  - apply N.compare_eq_iff in Eyz. rewrite <- Eyz, Exy. reflexivity.
  - apply N.compare_lt_iff in Exy. apply N.compare_lt_iff in Eyz.
    assert (E : (code x ?= code z)%N = Lt)
      by (apply N.compare_lt_iff; eapply N.lt_trans; eassumption).
    rewrite E. reflexivity.
Qed.

Lemma key_le_trans (a b c : Violation) :
  key_le a b = true -> key_le b c = true -> key_le a c = true.
Proof.
  unfold key_le.
  destruct (str_compare (severity a) (severity b)) eqn:Eab; try discriminate;
    destruct (str_compare (severity b) (severity c)) eqn:Ebc; try discriminate;
    intros H1 H2.
  - apply str_compare_eq in Eab, Ebc. rewrite Eab, Ebc.
    assert (E : str_compare (severity c) (severity c) = Eq)
      by (apply str_compare_eq; reflexivity).
    rewrite E. apply Nat.leb_le in H1, H2. apply Nat.leb_le. lia.
  - apply str_compare_eq in Eab. rewrite Eab, Ebc. reflexivity.
  - apply str_compare_eq in Ebc. rewrite <- Ebc, Eab. reflexivity.
  - rewrite (str_compare_lt_trans _ _ _ Eab Ebc). reflexivity.
Qed.

Lemma sorted_strongly (l : list Violation) :
  StronglySorted (fun a b => key_le a b = true) (sorted l).
Proof.
  apply Sorted_StronglySorted; [|apply sorted_spec].
  intros a b c. apply key_le_trans.
Qed.

Lemma sorted_elem (l : list Violation) (v : Violation) :
  v ∈ sorted l <-> v ∈ l.
Proof.
  rewrite !list_elem_of_In. destruct (sorted_spec l) as [Hp _]. split.
  - apply Permutation_in. symmetry. exact Hp.
  - apply Permutation_in. exact Hp.
Qed.

(** X1. For a file that can be read, [content] being the text read
    from it, [analyze] returns, whatever the rule registry, the
    violations the rule loop ended with: the same violations with the
    same multiplicities, arranged so that each one has a key
    [(severity, line_number)] not greater than that of every violation
    after it, the severities compared as strings. *)
Theorem analyze_with_sorted_permutation (registry : list (str * rule_func))
    (fs : gmap str str) (file_path content : str) :
  read_text fs file_path = Some content ->
  exists violations,
    analyze_with registry fs file_path
    = (Violations violations,
       snd (run_rules registry content (split newline content)))
    /\ Permutation (fst (run_rules registry content (split newline content)))
         violations
    /\ StronglySorted (fun a b => key_le a b = true) violations.
Proof.
  intros H. unfold analyze_with. rewrite H.
  destruct (run_rules registry content (split newline content)) as [vs printed].
  exists (sorted vs). split; [reflexivity|]. split.
  - apply sorted_spec.
  - apply sorted_strongly.
Qed.

Lemma analyze_with_sorted_permutation_witness :
  exists violations,
    analyze_with (rules "python") (single_file "sample.py" order_sample) "sample.py"
    = (Violations violations,
       snd (run_rules (rules "python") order_sample (split newline order_sample)))
    /\ Permutation
         (fst (run_rules (rules "python") order_sample (split newline order_sample)))
         violations
    /\ StronglySorted (fun a b => key_le a b = true) violations.
Proof.
  apply (analyze_with_sorted_permutation (rules "python")
           (single_file "sample.py" order_sample) "sample.py" order_sample).
  reflexivity.
Defined.

Lemma key_le_false_differs (k v w : Violation) :
  same_key k v = true -> key_le v w = false -> same_key k w = false.
Proof.
  unfold same_key, key_le. intros Hk Hle.
  apply andb_true_iff in Hk as [Hs Hl].
  apply str_eqb_eq in Hs. apply Nat.eqb_eq in Hl.
  destruct (str_eqb (severity k) (severity w)) eqn:E; [|reflexivity].
  apply str_eqb_eq in E. simpl.
  assert (Eq' : str_compare (severity v) (severity w) = Eq)
    by (apply str_compare_eq; congruence).
  rewrite Eq' in Hle. apply Nat.leb_gt in Hle. apply Nat.eqb_neq. lia.
Qed.

Lemma filter_insert_sorted (k v : Violation) (l : list Violation) :
  filter (fun w => same_key k w = true) (insert_sorted v l)
  = filter (fun w => same_key k w = true) (v :: l).
Proof.
  induction l as [|w l IH]; [reflexivity|].
  simpl. destruct (key_le v w) eqn:E; [reflexivity|].
  rewrite filter_cons, IH, !filter_cons.
  destruct (decide (same_key k v = true)) as [Hv|Hv].
  - rewrite (key_le_false_differs k v w Hv E).
    rewrite decide_False by discriminate. reflexivity.
  - destruct (decide (same_key k w = true)); reflexivity.
Qed.

(** X2. [sorted] is stable: the violations that share a sort key come out
    in the order they went in, that is, in the order the rules appended
    them. *)
Theorem sorted_stable (l : list Violation) (k : Violation) :
  filter (fun v => same_key k v = true) (sorted l)
  = filter (fun v => same_key k v = true) l.
Proof.
  induction l as [|v l IH]; [reflexivity|].
  cbn [sorted foldr]. fold (sorted l).
  rewrite filter_insert_sorted, !filter_cons, IH. reflexivity.
Qed.

(* ================================================================== *)
(** ** What every reported violation looks like *)
(* ================================================================== *)

(** The tenth detector only appends: what it does depends on the
    lines, not on what it finds in [self.violations]. *)
Lemma magic_matches_from (i : nat) (line : str) (found : list re_match)
    (violations : list Violation) :
  magic_matches i line found violations
  = (violations ++ fst (magic_matches i line found []),
     snd (magic_matches i line found [])).
Proof.
  revert violations. induction found as [|m found IH]; intros violations.
  - cbn. rewrite app_nil_r. reflexivity.
  - cbn [magic_matches]. destruct (int (m_text m)) as [num|e].
    + rewrite (IH (if is_magic line num then _ else _)).
      rewrite (IH (if is_magic line num then [] ++ _ else [])).
      cbn [fst snd]. destruct (is_magic line num);
        [rewrite app_nil_l, <- app_assoc | rewrite app_nil_l]; reflexivity.
    + cbn. rewrite app_nil_r. reflexivity.
Qed.

Lemma magic_lines_from (lines : list str) (k : nat) (violations : list Violation) :
  magic_lines k lines violations
  = (violations ++ fst (magic_lines k lines []), snd (magic_lines k lines [])).
Proof.
  revert k violations. induction lines as [|line lines IH]; intros k violations.
  - cbn. rewrite app_nil_r. reflexivity.
  - cbn [magic_lines].
    rewrite (magic_matches_from k line _ violations).
    destruct (magic_matches k line (finditer number_pattern line) [])
      as [found [|e]]; cbn [fst snd].
    + rewrite (IH (S k) (violations ++ found)), (IH (S k) found).
      cbn [fst snd]. rewrite <- app_assoc. reflexivity.
    + reflexivity.
Qed.

Lemma run_rules_collected (language content : str) (lines : list str) :
  run_rules (rules language) content lines
  = (collected language lines, magic_warning lines).
Proof.
  unfold run_rules, rules, collected, magic_warning.
  cbn [fold_left run_rule appends]. unfold _check_magic_numbers.
  rewrite (magic_lines_from lines 1 (_ ++ _)).
  destruct (snd (magic_lines 1 lines [])); rewrite app_nil_l, <- !app_assoc;
    reflexivity.
Qed.

(** A violation built on the spot for line [i] quoting [line]. *)
Ltac four_parts := unfold well_formed; split; [|split; [|split]].

Ltac built_for_line Hi Hl :=
  four_parts;
    [ apply list_elem_of_In; cbn; auto 20
    | cbn [line_number]; apply lookup_lt_Some in Hl; lia
    | cbn [line_number]; lia
    | intros _; eexists; split;
        [ unfold quoted_index; cbn [rule_name line_number];
          match goal with |- context [str_eqb ?a ?b] =>
            change (str_eqb a b) with false end;
          exact Hl
        | reflexivity ] ].

Lemma naming_well_formed (language : str) (lines : list str) (v : Violation) :
  v ∈ _check_naming_conventions language lines -> well_formed lines v.
Proof.
  unfold _check_naming_conventions.
  destruct (is_js language); [|destruct (is_python language)];
    [| |intros H; inversion H];
    intros H; apply for_lines_elem in H as (i & line & Hi & Hl & Hv).
  - unfold naming_js in Hv. apply list_elem_of_In, in_flat_map in Hv as (m & _ & Hv).
    destruct (contains "_" (group 2 m)); [|destruct Hv].
    destruct Hv as [<-|[]]. built_for_line Hi Hl.
  - unfold naming_python in Hv. apply list_elem_of_In, in_flat_map in Hv as (m & _ & Hv).
    destruct (_ && _); [|destruct Hv].
    destruct Hv as [<-|[]]. built_for_line Hi Hl.
Qed.

Lemma function_well_formed (language : str) (lines : list str) (v : Violation) :
  v ∈ _check_function_design language lines -> well_formed lines v.
Proof.
  unfold _check_function_design.
  destruct (is_js language); [|destruct (is_python language)];
    [| |intros H; inversion H];
    intros H; apply for_lines_elem in H as (i & line & Hi & Hl & Hv).
  - unfold function_js in Hv. destruct (contains _ line); [|inversion Hv].
    destruct (20 <? _); [|inversion Hv].
    apply list_elem_of_singleton in Hv as ->.
    four_parts; [ apply list_elem_of_In; cbn; auto 20
                | cbn [line_number]; apply lookup_lt_Some in Hl; lia
                | intros Hr; cbv in Hr; discriminate
                | intros Hq; cbv in Hq; discriminate ].
  - unfold function_python in Hv. destruct (startswith _ _); [|inversion Hv].
    destruct (20 <? _); [|inversion Hv].
    apply list_elem_of_singleton in Hv as ->.
    four_parts; [ apply list_elem_of_In; cbn; auto 20
                | cbn [line_number]; apply lookup_lt_Some in Hl; lia
                | intros Hr; cbv in Hr; discriminate
                | intros Hq; cbv in Hq; discriminate ].
Qed.

Lemma comments_well_formed (lines : list str) (v : Violation) :
  v ∈ _check_comments lines -> well_formed lines v.
Proof.
  unfold _check_comments. intros H.
  apply for_lines_elem in H as (i & line & Hi & Hl & Hv).
  unfold comment_line in Hv. destruct (_ || _); [|inversion Hv].
  destruct (_ || _); [|inversion Hv].
  apply list_elem_of_singleton in Hv as ->. built_for_line Hi Hl.
Qed.

Lemma formatting_well_formed (lines : list str) (v : Violation) :
  v ∈ _check_formatting lines -> well_formed lines v.
Proof.
  unfold _check_formatting. intros H.
  apply for_lines_elem in H as (i & line & Hi & Hl & Hv).
  unfold formatting_line in Hv. apply elem_of_app in Hv as [Hv|Hv].
  - destruct (100 <? _); [|inversion Hv].
    apply list_elem_of_singleton in Hv as ->. built_for_line Hi Hl.
  - destruct (negb _); [|inversion Hv].
    apply list_elem_of_singleton in Hv as ->. built_for_line Hi Hl.
Qed.

(** What the scan of a catch block reports: lines of the block, under
    their index. *)
Lemma catch_scan_reports (rest : list str) (j : nat) (v : Violation) :
  v ∈ catch_scan rest j ->
  signature v = ("error_handling", "emptyCatch", "warning")
  /\ j <= line_number v
  /\ exists l, rest !! (line_number v - j) = Some l
               /\ code_snippet v = strip l
               /\ endswith "}" (strip l) = false
               /\ contains "console.log" l = false
               /\ contains "throw" l = false
               /\ strip l <> []
               /\ startswith "//" (strip l) = false.
Proof.
  revert j. induction rest as [|l rest IH]; intros j H; [inversion H|].
  cbn [catch_scan] in H.
  destruct (endswith "}" (strip l)) eqn:E1; [inversion H|].
  destruct (contains "console.log" l) eqn:E2; [inversion H|].
  destruct (contains "throw" l) eqn:E3; [inversion H|].
  cbn [orb] in H. apply elem_of_app in H as [H|H].
  - destruct (str_eqb (strip l) []) eqn:E4; [inversion H|].
    destruct (startswith "//" (strip l)) eqn:E5; [inversion H|].
    cbn [negb andb] in H. apply list_elem_of_singleton in H as ->.
    cbn [signature rule_category rule_name severity line_number code_snippet].
    split; [reflexivity|]. split; [lia|]. exists l.
    rewrite Nat.sub_diag. apply str_eqb_neq in E4. auto 10.
  - apply IH in H as (Hs & Hj & l' & Hl' & Hrest).
    split; [exact Hs|]. split; [lia|]. exists l'. split; [|exact Hrest].
    replace (line_number v - j) with (S (line_number v - S j)) by lia.
    exact Hl'.
Qed.

Lemma error_handling_well_formed (language : str) (lines : list str)
    (v : Violation) :
  v ∈ _check_error_handling language lines -> well_formed lines v.
Proof.
  unfold _check_error_handling. intros H.
  apply for_lines_elem in H as (i & line & Hi & Hl & Hv).
  unfold error_handling_line in Hv.
  destruct (is_js language && contains "catch" line && contains "{" line).
  - apply catch_scan_reports in Hv as (Hs & Hj & l & Hl' & Hsn & _).
    rewrite lookup_drop in Hl'.
    assert (Hname : rule_name v = "emptyCatch") by (injection Hs; auto).
    unfold well_formed. rewrite Hs. split; [apply list_elem_of_In; cbn; auto 20|].
    split; [apply lookup_lt_Some in Hl'; lia|].
    split; [unfold reports_index; rewrite Hname; discriminate|].
    intros _. exists l. unfold quoted_index. rewrite Hname.
    change (str_eqb "emptyCatch" "emptyCatch") with true.
    replace (i + (line_number v - i)) with (line_number v) in Hl' by lia. auto.
  - destruct (is_python language && contains "except" line); [|inversion Hv].
    destruct (contains ":" line && _); [inversion Hv|].
    apply list_elem_of_singleton in Hv as ->. built_for_line Hi Hl.
Qed.

Lemma duplication_well_formed (lines : list str) (v : Violation) :
  v ∈ _check_duplication lines -> well_formed lines v.
Proof.
  unfold _check_duplication. intros H.
  apply list_elem_of_In, in_flat_map in H as ([key occ] & Hin & Hv).
  apply list_elem_of_In, build_line_counts_spec in Hin as (_ & -> & Hne).
  cbn [duplicate_entry] in Hv. destruct (_ && _); [|destruct Hv].
  destruct Hv as [<-|[]].
  destruct (occurrences_of key lines) as [|n occ] eqn:E; [congruence|].
  assert (Hn : n ∈ occurrences_of key lines) by (rewrite E; left).
  apply occurrences_of_spec in Hn as (line & Hn1 & Hl & Hkey).
  four_parts.
  - apply list_elem_of_In; cbn; auto 20.
  - cbn [line_number hd]. apply lookup_lt_Some in Hl. lia.
  - intros _. exact Hn1.
  - intros _. exists line. unfold quoted_index. cbn [rule_name line_number hd].
    change (str_eqb "duplicateCode" "emptyCatch") with false.
    split; [exact Hl | symmetry; exact Hkey].
Qed.

Lemma complexity_well_formed (lines : list str) (v : Violation) :
  v ∈ _check_complexity lines -> well_formed lines v.
Proof.
  unfold _check_complexity. intros H.
  apply for_lines_elem in H as (i & line & Hi & Hl & Hv).
  unfold complexity_line in Hv. destruct (startswith_any _ _); [|inversion Hv].
  destruct (8 <? _); [|inversion Hv].
  apply list_elem_of_singleton in Hv as ->. built_for_line Hi Hl.
Qed.

Lemma testability_well_formed (lines : list str) (v : Violation) :
  v ∈ _check_testability lines -> well_formed lines v.
Proof.
  unfold _check_testability. intros H.
  apply for_lines_elem in H as (i & line & Hi & Hl & Hv).
  unfold testability_line in Hv. destruct (existsb _ _); [|inversion Hv].
  apply list_elem_of_singleton in Hv as ->. built_for_line Hi Hl.
Qed.

Lemma design_patterns_well_formed (lines : list str) (v : Violation) :
  v ∈ _check_design_patterns lines -> well_formed lines v.
Proof.
  unfold _check_design_patterns. intros H.
  destruct (10 <? _) eqn:E; [|inversion H].
  apply list_elem_of_singleton in H as ->.
  apply Nat.ltb_lt in E.
  pose proof (length_filter (fun line => contains "class " line = true) lines) as Hlen.
  four_parts.
  - apply list_elem_of_In; cbn; auto 20.
  - cbn [line_number]. lia.
  - intros _. cbn [line_number]. lia.
  - intros Hq. cbv in Hq. discriminate.
Qed.

Lemma magic_numbers_well_formed (lines : list str) (v : Violation) :
  v ∈ fst (_check_magic_numbers lines []) -> well_formed lines v.
Proof.
  intros H.
  apply check_magic_numbers_elem in H as (i & line & m & Hl & _ & _ & ->).
  assert (Hi : 1 <= S i) by lia.
  assert (Hl' : lines !! (S i - 1) = Some line)
    by (replace (S i - 1) with i by lia; exact Hl).
  unfold magic_violation. built_for_line Hi Hl'.
Qed.

Lemma collected_well_formed (language : str) (lines : list str) (v : Violation) :
  v ∈ collected language lines -> well_formed lines v.
Proof.
  unfold collected. rewrite !elem_of_app.
  intros [H|[H|[H|[H|[H|[H|[H|[H|[H|H]]]]]]]]];
    eauto using naming_well_formed, function_well_formed, comments_well_formed,
      formatting_well_formed, error_handling_well_formed,
      duplication_well_formed, complexity_well_formed,
      testability_well_formed, design_patterns_well_formed,
      magic_numbers_well_formed.
Qed.

Lemma analyze_content_elem (language content : str) (v : Violation) :
  v ∈ analyze_content language content
  <-> v ∈ collected (lower language) (split newline content).
Proof.
  unfold analyze_content. rewrite sorted_elem, run_rules_collected. reflexivity.
Qed.

Lemma signature_severity (v : Violation) :
  signature v ∈ rule_signatures ->
  severity v ∈ ["error" : str; "warning" : str; "info" : str].
Proof.
  unfold rule_signatures, signature. intros Hs.
  repeat (apply elem_of_cons in Hs as [Hs|Hs];
          [injection Hs as _ _ ->; apply list_elem_of_In; cbn; auto|]).
  inversion Hs.
Qed.

Lemma analyze_content_severity (language content : str) (v : Violation) :
  v ∈ analyze_content language content ->
  severity v ∈ ["error" : str; "warning" : str; "info" : str].
Proof.
  intros H. apply analyze_content_elem, collected_well_formed in H.
  apply signature_severity, H.
Qed.

(** X3. Every violation [analyze] returns carries one of the thirteen
    (category, rule, severity) triples of the detectors, hence one of the
    severities [error], [warning], [info] the report knows an icon for.
    Its line number never exceeds the number of lines of the file, and is
    at least 1 except for [functionLength] and [emptyCatch], which report
    a list index.  Unless it is a [functionLength] or [tooManyClasses]
    violation, its snippet is the trimmed text of the line it points at:
    line [line_number] counted from 1, or, for [emptyCatch], counted from
    0. *)
Theorem analyze_violations_well_formed (language content : str) (v : Violation) :
  v ∈ analyze_content language content ->
  signature v ∈ rule_signatures
  /\ severity v ∈ ["error" : str; "warning" : str; "info" : str]
  /\ line_number v <= length (split newline content)
  /\ (reports_index v = false -> 1 <= line_number v)
  /\ (quotes_line v = true ->
      exists line, split newline content !! quoted_index v = Some line
                   /\ code_snippet v = strip line).
Proof.
  intros H. apply analyze_content_elem, collected_well_formed in H.
  destruct H as (Hs & Hn & H1 & Hq).
  split; [exact Hs|]. split; [apply signature_severity, Hs | auto].
Qed.

Lemma analyze_violations_well_formed_witness :
  let v := mkViolation "magic_numbers" "magicNumber" "info" 2
             "Potential magic number: 999" "Replace with a named constant"
             "limit = 999" in
  signature v ∈ rule_signatures
  /\ severity v ∈ ["error" : str; "warning" : str; "info" : str]
  /\ line_number v <= length (split newline order_sample)
  /\ (reports_index v = false -> 1 <= line_number v)
  /\ (quotes_line v = true ->
      exists line, split newline order_sample !! quoted_index v = Some line
                   /\ code_snippet v = strip line).
Proof.
  apply (analyze_violations_well_formed "python" order_sample).
  apply list_elem_of_In. vm_compute. left. reflexivity.
Defined.

Lemma StronglySorted_weaken {A} (R R' : A -> A -> Prop) (P : A -> Prop)
    (l : list A) :
  Forall P l -> (forall a b, P a -> P b -> R a b -> R' a b) ->
  StronglySorted R l -> StronglySorted R' l.
Proof.
  intros HP Himp Hs. induction Hs as [|a l Hs IH Hall]; [constructor|].
  inversion HP as [|? ? Pa Pl]; subst. constructor; [apply IH; exact Pl|].
  rewrite Forall_forall in *. intros b Hb. apply Himp; auto.
Qed.

Lemma key_le_text_order (a b : Violation) :
  severity a ∈ ["error" : str; "warning" : str; "info" : str] ->
  severity b ∈ ["error" : str; "warning" : str; "info" : str] ->
  key_le a b = true -> text_order a b.
Proof.
  unfold key_le, text_order. intros Ha Hb.
  repeat (apply elem_of_cons in Ha as [Ha|Ha]); [| | |inversion Ha];
    repeat (apply elem_of_cons in Hb as [Hb|Hb]); try (inversion Hb; fail);
    rewrite Ha, Hb; vm_compute str_compare; vm_compute text_rank;
    intros H; try discriminate;
    first [ left; lia | right; split; [reflexivity | apply Nat.leb_le, H] ].
Qed.

(** X4. The violations [analyze] returns for the ten detectors come in
    the order of the severity names: every [error] before every [info],
    every [info] before every [warning], and within one severity by
    ascending line number. *)
Theorem analyze_text_order (language content : str) :
  StronglySorted text_order (analyze_content language content).
Proof.
  apply (StronglySorted_weaken (fun a b => key_le a b = true) text_order
           (fun v => severity v ∈ ["error" : str; "warning" : str; "info" : str])).
  - apply Forall_forall. intros v Hv.
    apply (analyze_content_severity language content), Hv.
  - intros a b. apply key_le_text_order.
  - apply sorted_strongly.
Qed.

(* ================================================================== *)
(** ** Isolation of the rules in [analyze] *)
(* ================================================================== *)

Lemma fold_rules_printed (registry : list (str * rule_func)) (content : str)
    (lines : list str) (st : list Violation * list str) :
  exists more,
    snd (fold_left (run_rule content lines) registry st) = snd st ++ more.
Proof.
  revert st. induction registry as [|[rule_name f] registry IH]; intros st.
  - exists []. rewrite app_nil_r. reflexivity.
  - cbn [fold_left]. destruct (IH (run_rule content lines st (rule_name, f)))
      as [more ->].
    destruct st as [vs printed]. cbn [run_rule].
    destruct (f content lines vs) as [vs' [|e]]; cbn [snd].
    + exists more. reflexivity.
    + eexists. rewrite <- app_assoc. reflexivity.
Qed.

Lemma raising_rule_printed (before after : list (str * rule_func))
    (rule_name e : str) (f : rule_func) (content : str) (lines : list str) :
  always_raises f e ->
  ("Warning: Rule " ++ rule_name ++ " failed: " ++ e)
  ∈ snd (run_rules (before ++ (rule_name, f) :: after) content lines).
Proof.
  intros Hf. unfold run_rules. rewrite fold_left_app. cbn [fold_left].
  destruct (fold_rules_printed after content lines
              (run_rule content lines
                 (fold_left (run_rule content lines) before ([], []))
                 (rule_name, f))) as [more ->].
  destruct (fold_left (run_rule content lines) before ([], [])) as [vs printed].
  cbn [run_rule]. specialize (Hf content lines vs).
  destruct (f content lines vs) as [vs' o]. cbn [snd] in Hf. subst o. cbn [snd].
  rewrite !elem_of_app. left. right. left.
Qed.

(** X5. The rule loop of [analyze] isolates the rules.  With a rule that
    raises placed anywhere in the registry, the call still returns a
    violation list; the warning naming the rule and its error is printed;
    and what a detector placed anywhere else appends is in the returned
    list, provided the rules after that detector only append. *)
Theorem analyze_with_isolation (before middle after : list (str * rule_func))
    (failing detecting e : str) (f : rule_func)
    (check : list str -> list Violation)
    (fs : gmap str str) (file_path content : str) :
  read_text fs file_path = Some content ->
  always_raises f e ->
  Forall (fun rule => only_appends (snd rule)) after ->
  Forall (fun rule => only_appends (snd rule)) middle ->
  only_appends f ->
  let lines := split newline content in
  forall registry,
    registry = before ++ (failing, f) :: middle ++ (detecting, appends check) :: after
    \/ registry = before ++ (detecting, appends check) :: middle ++ (failing, f) :: after ->
    exists violations printed,
      analyze_with registry fs file_path = (Violations violations, printed)
      /\ ("Warning: Rule " ++ failing ++ " failed: " ++ e) ∈ printed
      /\ forall v, v ∈ check lines -> v ∈ violations.
Proof.
  intros Hfile Hf Hafter Hmiddle Hfa lines registry Hreg.
  unfold analyze_with. rewrite Hfile. fold lines.
  destruct (run_rules registry content lines) as [vs printed] eqn:E.
  exists (sorted vs), printed. split; [reflexivity|].
  assert (Hp : printed = snd (run_rules registry content lines)) by (rewrite E; reflexivity).
  assert (Hv : vs = fst (run_rules registry content lines)) by (rewrite E; reflexivity).
  destruct Hreg as [-> | ->].
  - split; [rewrite Hp; apply raising_rule_printed, Hf|].
    intros v Hin. apply sorted_elem. rewrite Hv.
    replace (before ++ (failing, f) :: middle ++ (detecting, appends check) :: after)
      with ((before ++ (failing, f) :: middle) ++ (detecting, appends check) :: after)
      by (rewrite <- app_assoc; reflexivity).
    apply run_rules_isolation; assumption.
  - split.
    + rewrite Hp.
      replace (before ++ (detecting, appends check) :: middle ++ (failing, f) :: after)
        with ((before ++ (detecting, appends check) :: middle) ++ (failing, f) :: after)
        by (rewrite <- app_assoc; reflexivity).
      apply raising_rule_printed, Hf.
    + intros v Hin. apply sorted_elem. rewrite Hv.
      apply run_rules_isolation; [|exact Hin].
      apply Forall_app. split; [exact Hmiddle|].
      constructor; [exact Hfa | exact Hafter].
Qed.

Lemma analyze_with_isolation_witness :
  exists violations printed,
    analyze_with [("broken", failing_rule); ("formatting", appends _check_formatting)]
      (single_file "scenario.py" scenario) "scenario.py"
    = (Violations violations, printed)
    /\ ("Warning: Rule " ++ "broken" ++ " failed: " ++ "index out of range") ∈ printed
    /\ forall v, v ∈ _check_formatting (split newline scenario) -> v ∈ violations.
Proof.
  apply (analyze_with_isolation [] [] [] "broken" "formatting"
           "index out of range" failing_rule _check_formatting
           (single_file "scenario.py" scenario) "scenario.py" scenario).
  - reflexivity.
  - intros content lines violations. reflexivity.
  - constructor.
  - constructor.
  - intros content lines violations. exists []. symmetry. apply app_nil_r.
  - left. reflexivity.
Defined.

(* ================================================================== *)
(** ** The formatting and comment detectors *)
(* ================================================================== *)

(** A line is its own [rstrip] unless it ends in a whitespace
    character. *)
Lemma rstrip_fixed (s : str) :
  rstrip s = s <-> forall c, last s = Some c -> isspace c = false.
Proof.
  induction s as [|x s IH]; [split; [intros _ c [=] | reflexivity]|].
  rewrite rstrip_cons. destruct s as [|y s].
  - simpl. destruct (isspace x) eqn:E; simpl.
    + split; [discriminate|]. intros H. specialize (H x eq_refl). congruence.
    + split; [intros _ c [= <-]; exact E | reflexivity].
  - rewrite last_cons_cons, <- IH.
    destruct (isspace x && str_eqb (rstrip (y :: s)) []) eqn:E.
    + apply andb_true_iff in E as [_ E]. apply str_eqb_eq in E.
      split; [discriminate|]. intros H. rewrite H in E. discriminate.
    + split; [intros [= H]; exact H | intros ->; reflexivity].
Qed.

Lemma ends_in_space (line : str) :
  negb (str_eqb (rstrip line) line) = true
  <-> exists c, last line = Some c /\ isspace c = true.
Proof.
  rewrite negb_true_iff, str_eqb_neq, rstrip_fixed. split.
  - intros H. destruct (last line) as [c|] eqn:E.
    + exists c. split; [reflexivity|].
      destruct (isspace c) eqn:Ec; [reflexivity|].
      exfalso. apply H. intros c' [= <-]. exact Ec.
    + exfalso. apply H. intros c [=].
  - intros (c & Hl & Hc) H. rewrite (H c Hl) in Hc. discriminate.
Qed.

(** X6. [_check_formatting] reports a line as too long exactly when it
    has more than 100 characters, and as having trailing whitespace
    exactly when its last character is a whitespace character; it
    reports nothing else.  A line of exactly 100 characters and an empty
    line are never reported. *)
Theorem formatting_reports (lines : list str) (v : Violation) :
  v ∈ _check_formatting lines <->
  exists i line,
    lines !! i = Some line
    /\ ((100 < length line
         /\ v = mkViolation "formatting" "lineLength" "warning" (S i)
                  ("Line too long (" ++ str_of_nat (length line) ++ " characters)")
                  "Break line or shorten variable names" (strip line))
        \/ ((exists c, last line = Some c /\ isspace c = true)
            /\ v = mkViolation "formatting" "trailingWhitespace" "info" (S i)
                     "Line has trailing whitespace"
                     "Remove trailing whitespace" (strip line))).
Proof.
  unfold _check_formatting. rewrite for_lines_elem. split.
  - intros (i & line & Hi & Hl & Hv). exists (i - 1), line.
    split; [exact Hl|]. replace (S (i - 1)) with i by lia.
    unfold formatting_line in Hv. apply elem_of_app in Hv as [Hv|Hv].
    + destruct (100 <? length line) eqn:E; [|inversion Hv].
      apply list_elem_of_singleton in Hv. apply Nat.ltb_lt in E. left. auto.
    + destruct (negb _) eqn:E; [|inversion Hv].
      apply list_elem_of_singleton in Hv. apply ends_in_space in E. right. auto.
  - intros (i & line & Hl & H). exists (S i), line.
    split; [lia|]. split; [rewrite Nat.sub_1_r; exact Hl|].
    unfold formatting_line. apply elem_of_app.
    destruct H as [[H ->]|[H ->]].
    + left. apply Nat.ltb_lt in H. rewrite H. left.
    + right. apply ends_in_space in H. rewrite H. left.
Qed.

Lemma lstrip_cons_nonspace (c : ascii) (s : str) :
  isspace c = false -> lstrip (c :: s) = c :: s.
Proof. intros H. simpl. rewrite H. reflexivity. Qed.

(** The text after the first slash of a [//] comment still starts with
    a slash, which no marker word does. *)
Lemma slash_comment_not_useless (stripped : str) :
  startswith "//" stripped = true ->
  useless_text (strip (drop 1 stripped)) = false.
Proof.
  intros H. apply startswith_spec in H as [t ->]. cbn [app drop].
  unfold strip. rewrite rstrip_cons_nonspace by reflexivity.
  rewrite lstrip_cons_nonspace by reflexivity. reflexivity.
Qed.

Lemma comment_line_elem (i : nat) (line : str) (v : Violation) :
  v ∈ comment_line i line <->
  startswith "#" (strip line) = true
  /\ useless_text (strip (drop 1 (strip line))) = true
  /\ v = mkViolation "comments" "uselessComment" "info" i
           ("Potentially useless comment: " ++ strip (drop 1 (strip line)))
           "Remove or make the comment more meaningful" (strip line).
Proof.
  unfold comment_line. fold (useless_text (strip (drop 1 (strip line)))).
  destruct (startswith "//" (strip line)) eqn:Es.
  - rewrite (slash_comment_not_useless _ Es). cbn [orb].
    split; [intros H; inversion H | intros (_ & H & _); discriminate].
  - cbn [orb]. destruct (startswith "#" (strip line));
      [|split; [intros H; inversion H | intros (H & _); discriminate]].
    destruct (useless_text _);
      [|split; [intros H; inversion H | intros (_ & H & _); discriminate]].
    rewrite list_elem_of_singleton. split; [auto | intros (_ & _ & H); exact H].
Qed.

(** X7. [_check_comments] reports a line exactly when its trimmed text
    starts with [#] and the text after the [#], trimmed and lower-cased,
    is one of [todo], [fixme], [hack] or starts with [this function] or
    [this variable].  A comment that starts with [//] is never reported:
    only its first slash is cut off, and what is left starts with a
    slash. *)
Theorem comments_reports (lines : list str) :
  (forall v,
     v ∈ _check_comments lines <->
     exists i line,
       lines !! i = Some line
       /\ startswith "#" (strip line) = true
       /\ useless_text (strip (drop 1 (strip line))) = true
       /\ v = mkViolation "comments" "uselessComment" "info" (S i)
                ("Potentially useless comment: " ++ strip (drop 1 (strip line)))
                "Remove or make the comment more meaningful" (strip line))
  /\ (forall i line v,
        lines !! i = Some line -> startswith "//" (strip line) = true ->
        v ∈ _check_comments lines -> line_number v <> S i).
Proof.
  assert (Hchar : forall v,
     v ∈ _check_comments lines <->
     exists i line,
       lines !! i = Some line
       /\ startswith "#" (strip line) = true
       /\ useless_text (strip (drop 1 (strip line))) = true
       /\ v = mkViolation "comments" "uselessComment" "info" (S i)
                ("Potentially useless comment: " ++ strip (drop 1 (strip line)))
                "Remove or make the comment more meaningful" (strip line)).
  { intros v. unfold _check_comments. rewrite for_lines_elem. split.
    - intros (i & line & Hi & Hl & Hv). apply comment_line_elem in Hv.
      exists (i - 1), line. replace (S (i - 1)) with i by lia. tauto.
    - intros (i & line & Hl & Hv). exists (S i), line.
      split; [lia|]. split; [rewrite Nat.sub_1_r; exact Hl|].
      apply comment_line_elem. tauto. }
  split; [exact Hchar|].
  intros i line v Hl Hs Hv Hn. apply Hchar in Hv as (i' & line' & Hl' & Hh & _ & ->).
  cbn [line_number] in Hn. injection Hn as ->.
  pose proof (eq_trans (eq_sym Hl') Hl) as E. injection E as ->.
  apply startswith_spec in Hs as [t Ht]. rewrite Ht in Hh. discriminate.
Qed.

Lemma comments_reports_witness :
  startswith "//" (strip "  // TODO") = true
  /\ forall v, v ∈ _check_comments ["x = 1"; "  // TODO"; "# fixme"] ->
                line_number v <> 2.
Proof.
  split; [reflexivity|]. intros v.
  apply (proj2 (comments_reports ["x = 1"; "  // TODO"; "# fixme"]) 1 "  // TODO" v);
    reflexivity.
Defined.

(* ================================================================== *)
(** ** The error-handling detector *)
(* ================================================================== *)

Lemma is_python_eq (language : str) :
  is_python language = true -> language = "python".
Proof. apply str_eqb_eq. Qed.

Lemma is_js_not_python (language : str) :
  is_js language = true -> is_python language = false.
Proof.
  unfold is_js, is_python. intros H.
  apply orb_true_iff in H as [H|H]; apply str_eqb_eq in H as ->; reflexivity.
Qed.

Lemma python_error_handling_elem (lines : list str) (v : Violation) :
  v ∈ _check_error_handling "python" lines ->
  exists i line,
    lines !! i = Some line /\ line_number v = S i
    /\ error_handling_line "python" lines (S i) line = [v].
Proof.
  unfold _check_error_handling. intros H.
  apply for_lines_elem in H as (i & line & Hi & Hl & Hv).
  exists (i - 1), line. replace (S (i - 1)) with i by lia.
  split; [exact Hl|]. revert Hv. unfold error_handling_line.
  change (is_js "python") with false. change (is_python "python") with true.
  cbn [andb]. destruct (contains "except" line); [|intros H; inversion H].
  destruct (contains ":" line && _); [intros H; inversion H|].
  intros H. apply list_elem_of_singleton in H as ->. auto.
Qed.

(** X8. In the indentation variant the error-handling detector never
    reports a line whose trimmed text ends in a colon, whatever the next
    line is: no [except:] and no [except ValueError:] is ever reported.
    It always reports a line that contains [except] and no colon, such as
    a comment that mentions exceptions. *)
Theorem poor_except_reports (language : str) (lines : list str) (i : nat)
    (line : str) :
  is_python language = true ->
  lines !! i = Some line ->
  (endswith ":" (strip line) = true ->
   forall v, v ∈ _check_error_handling language lines -> line_number v <> S i)
  /\ (contains "except" line = true -> contains ":" line = false ->
      mkViolation "error_handling" "poorExcept" "warning" (S i)
        "Poor exception handling" "Add proper error handling logic"
        (strip line)
      ∈ _check_error_handling language lines).
Proof.
  intros Hpy Hl. apply is_python_eq in Hpy as ->. split.
  - intros Hcolon v Hv Hn.
    apply python_error_handling_elem in Hv as (i' & line' & Hl' & Hn' & Hv).
    assert (i' = i) as -> by lia.
    pose proof (eq_trans (eq_sym Hl') Hl) as E. injection E as ->.
    rewrite except_colon_never_reported in Hv by exact Hcolon. discriminate.
  - intros He Hc. unfold _check_error_handling. apply for_lines_elem.
    exists (S i), line. split; [lia|]. split; [rewrite Nat.sub_1_r; exact Hl|].
    unfold error_handling_line.
    change (is_js "python") with false. change (is_python "python") with true.
    cbn [andb]. rewrite He, Hc. cbn [andb]. left.
Qed.

Lemma poor_except_reports_witness :
  (forall v, v ∈ _check_error_handling "python"
                   ["try:"; "    run()"; "except:"; "    pass"] ->
             line_number v <> 3)
  /\ mkViolation "error_handling" "poorExcept" "warning" 1
       "Poor exception handling" "Add proper error handling logic"
       "# exceptions are handled below"
     ∈ _check_error_handling "python" ["# exceptions are handled below"; "run()"].
Proof.
  split.
  - apply (proj1 (poor_except_reports "python"
                    ["try:"; "    run()"; "except:"; "    pass"] 2 "except:"
                    eq_refl eq_refl)).
    reflexivity.
  - apply (proj2 (poor_except_reports "python"
                    ["# exceptions are handled below"; "run()"] 0
                    "# exceptions are handled below" eq_refl eq_refl));
      reflexivity.
Defined.

(** X9. In the brace variant every [emptyCatch] violation points, by
    list index (its line number counted from 0), at a line after a line
    that contains [catch] and an opening brace; the reported line is not
    blank, is not a [//] comment, contains neither [console.log] nor
    [throw], and its trimmed text, which is the snippet, does not end in
    a closing brace. *)
Theorem empty_catch_reports (language : str) (lines : list str) (v : Violation) :
  is_js language = true ->
  v ∈ _check_error_handling language lines ->
  signature v = ("error_handling", "emptyCatch", "warning")
  /\ (exists k opening,
        k < line_number v /\ lines !! k = Some opening
        /\ contains "catch" opening = true /\ contains "{" opening = true)
  /\ exists l,
       lines !! line_number v = Some l
       /\ code_snippet v = strip l
       /\ endswith "}" (strip l) = false
       /\ contains "console.log" l = false
       /\ contains "throw" l = false
       /\ strip l <> []
       /\ startswith "//" (strip l) = false.
Proof.
  intros Hjs Hv. unfold _check_error_handling in Hv.
  apply for_lines_elem in Hv as (i & line & Hi & Hl & Hv).
  unfold error_handling_line in Hv.
  rewrite Hjs, (is_js_not_python _ Hjs) in Hv. cbn [andb] in Hv.
  destruct (contains "catch" line) eqn:E1; [|inversion Hv].
  destruct (contains "{" line) eqn:E2; [|inversion Hv].
  cbn [andb] in Hv.
  apply catch_scan_reports in Hv as (Hs & Hj & l & Hl' & Hrest).
  rewrite lookup_drop in Hl'.
  replace (i + (line_number v - i)) with (line_number v) in Hl' by lia.
  split; [exact Hs|]. split.
  - exists (i - 1), line. split; [lia|]. auto.
  - exists l. split; [exact Hl' | exact Hrest].
Qed.

Lemma empty_catch_reports_witness :
  let v := mkViolation "error_handling" "emptyCatch" "warning" 1
             "Empty catch block or only console.log"
             "Add proper error handling or re-throw" "retry();" in
  let lines : list str := ["} catch (e) {"; "  retry();"; "}"] in
  signature v = ("error_handling", "emptyCatch", "warning")
  /\ (exists k opening,
        k < line_number v /\ lines !! k = Some opening
        /\ contains "catch" opening = true /\ contains "{" opening = true)
  /\ exists l,
       lines !! line_number v = Some l
       /\ code_snippet v = strip l
       /\ endswith "}" (strip l) = false
       /\ contains "console.log" l = false
       /\ contains "throw" l = false
       /\ strip l <> []
       /\ startswith "//" (strip l) = false.
Proof.
  apply (empty_catch_reports "js" ["} catch (e) {"; "  retry();"; "}"]).
  - reflexivity.
  - apply list_elem_of_In. vm_compute. left. reflexivity.
Defined.

(* ================================================================== *)
(** ** The function-length detector, indentation variant *)
(* ================================================================== *)

Lemma indent_scan_take (rest : list str) (level n : nat) :
  n <= length rest ->
  forallb (in_body level) (take n rest) = true ->
  match rest !! n with
  | Some l => negb (in_body level l)
  | None => true
  end = true ->
  indent_scan rest level = take n rest.
Proof.
  revert n. induction rest as [|l rest IH]; intros n Hn Hall Hend.
  - destruct n; reflexivity.
  - destruct n as [|n].
    + cbn [lookup list_lookup] in Hend. cbn [indent_scan take].
      apply negb_true_iff in Hend. unfold in_body in Hend.
      apply orb_false_iff in Hend as [Hb Hi].
      rewrite Hb. apply Nat.ltb_ge in Hi.
      replace (indent_of l <=? level) with true by (symmetry; apply Nat.leb_le; lia).
      reflexivity.
    + cbn [take forallb] in Hall. apply andb_true_iff in Hall as [Hl Hall].
      cbn [indent_scan take]. unfold in_body in Hl.
      assert (E : negb (str_eqb (strip l) []) && (indent_of l <=? level) = false).
      { apply orb_true_iff in Hl as [Hl|Hl].
        - rewrite Hl. reflexivity.
        - apply Nat.ltb_lt in Hl. apply andb_false_iff. right.
          apply Nat.leb_gt. lia. }
      rewrite E. f_equal. apply IH; [simpl in Hn; lia | exact Hall | exact Hend].
Qed.

(** X10. In the indentation variant the body of a function is made of
    the lines after the [def] line that are blank or indented deeper
    than it, up to the first line that is neither; the [def] line itself
    is not counted.  A function whose body has [n] lines in that sense is
    reported, under the index of its [def] line, exactly when [n]
    exceeds 20. *)
Theorem python_function_length_boundary (language : str) (lines : list str)
    (k n : nat) (line : str) :
  is_python language = true ->
  lines !! k = Some line ->
  startswith "def " (strip line) = true ->
  indent_body lines k n line = true ->
  indent_scan (drop (S k) lines) (indent_of line) = take n (drop (S k) lines)
  /\ ((exists v, v ∈ _check_function_design language lines
                /\ rule_name v = "functionLength" /\ line_number v = k)
      <-> 20 < n).
Proof.
  intros Hpy Hk Hdef Hbody. apply is_python_eq in Hpy as ->.
  unfold indent_body in Hbody.
  apply andb_true_iff in Hbody as [Hbody Hend].
  apply andb_true_iff in Hbody as [Hlen Hall]. apply Nat.leb_le in Hlen.
  assert (Hscan : indent_scan (drop (S k) lines) (indent_of line)
                  = take n (drop (S k) lines)).
  { apply indent_scan_take; [rewrite length_drop; lia | exact Hall|].
    rewrite lookup_drop. exact Hend. }
  split; [exact Hscan|].
  assert (Hn : length (indent_scan (drop (S k) lines) (indent_of line)) = n).
  { rewrite Hscan, length_take, length_drop. lia. }
  unfold _check_function_design.
  change (is_js "python") with false. change (is_python "python") with true.
  cbn match. split.
  - intros (v & Hv & _ & Hline).
    apply for_lines_elem in Hv as (i & l & Hi & Hl & Hv).
    unfold function_python in Hv.
    destruct (startswith "def " (strip l)); [|inversion Hv].
    destruct (20 <? _) eqn:E; [|inversion Hv].
    apply list_elem_of_singleton in Hv. subst v. cbn [line_number] in Hline.
    assert (i = S k) as -> by lia.
    rewrite Nat.sub_1_r in Hl. cbn [Nat.pred] in Hl.
    pose proof (eq_trans (eq_sym Hl) Hk) as El. injection El as ->.
    apply Nat.ltb_lt in E. rewrite Hn in E. exact E.
  - intros H20. eexists. split; [|split].
    + apply for_lines_elem. exists (S k), line.
      split; [lia|]. split; [rewrite Nat.sub_1_r; exact Hk|].
      unfold function_python. rewrite Hdef, Hn.
      replace (20 <? n) with true by (symmetry; apply Nat.ltb_lt; exact H20).
      apply list_elem_of_singleton. reflexivity.
    + reflexivity.
    + cbn [line_number]. lia.
Qed.

Lemma python_function_length_boundary_witness :
  (~ exists v, v ∈ _check_function_design "python" (python_function 20)
               /\ rule_name v = "functionLength" /\ line_number v = 0)
  /\ (exists v, v ∈ _check_function_design "python" (python_function 21)
                /\ rule_name v = "functionLength" /\ line_number v = 0).
Proof.
  split.
  - intros H.
    apply (python_function_length_boundary "python" (python_function 20) 0 20
             "def compute(items):") in H; [lia | reflexivity ..].
  - apply (python_function_length_boundary "python" (python_function 21) 0 21
             "def compute(items):"); [reflexivity .. | lia].
Defined.

(* ================================================================== *)
(** ** Reading and writing lines *)
(* ================================================================== *)

Lemma char_eqb_neq (a b : ascii) : char_eqb a b = false <-> a <> b.
Proof.
  rewrite <- char_eqb_eq. destruct (char_eqb a b); split; congruence.
Qed.

Lemma readlines_concat (text : str) : concat (readlines text) = text.
Proof.
  induction text as [|c text IH]; [reflexivity|].
  cbn [readlines]. destruct (char_eqb c newline) eqn:E.
  - cbn [concat app]. rewrite IH. reflexivity.
  - destruct (readlines text) as [|l ls]; simpl in *; congruence.
Qed.

Lemma full_line_cons (c : ascii) (line : str) :
  c <> newline -> full_line line -> full_line (c :: line).
Proof.
  intros Hc (body & Hb & ->). exists (c :: body). split; [|reflexivity].
  intros H. apply elem_of_cons in H as [H|H]; [congruence | exact (Hb H)].
Qed.

Lemma last_line_cons (c : ascii) (line : str) :
  c <> newline -> last_line line -> last_line (c :: line).
Proof.
  intros Hc [H|[Hne Hn]]; [left; apply full_line_cons; assumption|].
  right. split; [discriminate|].
  intros H. apply elem_of_cons in H as [H|H]; [congruence | exact (Hn H)].
Qed.

Lemma readlines_well_split (text : str) : well_split (readlines text).
Proof.
  induction text as [|c text IH]; [exact I|].
  cbn [readlines]. destruct (char_eqb c newline) eqn:E.
  - apply char_eqb_eq in E as ->.
    assert (Hf : full_line [newline]) by (exists []; split; [intros H; inversion H | reflexivity]).
    destruct (readlines text) as [|l ls]; [left; exact Hf | split; assumption].
  - apply char_eqb_neq in E.
    destruct (readlines text) as [|l ls].
    + right. split; [discriminate|].
      intros H. apply list_elem_of_singleton in H. congruence.
    + destruct ls as [|l' ls].
      * apply last_line_cons; assumption.
      * destruct IH as [Hl Hls]. split; [apply full_line_cons; assumption | exact Hls].
Qed.

Lemma well_split_lookup (lines : list str) (i : nat) (line : str) :
  well_split lines -> lines !! i = Some line ->
  last_line line /\ (S i < length lines -> full_line line).
Proof.
  revert i. induction lines as [|l ls IH]; intros i Hw Hl; [discriminate|].
  destruct ls as [|l' ls].
  - destruct i; [|discriminate]. injection Hl as <-.
    split; [exact Hw | simpl; lia].
  - destruct Hw as [Hf Hw]. destruct i as [|i].
    + injection Hl as <-. split; [left; exact Hf | intros _; exact Hf].
    + destruct (IH i Hw Hl) as [H1 H2]. split; [exact H1|].
      intros H. apply H2. simpl in *. lia.
Qed.

(** Text mode leaves no carriage return, and changes nothing in a text
    that holds none. *)
Lemma universal_newlines_bounded (n : nat) :
  forall s : str, length s <= n ->
    (cr ∉ universal_newlines s) /\ (cr ∉ s -> universal_newlines s = s).
Proof.
  induction n as [|n IH]; intros s Hlen.
  - destruct s; [|simpl in Hlen; lia].
    split; [intros H; inversion H | reflexivity].
  - destruct s as [|c s]; [split; [intros H; inversion H | reflexivity]|].
    simpl in Hlen. cbn [universal_newlines].
    destruct (char_eqb c cr) eqn:E.
    + apply char_eqb_eq in E as ->. split.
      * intros H. apply elem_of_cons in H as [H|H]; [discriminate H|].
        destruct s as [|d s]; [inversion H|].
        destruct (char_eqb d newline);
          [apply (IH s) in H | apply (IH (d :: s)) in H];
          try exact H; simpl in *; lia.
      * intros H. exfalso. apply H. left.
    + apply char_eqb_neq in E.
      destruct (IH s ltac:(lia)) as [Hno Hfix]. split.
      * intros H. apply elem_of_cons in H as [H|H]; [congruence | exact (Hno H)].
      * intros H. f_equal. apply Hfix. intros Hin. apply H. right. exact Hin.
Qed.

Lemma universal_newlines_no_cr (s : str) : cr ∉ universal_newlines s.
Proof. apply (universal_newlines_bounded (length s) s). lia. Qed.

Lemma universal_newlines_fixed (s : str) : universal_newlines s = s <-> cr ∉ s.
Proof.
  split.
  - intros H. rewrite <- H. apply universal_newlines_no_cr.
  - apply (universal_newlines_bounded (length s) s). lia.
Qed.

Lemma removelast_elem (c : ascii) (line : str) : c ∈ removelast line -> c ∈ line.
Proof.
  induction line as [|x line IH]; [intros H; inversion H|].
  destruct line as [|y line]; [intros H; inversion H|].
  change (removelast (x :: y :: line)) with (x :: removelast (y :: line)).
  intros H. apply elem_of_cons in H as [->|H]; [left | right; apply IH, H].
Qed.

(** X11. The lines [refactor] holds.  The file is opened in text mode,
    and no transformer ever changes the buffer: after a call on a file
    that exists, whatever the rules asked for, the buffer joined is the
    text of the file with every CR LF and every lone CR turned into a
    line feed, which is the text as stored exactly when the file holds
    no carriage return.  No line of the buffer is empty, none holds a
    carriage return, a line holds no line feed before its last
    character, and every line but the last ends in a line feed. *)
Theorem refactor_line_buffer
    (_fix_naming_conventions _shorten_functions _break_long_lines
     _extract_constants _improve_error_handling _remove_useless_comments
       : Refactorer -> Refactorer * outcome)
    (self : Refactorer) (fs : gmap str str) (file_path : str)
    (rules : option (list str)) (now stored : str) :
  fs !! file_path = Some stored ->
  let lines :=
    refactored_lines
      (w_self (snd (refactor _fix_naming_conventions _shorten_functions
                      _break_long_lines _extract_constants
                      _improve_error_handling _remove_useless_comments
                      self fs file_path rules now))) in
  writelines lines = universal_newlines stored
  /\ (writelines lines = stored <-> cr ∉ stored)
  /\ forall i line,
       lines !! i = Some line ->
       line <> []
       /\ (cr ∉ line)
       /\ (newline ∉ removelast line)
       /\ (S i < length lines -> last line = Some newline).
Proof.
  intros Hfile.
  assert (Hread : read_text fs file_path = Some (universal_newlines stored))
    by (unfold read_text; rewrite Hfile; reflexivity).
  pose proof (refactor_with_writes_nothing
                (_get_all_rules _fix_naming_conventions _shorten_functions
                   _break_long_lines _extract_constants
                   _improve_error_handling _remove_useless_comments)
                self fs file_path rules now _ Hread) as Hw.
  unfold refactor.
  destruct (refactor_with _ self fs file_path rules now) as [result w].
  destruct Hw as (Hw & _). cbv zeta. cbn [snd]. rewrite Hw.
  cbn [refactored_lines].
  set (text := universal_newlines stored).
  assert (Hjoin : writelines (readlines text) = text) by apply readlines_concat.
  split; [exact Hjoin|]. split.
  { rewrite Hjoin. apply universal_newlines_fixed. }
  intros i line Hl.
  destruct (well_split_lookup _ i line (readlines_well_split text) Hl)
    as [Hlast Hfull].
  split; [|split; [|split]].
  - destruct Hlast as [(body & _ & ->)|[Hne _]];
      [destruct body; discriminate | exact Hne].
  - intros Hin. apply (universal_newlines_no_cr stored). fold text.
    rewrite <- Hjoin. unfold writelines.
    apply list_elem_of_In, in_concat. exists line.
    split; apply list_elem_of_In; [|exact Hin].
    apply (list_elem_of_lookup_2 _ i), Hl.
  - destruct Hlast as [(body & Hb & ->)|[_ Hn]].
    + rewrite removelast_last. exact Hb.
    + intros H. apply Hn, removelast_elem, H.
  - intros H. destruct (Hfull H) as (body & _ & ->). apply last_snoc.
Qed.

Lemma refactor_line_buffer_witness :
  let lines :=
    refactored_lines
      (w_self (snd (refactor keep keep keep keep keep keep fresh
                      (single_file "app.py" crlf_text) "app.py" None
                      "20260101_120000"))) in
  writelines lines = universal_newlines crlf_text
  /\ (writelines lines = crlf_text <-> cr ∉ crlf_text)
  /\ forall i line,
       lines !! i = Some line ->
       line <> []
       /\ (cr ∉ line)
       /\ (newline ∉ removelast line)
       /\ (S i < length lines -> last line = Some newline).
Proof.
  apply (refactor_line_buffer keep keep keep keep keep keep fresh
           (single_file "app.py" crlf_text) "app.py" None "20260101_120000"
           crlf_text).
  reflexivity.
Defined.

(* ================================================================== *)
(** ** The two case conversions *)
(* ================================================================== *)

Ltac each_char c :=
  destruct c as [b0 b1 b2 b3 b4 b5 b6 b7];
  destruct b0, b1, b2, b3, b4, b5, b6, b7.

(** The title-case form of a lower-case letter that has its upper-case
    form in the range is that form. *)
Lemma title_has_upper (d : ascii) :
  has_upper d = true ->
  title_char d = Some [ascii_of_N (code d - 32)]
  /\ isupper (ascii_of_N (code d - 32)) = true
  /\ lower_char (ascii_of_N (code d - 32)) = d
  /\ isupper d = false /\ d <> "_"%char.
Proof.
  each_char d; vm_compute; try discriminate; intros _; repeat split; discriminate.
Qed.

Lemma title_of_lower (c : ascii) :
  isupper c = true ->
  title_char (lower_char c) = Some [c] /\ lower_char c <> c.
Proof.
  each_char c; vm_compute; try discriminate; intros _;
    (split; [reflexivity | discriminate]).
Qed.

Lemma lower_char_facts (c : ascii) :
  isupper (lower_char c) = false
  /\ (c <> "_"%char -> lower_char c <> "_"%char).
Proof.
  each_char c; vm_compute; repeat split; try discriminate; intros H; exact H.
Qed.

(** No title-case form holds an underscore, but that of the underscore. *)
Lemma title_char_underscore (c : ascii) :
  char_eqb c "_" = false ->
  from_option (forallb (fun x => negb (char_eqb x "_"))) true (title_char c) = true.
Proof. each_char c; vm_compute; try reflexivity; discriminate. Qed.

Lemma title_char_no_underscore (c : ascii) (t : str) :
  c <> "_"%char -> title_char c = Some t -> "_"%char ∉ t.
Proof.
  intros Hc Ht Hin. apply char_eqb_neq in Hc.
  pose proof (title_char_underscore c Hc) as H. rewrite Ht in H. cbn in H.
  rewrite forallb_forall in H. apply list_elem_of_In, H in Hin.
  apply negb_true_iff, char_eqb_neq in Hin. congruence.
Qed.

(** Only U+00B5 and U+00FF have their title-case form outside the
    range. *)
Lemma title_char_defined (c : ascii) :
  is_Some (title_char c) <-> code c <> 181%N /\ code c <> 255%N.
Proof.
  each_char c; vm_compute; split; intros H;
    first [ solve [destruct H as [? H]; discriminate H]
          | solve [split; discriminate]
          | solve [eexists; reflexivity]
          | solve [destruct H as [H1 H2]; exfalso;
                   first [apply H1; reflexivity | apply H2; reflexivity]] ].
Qed.

Lemma lower_char_fixed (c : ascii) : isupper c = false -> lower_char c = c.
Proof. unfold lower_char. intros ->. reflexivity. Qed.

Lemma lower_fixed (s : str) :
  Forall (fun c => isupper c = false) s -> lower s = s.
Proof.
  induction 1 as [|c s Hc _ IH]; [reflexivity|].
  unfold lower in *. simpl. rewrite IH, lower_char_fixed by exact Hc. reflexivity.
Qed.

Lemma split_nonempty (sep : ascii) (s : str) : split sep s <> [].
Proof.
  destruct s as [|c s]; [discriminate|]. simpl.
  destruct (char_eqb c sep); [discriminate|].
  destruct (split sep s); discriminate.
Qed.

Lemma split_cons_sep (sep : ascii) (s : str) :
  split sep (sep :: s) = [] :: split sep s.
Proof.
  simpl. replace (char_eqb sep sep) with true
    by (symmetry; apply char_eqb_eq; reflexivity).
  reflexivity.
Qed.

Lemma split_cons_other (sep c : ascii) (s : str) :
  c <> sep ->
  split sep (c :: s) = (c :: hd [] (split sep s)) :: tl (split sep s).
Proof.
  intros H. simpl. apply char_eqb_neq in H. rewrite H.
  pose proof (split_nonempty sep s). destruct (split sep s); [congruence | reflexivity].
Qed.

Lemma split_head_elem (sep c : ascii) (s : str) :
  c ∈ hd [] (split sep s) -> c ∈ s.
Proof.
  induction s as [|x s IH]; [intros H; inversion H|].
  destruct (decide (x = sep)) as [->|Hx].
  - rewrite split_cons_sep. intros H. inversion H.
  - rewrite split_cons_other by exact Hx. cbn [hd].
    intros H. apply elem_of_cons in H as [->|H]; [left | right; auto].
Qed.

Lemma camel_cons_other (c : ascii) (s : str) :
  c <> "_"%char -> _to_camel_case (c :: s) = cons c <$> _to_camel_case s.
Proof.
  intros H. unfold _to_camel_case. rewrite split_cons_other by exact H.
  cbn [hd tl]. destruct (mapM _ _); reflexivity.
Qed.

Lemma camel_cons_underscore (d : ascii) (s t : str) :
  d <> "_"%char -> title_char d = Some t ->
  lower (hd [] (split "_" s)) = hd [] (split "_" s) ->
  _to_camel_case ("_"%char :: d :: s) = app t <$> _to_camel_case s.
Proof.
  intros H Ht Hlow. unfold _to_camel_case.
  rewrite split_cons_sep, split_cons_other by exact H.
  cbn [hd tl mapM mbind option_bind capitalize]. rewrite Ht, Hlow.
  destruct (mapM _ _) as [words|]; [|reflexivity].
  cbn. rewrite <- app_assoc. reflexivity.
Qed.

Lemma snake_from_cons (k : nat) (c : ascii) (s : str) :
  snake_from k (c :: s)
  = (if isupper c && (0 <? k) then ["_"%char] else [])
    ++ lower_char c :: snake_from (S k) s.
Proof. unfold snake_from. cbn. rewrite <- app_assoc. reflexivity. Qed.

Lemma to_snake_case_from (s : str) : _to_snake_case s = snake_from 0 s.
Proof. reflexivity. Qed.

Lemma snake_from_no_upper (k : nat) (s : str) :
  Forall (fun c => isupper c = false) (snake_from k s).
Proof.
  revert k. induction s as [|c s IH]; intros k; [constructor|].
  rewrite snake_from_cons. apply Forall_app. split.
  - destruct (_ && _); repeat constructor.
  - constructor; [apply lower_char_facts | apply IH].
Qed.

Lemma camel_of_snake_from (k : nat) (s : str) :
  0 < k -> "_"%char ∉ s -> _to_camel_case (snake_from k s) = Some s.
Proof.
  revert k. induction s as [|c s IH]; intros k Hk Hs; [reflexivity|].
  assert (Hc : c <> "_"%char) by (intros ->; apply Hs; left).
  assert (Hs' : "_"%char ∉ s) by (intros H; apply Hs; right; exact H).
  rewrite snake_from_cons.
  replace (0 <? k) with true by (symmetry; apply Nat.ltb_lt; exact Hk).
  rewrite andb_true_r. destruct (isupper c) eqn:Eu.
  - cbn [app]. destruct (title_of_lower c Eu) as [Ht _].
    rewrite (camel_cons_underscore _ _ [c]).
    + rewrite (IH (S k)); [reflexivity | lia | exact Hs'].
    + apply lower_char_facts, Hc.
    + exact Ht.
    + apply lower_fixed, Forall_forall. intros x Hx. apply split_head_elem in Hx.
      pose proof (snake_from_no_upper (S k) s) as Hall.
      rewrite Forall_forall in Hall. apply Hall, Hx.
  - cbn [app]. rewrite (lower_char_fixed c Eu).
    rewrite camel_cons_other by exact Hc.
    rewrite (IH (S k)); [reflexivity | lia | exact Hs'].
Qed.

Lemma camel_name_spec (s : str) :
  camel_name s = true ->
  ("_"%char ∉ s) /\ forall c, head s = Some c -> isupper c = false.
Proof.
  unfold camel_name. intros H. apply andb_true_iff in H as [Hh Hall]. split.
  - intros Hin. rewrite forallb_forall in Hall.
    apply list_elem_of_In, Hall in Hin. apply negb_true_iff, char_eqb_neq in Hin.
    congruence.
  - intros c Hc. destruct s as [|x s]; [discriminate|].
    injection Hc as ->. apply negb_true_iff, Hh.
Qed.

(** X12. For names of characters up to U+00FF.  On a name in the
    mixed-case convention, one without underscore and without an
    upper-case first character, [_to_snake_case] followed by
    [_to_camel_case] gives the name back.  On a name whose first
    character is upper-case it never does: the first character comes back
    lower-case. *)
Theorem camel_case_of_snake_case (s : str) :
  (camel_name s = true -> _to_camel_case (_to_snake_case s) = Some s)
  /\ (forall c, head s = Some c -> isupper c = true ->
      _to_camel_case (_to_snake_case s) <> Some s).
Proof.
  split.
  - intros H. apply camel_name_spec in H as [Hu Hh].
    destruct s as [|c s]; [reflexivity|].
    rewrite to_snake_case_from, snake_from_cons, andb_false_r. cbn [app].
    assert (Hc : c <> "_"%char) by (intros ->; apply Hu; left).
    rewrite (lower_char_fixed c (Hh c eq_refl)).
    rewrite camel_cons_other by exact Hc.
    rewrite camel_of_snake_from; [reflexivity | lia |].
    intros Hin. apply Hu. right. exact Hin.
  - intros c Hc Hup. destruct s as [|x s]; [discriminate|]. injection Hc as ->.
    rewrite to_snake_case_from, snake_from_cons, andb_false_r. cbn [app].
    destruct (title_of_lower c Hup) as [_ Hne].
    assert (Hl : lower_char c <> "_"%char).
    { apply lower_char_facts. intros ->. discriminate. }
    rewrite camel_cons_other by exact Hl.
    destruct (_to_camel_case (snake_from 1 s)); cbn; congruence.
Qed.

Lemma camel_case_of_snake_case_witness :
  _to_camel_case (_to_snake_case "parseHTTPHeader") = Some "parseHTTPHeader"
  /\ _to_camel_case (_to_snake_case "HttpServer") <> Some "HttpServer".
Proof.
  split.
  - apply (proj1 (camel_case_of_snake_case "parseHTTPHeader")). reflexivity.
  - apply (proj2 (camel_case_of_snake_case "HttpServer") "H"%char); reflexivity.
Defined.

Lemma snake_tail_no_upper (s : str) :
  snake_tail s = true -> Forall (fun c => isupper c = false) s.
Proof.
  induction s as [|c s IH]; [constructor|].
  cbn [snake_tail]. intros H. apply andb_true_iff in H as [Hc Hs].
  constructor; [|apply IH, Hs].
  destruct (char_eqb c "_") eqn:E.
  - apply char_eqb_eq in E as ->. reflexivity.
  - apply negb_true_iff, Hc.
Qed.

Lemma snake_of_camel_from (n : nat) :
  forall (s : str) (k : nat),
    length s <= n -> 0 < k -> snake_tail s = true ->
    snake_from k <$> _to_camel_case s = Some s.
Proof.
  induction n as [|n IH]; intros s k Hlen Hk Hs.
  - destruct s; [reflexivity | simpl in Hlen; lia].
  - destruct s as [|c s]; [reflexivity|].
    cbn [snake_tail] in Hs. apply andb_true_iff in Hs as [Hc Hs].
    destruct (char_eqb c "_") eqn:E.
    + apply char_eqb_eq in E as ->.
      destruct s as [|d s]; [discriminate|].
      destruct (title_has_upper d Hc) as (Ht & Hu & Hl & Hd & Hne).
      cbn [snake_tail] in Hs. apply andb_true_iff in Hs as [_ Hs].
      rewrite (camel_cons_underscore _ _ _ Hne Ht).
      2:{ apply lower_fixed, Forall_forall. intros x Hx.
          apply split_head_elem in Hx.
          pose proof (snake_tail_no_upper s Hs) as Hall.
          rewrite Forall_forall in Hall. apply Hall, Hx. }
      specialize (IH s (S k) ltac:(simpl in Hlen; lia) ltac:(lia) Hs).
      destruct (_to_camel_case s) as [r|]; [|discriminate IH].
      cbn [fmap option_fmap option_map app] in IH |- *. injection IH as IH.
      rewrite snake_from_cons, Hu, Hl.
      replace (0 <? k) with true by (symmetry; apply Nat.ltb_lt; exact Hk).
      cbn [andb app]. rewrite IH. reflexivity.
    + apply char_eqb_neq in E. apply negb_true_iff in Hc.
      rewrite camel_cons_other by exact E.
      specialize (IH s (S k) ltac:(simpl in Hlen; lia) ltac:(lia) Hs).
      destruct (_to_camel_case s) as [r|]; [|discriminate IH].
      cbn [fmap option_fmap option_map app] in IH |- *. injection IH as IH.
      rewrite snake_from_cons, Hc. cbn [andb app].
      rewrite (lower_char_fixed c Hc), IH. reflexivity.
Qed.

(** X13. For names of characters up to U+00FF.  On a name in the
    underscore convention, one that does not start with an underscore,
    has no upper-case character and has after each underscore one of the
    letters U+0061..U+007A, U+00E0..U+00F6, U+00F8..U+00FE,
    [_to_camel_case] returns a name on which [_to_snake_case] gives the
    first name back. *)
Theorem snake_case_of_camel_case (s : str) :
  snake_name s = true -> _to_snake_case <$> _to_camel_case s = Some s.
Proof.
  unfold snake_name. intros H. apply andb_true_iff in H as [Hh Hs].
  destruct s as [|c s]; [reflexivity|].
  apply negb_true_iff, char_eqb_neq in Hh.
  cbn [snake_tail] in Hs. apply andb_true_iff in Hs as [Hc Hs].
  apply char_eqb_neq in Hh as E. rewrite E in Hc. apply negb_true_iff in Hc.
  rewrite camel_cons_other by exact Hh.
  pose proof (snake_of_camel_from (length s) s 1 ltac:(lia) ltac:(lia) Hs) as IH.
  destruct (_to_camel_case s) as [r|]; [|discriminate IH].
  cbn [fmap option_fmap option_map app] in IH |- *. injection IH as IH.
  rewrite to_snake_case_from, snake_from_cons, Hc. cbn [andb app].
  rewrite (lower_char_fixed c Hc), IH. reflexivity.
Qed.

Lemma snake_case_of_camel_case_witness :
  _to_snake_case <$> _to_camel_case "parse_http_header2"
  = Some "parse_http_header2".
Proof. apply snake_case_of_camel_case. reflexivity. Defined.

Lemma capitalize_no_underscore (s r : str) :
  "_"%char ∉ s -> capitalize s = Some r -> "_"%char ∉ r.
Proof.
  destruct s as [|c s]; [intros _ [= <-] H; inversion H|].
  intros H. cbn [capitalize].
  assert (Hc : c <> "_"%char) by (intros ->; apply H; left).
  destruct (title_char c) as [t|] eqn:Ht; [|discriminate].
  intros [= <-] Hin. apply elem_of_app in Hin as [Hin|Hin].
  - exact (title_char_no_underscore c t Hc Ht Hin).
  - unfold lower in Hin. apply list_elem_of_fmap in Hin as (x & Hx & Hin).
    assert (x <> "_"%char) by (intros ->; apply H; right; exact Hin).
    symmetry in Hx. revert Hx. apply lower_char_facts. assumption.
Qed.

Lemma split_parts_no_sep (sep : ascii) (s part : str) :
  part ∈ split sep s -> sep ∉ part.
Proof.
  revert part. induction s as [|c s IH]; intros part H.
  - apply list_elem_of_singleton in H as ->. intros Hin. inversion Hin.
  - destruct (decide (c = sep)) as [->|Hc].
    + rewrite split_cons_sep in H. apply elem_of_cons in H as [->|H];
        [intros Hin; inversion Hin | apply IH, H].
    + rewrite split_cons_other in H by exact Hc.
      pose proof (split_nonempty sep s) as Hne.
      destruct (split sep s) as [|p ps] eqn:E; [congruence|]. cbn [hd tl] in H.
      apply elem_of_cons in H as [->|H].
      * intros Hin. apply elem_of_cons in Hin as [Hin|Hin]; [congruence|].
        revert Hin. apply IH. left.
      * apply IH. right. exact H.
Qed.

Lemma split_parts_elem (sep c : ascii) (s part : str) :
  part ∈ split sep s -> c ∈ part -> c ∈ s.
Proof.
  revert part. induction s as [|x s IH]; intros part H Hc.
  - apply list_elem_of_singleton in H as ->. exact Hc.
  - destruct (decide (x = sep)) as [->|Hx].
    + rewrite split_cons_sep in H. apply elem_of_cons in H as [->|H];
        [inversion Hc | right; apply (IH part); assumption].
    + rewrite split_cons_other in H by exact Hx.
      pose proof (split_nonempty sep s) as Hne.
      destruct (split sep s) as [|p ps] eqn:E; [congruence|]. cbn [hd tl] in H.
      apply elem_of_cons in H as [->|H].
      * apply elem_of_cons in Hc as [->|Hc]; [left|].
        right. apply (IH p); [left | exact Hc].
      * right. apply (IH part); [right; exact H | exact Hc].
Qed.

Lemma mapM_capitalize_no_underscore (parts words : list str) :
  Forall (fun part => "_"%char ∉ part) parts ->
  mapM capitalize parts = Some words ->
  Forall (fun word => "_"%char ∉ word) words.
Proof.
  intros Hparts Hm. apply mapM_Some in Hm.
  induction Hm as [|part word parts words Hc _ IH]; [constructor|].
  inversion Hparts as [|? ? Hp Hps]; subst.
  constructor; [exact (capitalize_no_underscore part word Hp Hc) | apply IH, Hps].
Qed.

Lemma camel_fmap (s : str) :
  _to_camel_case s
  = (fun words => hd [] (split "_" s) ++ concat words)
    <$> mapM capitalize (tl (split "_" s)).
Proof. unfold _to_camel_case. destruct (mapM _ _); reflexivity. Qed.

Lemma capitalize_defined (part : str) :
  capitalize part = None
  <-> exists c rest, part = c :: rest /\ (code c = 181%N \/ code c = 255%N).
Proof.
  destruct part as [|c rest]; cbn [capitalize].
  - split; [discriminate | intros (? & ? & [=] & _)].
  - pose proof (title_char_defined c) as Hd.
    destruct (title_char c) as [t|]; split.
    + discriminate.
    + intros (c' & rest' & [= <- <-] & Hc).
      assert (Hs : is_Some (Some t)) by (eexists; reflexivity).
      apply Hd in Hs. destruct Hc; tauto.
    + intros _. exists c, rest. split; [reflexivity|].
      destruct (N.eq_dec (code c) 181%N) as [?|H1]; [left; assumption|].
      destruct (N.eq_dec (code c) 255%N) as [?|H2]; [right; assumption|].
      destruct (proj2 Hd (conj H1 H2)) as [? Hx]. discriminate Hx.
    + reflexivity.
Qed.

Lemma mapM_capitalize_None (parts : list str) :
  mapM capitalize parts = None
  <-> exists c rest, (c :: rest) ∈ parts /\ (code c = 181%N \/ code c = 255%N).
Proof.
  induction parts as [|part parts IH].
  - split; [discriminate | intros (? & ? & H & _); inversion H].
  - cbn [mapM mbind option_bind].
    destruct (capitalize part) as [word|] eqn:Ec.
    + destruct (mapM capitalize parts) as [words|]; split.
      * discriminate.
      * intros (c & rest & Hin & Hc). exfalso.
        apply elem_of_cons in Hin as [<-|Hin].
        -- assert (Hn : capitalize (c :: rest) = None)
             by (apply capitalize_defined; eauto).
           congruence.
        -- assert (Hx : Some words = None) by (apply IH; eauto). discriminate Hx.
      * intros _. destruct (proj1 IH eq_refl) as (c & rest & Hin & Hc).
        exists c, rest. split; [right; exact Hin | exact Hc].
      * reflexivity.
    + split; [|reflexivity]. intros _.
      apply capitalize_defined in Ec as (c & rest & -> & Hc).
      exists c, rest. split; [left | exact Hc].
Qed.

(** X14. For names of characters up to U+00FF.  [_to_snake_case] never
    returns an upper-case character.  [_to_camel_case] returns a name of
    the range unless a part after an underscore starts with U+00B5 or
    U+00FF, whose title-case forms lie outside; so it does on every name
    without these two characters; and the name it returns holds no
    underscore. *)
Theorem case_conversion_alphabets (s : str) :
  Forall (fun c => isupper c = false) (_to_snake_case s)
  /\ (forall r, _to_camel_case s = Some r -> "_"%char ∉ r)
  /\ (_to_camel_case s = None <->
      exists c part, (c :: part) ∈ tl (split "_" s)
                     /\ (code c = 181%N \/ code c = 255%N))
  /\ ((forall c, c ∈ s -> code c <> 181%N /\ code c <> 255%N) ->
      is_Some (_to_camel_case s)).
Proof.
  assert (Hnone : _to_camel_case s = None <->
            exists c part, (c :: part) ∈ tl (split "_" s)
                           /\ (code c = 181%N \/ code c = 255%N)).
  { rewrite camel_fmap, fmap_None. apply mapM_capitalize_None. }
  assert (Htl : forall part, part ∈ tl (split "_" s) -> part ∈ split "_" s).
  { intros part. destruct (split "_" s); [auto | intros H; right; exact H]. }
  assert (Hhd : hd [] (split "_" s) ∈ split "_" s).
  { pose proof (split_nonempty "_" s).
    destruct (split "_" s); [congruence | left]. }
  split; [apply snake_from_no_upper|]. split; [|split; [exact Hnone|]].
  - intros r. rewrite camel_fmap. intros Hr.
    apply fmap_Some in Hr as (words & E & ->).
    intros Hin. apply elem_of_app in Hin as [Hin|Hin].
    + revert Hin. apply (split_parts_no_sep "_" s), Hhd.
    + apply list_elem_of_In, in_concat in Hin as (word & Hword & Hin).
      assert (Hall : Forall (fun word => "_"%char ∉ word) words).
      { apply (mapM_capitalize_no_underscore (tl (split "_" s))); [|exact E].
        apply Forall_forall. intros part Hpart.
        apply (split_parts_no_sep "_" s), Htl, Hpart. }
      rewrite Forall_forall in Hall.
      apply (Hall word); apply list_elem_of_In; assumption.
  - intros Hs. apply not_eq_None_Some. intros E.
    apply Hnone in E as (c & part & Hin & Hc).
    assert (Hcs : c ∈ s).
    { apply (split_parts_elem "_" c s (c :: part)); [apply Htl, Hin | left]. }
    destruct (Hs c Hcs). destruct Hc; tauto.
Qed.

Lemma case_conversion_alphabets_witness :
  Forall (fun c => isupper c = false) (_to_snake_case "parseHTTPHeader")
  /\ ("_"%char ∉ "parseHttpHeader")
  /\ is_Some (_to_camel_case "parse_http_header").
Proof.
  destruct (case_conversion_alphabets "parse_http_header") as (_ & Hno & _ & Hsome).
  destruct (case_conversion_alphabets "parseHTTPHeader") as (Hup & _).
  split; [exact Hup|]. split; [apply Hno; reflexivity|].
  apply Hsome. intros c Hc.
  repeat (apply elem_of_cons in Hc as [->|Hc]; [split; discriminate|]).
  inversion Hc.
Defined.

(* ================================================================== *)
(** ** Loops that assign to the line buffer *)
(* ================================================================== *)

Lemma update_at_length (f : str -> option str) (buffer : list str) (i : nat) :
  length (update_at f buffer i) = length buffer.
Proof.
  unfold update_at. destruct (buffer !! i); [|reflexivity].
  destruct (f _); [apply length_insert | reflexivity].
Qed.

Lemma update_at_app (f : str -> option str) (l t : list str) (i : nat) :
  i < length l -> update_at f (l ++ t) i = update_at f l i ++ t.
Proof.
  intros Hi. unfold update_at. rewrite lookup_app_l by exact Hi.
  destruct (l !! i); [|reflexivity].
  destruct (f _); [apply insert_app_l; exact Hi | reflexivity].
Qed.

Lemma fold_update_app (f : str -> option str) (idx : list nat) (l t : list str) :
  Forall (fun i => i < length l) idx ->
  fold_left (update_at f) idx (l ++ t) = fold_left (update_at f) idx l ++ t.
Proof.
  revert l. induction idx as [|i idx IH]; intros l H; [reflexivity|].
  inversion H as [|? ? Hi Hidx]; subst. simpl.
  rewrite update_at_app by exact Hi.
  apply IH. rewrite update_at_length. exact Hidx.
Qed.

(** Such a loop rewrites each line on its own. *)
Lemma update_each_map (f : str -> option str) (buffer : list str) :
  update_each f buffer = map (fun line => default line (f line)) buffer.
Proof.
  unfold update_each.
  induction buffer as [|x l IH] using rev_ind; [reflexivity|].
  rewrite length_app, Nat.add_comm. simpl length at 1.
  rewrite seq_S, fold_left_app. simpl.
  rewrite fold_update_app.
  2:{ apply Forall_forall. intros i Hi. apply elem_of_seq in Hi. lia. }
  rewrite IH, map_app. simpl.
  set (l' := map (fun line => default line (f line)) l).
  assert (Hlen : length l' = length l) by apply length_map.
  unfold update_at. rewrite <- Hlen.
  rewrite list_lookup_middle by reflexivity.
  destruct (f x); simpl; [|reflexivity].
  replace (length l') with (length l' + 0) by lia.
  rewrite insert_app_r. reflexivity.
Qed.

(* ================================================================== *)
(** ** Whitespace around the trimmed text *)
(* ================================================================== *)

Lemma lstrip_split (s : str) :
  exists ws, Forall (fun c => isspace c = true) ws /\ s = ws ++ lstrip s.
Proof.
  induction s as [|c s (ws & Hws & IH)]; [exists []; split; [constructor | reflexivity]|].
  simpl. destruct (isspace c) eqn:E.
  - exists (c :: ws). split; [constructor; assumption | simpl; congruence].
  - exists []. split; [constructor | reflexivity].
Qed.

Lemma rstrip_split (s : str) :
  exists ws, Forall (fun c => isspace c = true) ws /\ s = rstrip s ++ ws.
Proof.
  induction s as [|c s (ws & Hws & IH)]; [exists []; split; [constructor | reflexivity]|].
  rewrite rstrip_cons. destruct (isspace c) eqn:Ec; cbn [andb].
  - destruct (str_eqb (rstrip s) []) eqn:E.
    + apply str_eqb_eq in E. rewrite E in IH. simpl in IH. subst s.
      exists (c :: ws). split; [constructor; assumption | reflexivity].
    + exists ws. split; [exact Hws | simpl; congruence].
  - exists ws. split; [exact Hws | simpl; congruence].
Qed.

(** A line is its trimmed text between two runs of whitespace. *)
Lemma strip_split (line : str) :
  exists ws1 ws2,
    Forall (fun c => isspace c = true) ws1
    /\ Forall (fun c => isspace c = true) ws2
    /\ line = ws1 ++ strip line ++ ws2.
Proof.
  destruct (rstrip_split line) as (ws2 & H2 & E2).
  destruct (lstrip_split (rstrip line)) as (ws1 & H1 & E1).
  exists ws1, ws2. split; [exact H1|]. split; [exact H2|].
  unfold strip. rewrite app_assoc, <- E1. exact E2.
Qed.

Lemma rstrip_spaces (ws : str) :
  Forall (fun c => isspace c = true) ws -> rstrip ws = [].
Proof.
  induction 1 as [|c ws Hc _ IH]; [reflexivity|].
  rewrite rstrip_cons, IH, Hc. reflexivity.
Qed.

Lemma strip_spaces (ws : str) :
  Forall (fun c => isspace c = true) ws -> strip ws = [].
Proof. intros H. unfold strip. rewrite rstrip_spaces by exact H. reflexivity. Qed.

Lemma rstrip_app_spaces (s ws : str) :
  Forall (fun c => isspace c = true) ws -> rstrip (s ++ ws) = rstrip s.
Proof.
  intros H. induction ws as [|c ws IH] using rev_ind; [rewrite app_nil_r; reflexivity|].
  apply Forall_app in H as [Hws Hc]. inversion Hc; subst.
  rewrite app_assoc, rstrip_snoc_space by assumption. apply IH, Hws.
Qed.

(** Text that starts and ends with a visible character is what [strip]
    returns when whitespace is put around it. *)
Lemma strip_core (ws1 core ws2 : str) :
  Forall (fun c => isspace c = true) ws1 ->
  Forall (fun c => isspace c = true) ws2 ->
  (exists c, head core = Some c /\ isspace c = false) ->
  (forall c, last core = Some c -> isspace c = false) ->
  strip (ws1 ++ core ++ ws2) = core.
Proof.
  intros H1 H2 (c & Hc & Hcs) Hlast. unfold strip.
  assert (Hr : rstrip (core ++ ws2) = core).
  { rewrite rstrip_app_spaces by exact H2. apply rstrip_fixed, Hlast. }
  rewrite rstrip_app_nonempty; rewrite Hr.
  - rewrite lstrip_app_space by exact H1.
    destruct core as [|x core]; [discriminate|]. injection Hc as ->.
    simpl. rewrite Hcs. reflexivity.
  - destruct core; [discriminate | discriminate].
Qed.

Lemma rstrip_elem (c : ascii) (s : str) : c ∈ rstrip s -> c ∈ s.
Proof.
  intros H. destruct (rstrip_split s) as (ws & _ & E).
  rewrite E. apply elem_of_app. left. exact H.
Qed.

(* ================================================================== *)
(** ** The trailing-whitespace transformer and the formatting detector *)
(* ================================================================== *)

Lemma split_app_sep (sep : ascii) (x rest : str) :
  sep ∉ x -> split sep (x ++ sep :: rest) = x :: split sep rest.
Proof.
  induction x as [|c x IH]; intros H.
  - apply split_cons_sep.
  - assert (Hc : c <> sep) by (intros ->; apply H; left).
    change ((c :: x) ++ sep :: rest) with (c :: (x ++ sep :: rest)).
    rewrite split_cons_other by exact Hc.
    rewrite IH by (intros Hin; apply H; right; exact Hin). reflexivity.
Qed.

Lemma split_terminated (sep : ascii) (xs : list str) :
  Forall (fun x => sep ∉ x) xs ->
  split sep (concat (map (fun x => x ++ [sep]) xs)) = xs ++ [[]].
Proof.
  induction 1 as [|x xs Hx _ IH]; [reflexivity|].
  cbn [map concat]. rewrite <- app_assoc. cbn [app].
  rewrite split_app_sep by exact Hx. rewrite IH. reflexivity.
Qed.

Lemma last_line_rstrip (line : str) :
  last_line line -> newline ∉ rstrip line.
Proof.
  intros [(body & Hb & ->)|[_ Hn]] Hin.
  - rewrite rstrip_snoc_space in Hin by reflexivity.
    apply Hb, rstrip_elem, Hin.
  - apply Hn, rstrip_elem, Hin.
Qed.

Lemma stripped_lines_reread (text : str) :
  split newline
    (writelines (remove_trailing_whitespace_lines (readlines text)))
  = map rstrip (readlines text) ++ [[]].
Proof.
  rewrite remove_trailing_whitespace_lines_map. unfold writelines, strip_newline.
  rewrite <- (map_map rstrip (fun x => x ++ [newline])).
  apply split_terminated. apply Forall_forall. intros x Hx.
  apply list_elem_of_fmap in Hx as (line & -> & Hline).
  apply list_elem_of_lookup in Hline as [i Hi].
  apply last_line_rstrip.
  apply (well_split_lookup _ i line (readlines_well_split text) Hi).
Qed.

(** X15. What [_remove_trailing_whitespace] makes of the lines read from
    a file passes the detector: when the buffer is written out and the
    result analysed, [_check_formatting] reports no trailing whitespace
    on any line. *)
Theorem stripped_file_has_no_trailing_whitespace (text : str) :
  Forall (fun v => rule_name v <> "trailingWhitespace")
    (_check_formatting
       (split newline
          (writelines (remove_trailing_whitespace_lines (readlines text))))).
Proof.
  apply Forall_forall. intros v Hv Hname.
  rewrite stripped_lines_reread in Hv. unfold _check_formatting in Hv.
  apply for_lines_elem in Hv as (i & line & _ & Hl & Hv).
  unfold formatting_line in Hv. apply elem_of_app in Hv as [Hv|Hv].
  - destruct (100 <? _); [|inversion Hv].
    apply list_elem_of_singleton in Hv. subst v. discriminate.
  - assert (Hfix : rstrip line = line).
    { apply list_elem_of_lookup_2 in Hl. apply elem_of_app in Hl as [Hl|Hl].
      - apply list_elem_of_fmap in Hl as (l & -> & _). apply rstrip_idempotent.
      - apply list_elem_of_singleton in Hl as ->. reflexivity. }
    rewrite Hfix, str_eqb_refl in Hv. inversion Hv.
Qed.

(* ================================================================== *)
(** ** The comment remover *)
(* ================================================================== *)

Lemma replace_first_padded (c : ascii) (t ws1 ws2 : str) :
  isspace c = false ->
  Forall (fun x => isspace x = true) ws1 ->
  replace_first (c :: t) [] (ws1 ++ (c :: t) ++ ws2) = ws1 ++ ws2.
Proof.
  intros Hc H. induction H as [|w ws1 Hw _ IH].
  - cbn [app replace_first].
    pose proof (startswith_app (c :: t) ws2) as Hs. cbn [app] in Hs.
    rewrite Hs. change (c :: t ++ ws2) with ((c :: t) ++ ws2).
    rewrite drop_app_length. reflexivity.
  - change ((w :: ws1) ++ (c :: t) ++ ws2) with (w :: (ws1 ++ (c :: t) ++ ws2)).
    cbn [replace_first startswith].
    assert (E : char_eqb c w = false).
    { apply char_eqb_neq. intros ->. congruence. }
    rewrite E. cbn [andb]. rewrite IH. reflexivity.
Qed.

Lemma useless_comment_head (stripped : str) :
  useless_comment stripped = true -> exists t, stripped = "/"%char :: t.
Proof.
  unfold useless_comment. intros H. apply andb_true_iff in H as [H _].
  apply startswith_spec in H as [t ->]. eexists. reflexivity.
Qed.

(** What [_remove_useless_comments] makes of one line. *)
Lemma blank_comment_spec (line : str) :
  match blank_comment line with
  | Some line' =>
      useless_comment (strip line) = true
      /\ Forall (fun c => isspace c = true) line'
      /\ length line' + length (strip line) = length line
  | None => useless_comment (strip line) = false
  end.
Proof.
  unfold blank_comment. destruct (useless_comment (strip line)) eqn:E; [|reflexivity].
  split; [reflexivity|].
  destruct (useless_comment_head _ E) as [t Ht].
  destruct (strip_split line) as (ws1 & ws2 & H1 & H2 & Hline).
  remember (strip line) as s eqn:Hs. clear Hs E. subst s line.
  rewrite replace_first_padded by (reflexivity || assumption).
  split; [apply Forall_app; split; assumption|].
  rewrite !length_app. lia.
Qed.

(** X16. [_remove_useless_comments] keeps the number of lines.  A line
    whose trimmed text starts with [// todo], [// fixme], [// hack] or
    [// this function], in any letter case, is left with its whitespace
    only: the trimmed text is cut out and nothing else; every other line
    is left as it is.  Running the transformer again changes nothing. *)
Theorem remove_useless_comments_blanks (buffer : list str) :
  let out := remove_useless_comments_lines buffer in
  length out = length buffer
  /\ (forall i line,
        buffer !! i = Some line ->
        exists line',
          out !! i = Some line'
          /\ if useless_comment (strip line)
             then Forall (fun c => isspace c = true) line'
                  /\ length line' + length (strip line) = length line
             else line' = line)
  /\ remove_useless_comments_lines out = out.
Proof.
  cbn zeta. unfold remove_useless_comments_lines. rewrite !update_each_map.
  split; [apply length_map|]. split.
  - intros i line Hl. eexists. split.
    + rewrite list_lookup_fmap, Hl. reflexivity.
    + pose proof (blank_comment_spec line) as H.
      destruct (blank_comment line) as [line'|]; cbn [default].
      * destruct H as (-> & H). exact H.
      * rewrite H. reflexivity.
  - rewrite map_map. apply map_ext. intros line.
    pose proof (blank_comment_spec line) as H.
    destruct (blank_comment line) as [line'|] eqn:E; cbn [default].
    + destruct H as (_ & Hws & _). unfold blank_comment.
      rewrite strip_spaces by exact Hws. reflexivity.
    + rewrite E. reflexivity.
Qed.

(* ================================================================== *)
(** ** The error-handling transformer, indentation variant *)
(* ================================================================== *)

Lemma replace_from_skip (old new a b : str) :
  replace_from old new (a ++ b) (length a) = replace_from old new b 0.
Proof.
  induction a as [|x a IH]; [destruct b; reflexivity|].
  simpl. exact IH.
Qed.

Lemma replace_spaces (c : ascii) (t new ws : str) :
  isspace c = false -> Forall (fun x => isspace x = true) ws ->
  replace_from (c :: t) new ws 0 = ws.
Proof.
  intros Hc H. induction H as [|w ws Hw _ IH]; [reflexivity|].
  cbn [replace_from startswith].
  assert (E : char_eqb c w = false) by (apply char_eqb_neq; intros ->; congruence).
  rewrite E. cbn [andb]. rewrite IH. reflexivity.
Qed.

(** [replace] on a text that stands alone between whitespace. *)
Lemma replace_padded (c : ascii) (t new ws1 ws2 : str) :
  isspace c = false ->
  Forall (fun x => isspace x = true) ws1 ->
  Forall (fun x => isspace x = true) ws2 ->
  replace (c :: t) new (ws1 ++ (c :: t) ++ ws2) = ws1 ++ new ++ ws2.
Proof.
  intros Hc H1 H2. unfold replace. induction H1 as [|w ws1 Hw _ IH].
  - cbn [app]. cbn [replace_from].
    pose proof (startswith_app (c :: t) ws2) as Hs. cbn [app] in Hs.
    rewrite Hs. f_equal. cbn [length]. rewrite Nat.sub_1_r. cbn [Nat.pred].
    rewrite replace_from_skip. apply replace_spaces; assumption.
  - change ((w :: ws1) ++ (c :: t) ++ ws2) with (w :: (ws1 ++ (c :: t) ++ ws2)).
    cbn [replace_from startswith].
    assert (E : char_eqb c w = false) by (apply char_eqb_neq; intros ->; congruence).
    rewrite E. cbn [andb]. rewrite IH. reflexivity.
Qed.

(** What the loop makes of a bare [except:] line. *)
Lemma rewritten_except (line : str) :
  strip line = "except:" ->
  exists ws1 ws2,
    Forall (fun c => isspace c = true) ws1
    /\ Forall (fun c => isspace c = true) ws2
    /\ line = ws1 ++ "except:" ++ ws2
    /\ replace "except:" "except Exception as e:" line
       = ws1 ++ "except Exception as e:" ++ ws2
    /\ strip (replace "except:" "except Exception as e:" line)
       = "except Exception as e:".
Proof.
  intros Hs. destruct (strip_split line) as (ws1 & ws2 & H1 & H2 & Hline).
  rewrite Hs in Hline. exists ws1, ws2.
  split; [exact H1|]. split; [exact H2|]. split; [exact Hline|].
  assert (R : replace "except:" "except Exception as e:" line
              = ws1 ++ "except Exception as e:" ++ ws2).
  { rewrite Hline. apply replace_padded; [reflexivity | assumption ..]. }
  split; [exact R|]. rewrite R.
  apply strip_core; [assumption | assumption | |].
  - exists "e"%char. split; reflexivity.
  - intros c [= <-]. reflexivity.
Qed.

Lemma improve_except_at_length (buffer : list str) (i : nat) :
  length (improve_except_at buffer i) = length buffer.
Proof.
  unfold improve_except_at. destruct (buffer !! i); [|reflexivity].
  destruct (str_eqb _ _); [|reflexivity].
  destruct (buffer !! (i + 1)); [|reflexivity].
  destruct (str_eqb _ _); [|reflexivity].
  rewrite !length_insert. reflexivity.
Qed.

Lemma fold_improve_length (idx : list nat) (buffer : list str) :
  length (fold_left improve_except_at idx buffer) = length buffer.
Proof.
  revert buffer. induction idx as [|i idx IH]; intros buffer; [reflexivity|].
  simpl. rewrite IH. apply improve_except_at_length.
Qed.

(** A turn changes nothing where the pair is absent, and rewrites the
    two lines where it is present. *)
Lemma improve_except_at_spec (buffer : list str) (i : nat) :
  if bare_except_at buffer i then
    exists line,
      buffer !! i = Some line /\ strip line = "except:"
      /\ improve_except_at buffer i
         = <[i + 1 := logger_line]>
             (<[i := replace "except:" "except Exception as e:" line]> buffer)
  else improve_except_at buffer i = buffer.
Proof.
  unfold bare_except_at, improve_except_at.
  destruct (buffer !! i) as [line|]; [|reflexivity].
  destruct (buffer !! (i + 1)) as [next|].
  - destruct (str_eqb (strip line) "except:") eqn:E1; [|reflexivity].
    destruct (str_eqb (strip next) "pass") eqn:E2; [|reflexivity].
    cbn [andb]. exists line. apply str_eqb_eq in E1. auto.
  - destruct (str_eqb (strip line) "except:"); reflexivity.
Qed.

Lemma improve_except_at_other (buffer : list str) (i j : nat) :
  j <> i -> j <> i + 1 ->
  improve_except_at buffer i !! j = buffer !! j.
Proof.
  intros H1 H2. pose proof (improve_except_at_spec buffer i) as H.
  destruct (bare_except_at buffer i).
  - destruct H as (line & _ & _ & ->).
    rewrite !list_lookup_insert_ne by congruence. reflexivity.
  - rewrite H. reflexivity.
Qed.

Lemma fold_improve_other (k m : nat) (buffer : list str) (j : nat) :
  j < k \/ k + m < j ->
  fold_left improve_except_at (seq k m) buffer !! j = buffer !! j.
Proof.
  revert k buffer. induction m as [|m IH]; intros k buffer Hj; [reflexivity|].
  cbn [seq fold_left]. rewrite IH by lia.
  apply improve_except_at_other; lia.
Qed.

Lemma bare_except_at_false_after (buffer : list str) (i j : nat) :
  j <= i ->
  (forall j', j' < i -> bare_except_at buffer j' = false) ->
  bare_except_at (improve_except_at buffer i) j = false.
Proof.
  intros Hj Hbefore. pose proof (improve_except_at_spec buffer i) as H.
  destruct (bare_except_at buffer i) eqn:Ei.
  - destruct H as (line & Hl & Hs & ->).
    destruct (rewritten_except line Hs) as (ws1 & ws2 & _ & _ & _ & _ & Hstrip).
    assert (Hi : i < length buffer) by (apply lookup_lt_Some in Hl; exact Hl).
    unfold bare_except_at.
    destruct (decide (j = i)) as [->|Hne].
    + rewrite list_lookup_insert_ne by lia.
      rewrite list_lookup_insert_eq by exact Hi.
      rewrite Hstrip. destruct (_ !! (i + 1)); reflexivity.
    + rewrite !(list_lookup_insert_ne _ _ j) by lia.
      destruct (buffer !! j) as [lj|] eqn:Ej; [|reflexivity].
      destruct (decide (j + 1 = i)) as [E|E].
      * rewrite E. rewrite list_lookup_insert_ne by lia.
        rewrite list_lookup_insert_eq by exact Hi.
        rewrite Hstrip. apply andb_false_r.
      * rewrite !list_lookup_insert_ne by lia.
        specialize (Hbefore j ltac:(lia)). unfold bare_except_at in Hbefore.
        rewrite Ej in Hbefore. exact Hbefore.
  - rewrite H. destruct (decide (j = i)) as [->|Hne]; [exact Ei|].
    apply Hbefore. lia.
Qed.

Lemma fold_improve_no_pair (m k : nat) (buffer : list str) :
  (forall j, j < k -> bare_except_at buffer j = false) ->
  forall j, j < k + m ->
    bare_except_at (fold_left improve_except_at (seq k m) buffer) j = false.
Proof.
  revert k buffer. induction m as [|m IH]; intros k buffer Hk j Hj.
  - apply Hk. lia.
  - cbn [seq fold_left]. apply (IH (S k)); [|lia].
    intros j' Hj'. apply bare_except_at_false_after; [lia | exact Hk].
Qed.

Lemma bare_except_at_bound (buffer : list str) (j : nat) :
  length buffer <= j -> bare_except_at buffer j = false.
Proof.
  intros H. unfold bare_except_at. rewrite (lookup_ge_None_2 buffer j) by exact H.
  reflexivity.
Qed.

Lemma fold_improve_fixed (idx : list nat) (buffer : list str) :
  (forall j, bare_except_at buffer j = false) ->
  fold_left improve_except_at idx buffer = buffer.
Proof.
  intros H. induction idx as [|i idx IH]; [reflexivity|].
  cbn [fold_left]. pose proof (improve_except_at_spec buffer i) as Hi.
  rewrite H in Hi. rewrite Hi. exact IH.
Qed.

Lemma bare_except_at_logger (buffer : list str) (k : nat) :
  buffer !! k = Some logger_line -> bare_except_at buffer k = false.
Proof.
  intros H. unfold bare_except_at. rewrite H.
  destruct (buffer !! (k + 1)); reflexivity.
Qed.

Lemma python_loop (buffer : list str) :
  improve_error_handling_lines "python" buffer
  = fold_left improve_except_at (seq 0 (length buffer)) buffer.
Proof. reflexivity. Qed.

(** The pair at [i] is still as it was read when the loop reaches it. *)
Lemma fold_improve_reaches (buffer : list str) (i : nat) (line next : str) :
  buffer !! i = Some line -> buffer !! (i + 1) = Some next ->
  strip line = "except:" ->
  let reached := fold_left improve_except_at (seq 0 i) buffer in
  reached !! i = Some line /\ reached !! (i + 1) = Some next.
Proof.
  intros Hl Hn Hs. cbn zeta. split; [|rewrite fold_improve_other by lia; exact Hn].
  destruct i as [|i]; [exact Hl|].
  rewrite seq_S, fold_left_app. cbn [fold_left Nat.add].
  set (before := fold_left improve_except_at (seq 0 i) buffer).
  assert (Hb : before !! S i = Some line).
  { unfold before. rewrite fold_improve_other by lia. exact Hl. }
  pose proof (improve_except_at_spec before i) as H.
  destruct (bare_except_at before i) eqn:E.
  - exfalso. unfold bare_except_at in E.
    replace (i + 1) with (S i) in E by lia. rewrite Hb in E.
    destruct (before !! i); [|discriminate].
    rewrite Hs in E. rewrite andb_false_r in E. discriminate.
  - rewrite H. exact Hb.
Qed.

(** X17. The [python] loop of [_improve_error_handling] keeps the number
    of lines.  Every line whose trimmed text is [except:] and whose next
    line has the trimmed text [pass] is rewritten: the [except:] line
    keeps the whitespace around it and reads [except Exception as e:],
    the [pass] line is replaced by the logging line, indented by four
    spaces whatever its own indentation was.  No such pair is left in
    the result; a buffer without such a pair is returned unchanged, so
    running the transformer again changes nothing. *)
Theorem improve_error_handling_python (buffer : list str) :
  let out := improve_error_handling_lines "python" buffer in
  length out = length buffer
  /\ (forall i line next,
        buffer !! i = Some line -> buffer !! (i + 1) = Some next ->
        strip line = "except:" -> strip next = "pass" ->
        exists ws1 ws2,
          Forall (fun c => isspace c = true) ws1
          /\ Forall (fun c => isspace c = true) ws2
          /\ line = ws1 ++ "except:" ++ ws2
          /\ out !! i = Some (ws1 ++ "except Exception as e:" ++ ws2)
          /\ out !! (i + 1) = Some logger_line)
  /\ (forall i, bare_except_at out i = false)
  /\ ((forall i, bare_except_at buffer i = false) -> out = buffer)
  /\ improve_error_handling_lines "python" out = out.
Proof.
  cbn zeta. rewrite !python_loop.
  assert (Hnone : forall i,
            bare_except_at
              (fold_left improve_except_at (seq 0 (length buffer)) buffer) i = false).
  { intros i. destruct (le_lt_dec (length buffer) i) as [Hi|Hi].
    - apply bare_except_at_bound. rewrite fold_improve_length. exact Hi.
    - apply (fold_improve_no_pair (length buffer) 0); [intros j Hj; lia | lia]. }
  split; [apply fold_improve_length|]. split; [|split; [exact Hnone|split]].
  - intros i line next Hl Hn Hs Hp.
    destruct (rewritten_except line Hs) as (ws1 & ws2 & H1 & H2 & Hline & Hrep & Hstrip).
    exists ws1, ws2. split; [exact H1|]. split; [exact H2|]. split; [exact Hline|].
    assert (Hi : i + 1 < length buffer) by (apply lookup_lt_Some in Hn; exact Hn).
    replace (length buffer) with (i + (1 + (length buffer - i - 1))) by lia.
    rewrite seq_app, fold_left_app. cbn [seq fold_left Nat.add].
    destruct (fold_improve_reaches buffer i line next Hl Hn Hs) as [Ri Rn].
    set (reached := fold_left improve_except_at (seq 0 i) buffer) in *.
    assert (Hlen : length reached = length buffer) by apply fold_improve_length.
    pose proof (improve_except_at_spec reached i) as Hstep.
    assert (Eb : bare_except_at reached i = true).
    { unfold bare_except_at. rewrite Ri, Rn, Hs, Hp. reflexivity. }
    rewrite Eb in Hstep. destruct Hstep as (line' & Hl' & _ & Hstep).
    rewrite Ri in Hl'. injection Hl' as <-.
    rewrite Hstep, Hrep.
    set (changed := <[i + 1 := logger_line]>
                      (<[i := ws1 ++ "except Exception as e:" ++ ws2]> reached)).
    assert (Ci : changed !! i = Some (ws1 ++ "except Exception as e:" ++ ws2)).
    { unfold changed. rewrite list_lookup_insert_ne by lia.
      apply list_lookup_insert_eq. unfold str in *. lia. }
    assert (Cn : changed !! (i + 1) = Some logger_line).
    { unfold changed. apply list_lookup_insert_eq. rewrite length_insert. unfold str in *. lia. }
    subst changed. split.
    + rewrite fold_improve_other by lia. exact Ci.
    + destruct (length buffer - i - 1) as [|m] eqn:Em; [exact Cn|].
      cbn [seq fold_left]. rewrite fold_improve_other by lia.
      replace (S i) with (i + 1) by lia.
      match goal with
      | |- improve_except_at ?b ?k !! _ = _ =>
          pose proof (improve_except_at_spec b k) as Hnext;
          assert (En : bare_except_at b k = false)
      end.
      { apply bare_except_at_logger. exact Cn. }
      rewrite En in Hnext. rewrite Hnext. exact Cn.
  - intros H. apply fold_improve_fixed, H.
  - rewrite fold_improve_length. apply fold_improve_fixed, Hnone.
Qed.

(* ================================================================== *)
(** ** The line breakers *)
(* ================================================================== *)

Lemma visible_app (a b : str) : visible (a ++ b) = visible a ++ visible b.
Proof. exact (filter_app (fun x => isspace x = false) a b). Qed.

Lemma visible_spaces (n : nat) : visible (spaces n) = [].
Proof. induction n as [|n IH]; [reflexivity | exact IH]. Qed.

Lemma visible_cons_other (c : ascii) (s : str) :
  isspace c = false -> visible (c :: s) = c :: visible s.
Proof. intros H. exact (filter_cons_True (fun x => isspace x = false) c s H). Qed.

Lemma join_cons (sep p : str) (ps : list str) :
  ps <> [] -> join sep (p :: ps) = p ++ sep ++ join sep ps.
Proof. destruct ps; [congruence | reflexivity]. Qed.

(** Joining the parts of a split with the separator gives the text
    back. *)
Lemma join_split (sep : ascii) (s : str) : join [sep] (split sep s) = s.
Proof.
  induction s as [|c s IH]; [reflexivity|].
  destruct (decide (c = sep)) as [->|Hc].
  - rewrite split_cons_sep, join_cons by apply split_nonempty.
    rewrite IH. reflexivity.
  - rewrite split_cons_other by exact Hc.
    pose proof (split_nonempty sep s) as Hne.
    destruct (split sep s) as [|p ps]; [congruence|]. cbn [hd tl].
    destruct ps as [|q ps]; cbn [join] in *; rewrite <- IH; reflexivity.
Qed.

Lemma visible_join (sep : str) (parts : list str) :
  visible (join sep parts) = join (visible sep) (map visible parts).
Proof.
  induction parts as [|p ps IH]; [reflexivity|].
  destruct ps as [|q ps]; [reflexivity|].
  rewrite join_cons by congruence. rewrite !visible_app, IH.
  cbn [map].
  rewrite (join_cons (visible sep) (visible p) (visible q :: map visible ps))
    by discriminate.
  reflexivity.
Qed.

(** A text that holds the separator splits in two parts at least. *)
Lemma split_two (sep : ascii) (s : str) :
  contains [sep] s = true ->
  exists p0 p1 rest, split sep s = p0 :: p1 :: rest.
Proof.
  rewrite contains_char. induction s as [|c s IH]; [intros H; inversion H|].
  intros H. destruct (decide (c = sep)) as [->|Hc].
  - rewrite split_cons_sep. pose proof (split_nonempty sep s) as Hne.
    destruct (split sep s) as [|p ps]; [congruence|]. eauto.
  - apply elem_of_cons in H as [H|H]; [congruence|].
    destruct (IH H) as (p0 & p1 & rest & E).
    rewrite split_cons_other, E by exact Hc. cbn [hd tl]. eauto.
Qed.

(** [_break_js_line] changes the white space of a line only. *)
Lemma break_js_line_visible (line : str) :
  visible (_break_js_line line) = visible line.
Proof.
  unfold _break_js_line.
  destruct (contains "+" line && negb (contains "template" line)) eqn:E;
    [|reflexivity].
  apply andb_true_iff in E as [Hplus _].
  destruct (split_two "+" line Hplus) as (p0 & p1 & rest & Hsplit).
  rewrite Hsplit. cbn [length Nat.ltb Nat.leb hd tl].
  pose proof (join_split "+" line) as Hjoin. rewrite Hsplit in Hjoin.
  rewrite join_cons in Hjoin by congruence.
  rewrite <- Hjoin at 2.
  rewrite !visible_app, visible_spaces, !visible_join.
  reflexivity.
Qed.

Lemma lookup_map {A B : Type} (f : A -> B) (l : list A) (i : nat) :
  map f l !! i = f <$> (l !! i).
Proof.
  revert i. induction l as [|x l IH]; intros [|i]; try reflexivity. apply IH.
Qed.

Lemma lookup_map_Some {A B : Type} (f : A -> B) (l : list A) (i : nat) (x : A) :
  l !! i = Some x -> map f l !! i = Some (f x).
Proof. intros H. rewrite lookup_map, H. reflexivity. Qed.

Lemma break_line_js (language : str) (line : str) :
  is_js language = true -> break_line language line = _break_js_line line.
Proof. intros H. unfold break_line. rewrite H. reflexivity. Qed.

(** X18. For [js] and [ts], [_shorten_functions] and [_break_long_lines]
    keep the number of entries of the buffer and change white space
    only: the characters of each line that are not white space are the
    same, in the same order, before and after.  [_shorten_functions]
    leaves a line of at most 80 characters as it is, [_break_long_lines]
    a line of at most 100. *)
Theorem js_line_breaking_keeps_text (language : str) (buffer : list str) :
  is_js language = true ->
  let short := shorten_functions_lines language buffer in
  let broken := break_long_lines_lines language buffer in
  length short = length buffer
  /\ length broken = length buffer
  /\ map visible short = map visible buffer
  /\ map visible broken = map visible buffer
  /\ (forall i line, buffer !! i = Some line -> length line <= 80 ->
        short !! i = Some line)
  /\ (forall i line, buffer !! i = Some line -> length line <= 100 ->
        broken !! i = Some line).
Proof.
  intros Hjs. cbn zeta. unfold shorten_functions_lines, break_long_lines_lines.
  rewrite update_each_map.
  split; [apply length_map|]. split; [apply length_map|].
  split; [|split; [|split]].
  - rewrite map_map. apply map_ext. intros line.
    destruct (length line <=? 80); [reflexivity|].
    rewrite break_line_js by exact Hjs. apply break_js_line_visible.
  - rewrite map_map. apply map_ext. intros line.
    destruct (100 <? length line); [|reflexivity].
    cbn [default]. rewrite break_line_js by exact Hjs. apply break_js_line_visible.
  - intros i line Hl Hlen. erewrite lookup_map_Some by exact Hl.
    apply Nat.leb_le in Hlen. rewrite Hlen. reflexivity.
  - intros i line Hl Hlen. erewrite lookup_map_Some by exact Hl.
    assert (E : (100 <? length line) = false) by (apply Nat.ltb_ge; exact Hlen).
    rewrite E. reflexivity.
Qed.

Lemma js_line_breaking_keeps_text_witness :
  length (shorten_functions_lines "js" long_js_buffer) = length long_js_buffer
  /\ length (break_long_lines_lines "js" long_js_buffer) = length long_js_buffer
  /\ map visible (shorten_functions_lines "js" long_js_buffer)
     = map visible long_js_buffer
  /\ map visible (break_long_lines_lines "js" long_js_buffer)
     = map visible long_js_buffer
  /\ (forall i line, long_js_buffer !! i = Some line -> length line <= 80 ->
        shorten_functions_lines "js" long_js_buffer !! i = Some line)
  /\ (forall i line, long_js_buffer !! i = Some line -> length line <= 100 ->
        break_long_lines_lines "js" long_js_buffer !! i = Some line).
Proof.
  apply (js_line_breaking_keeps_text "js" long_js_buffer). reflexivity.
Defined.

Lemma visible_comma_join (s : str) :
  visible (join ", " (split "," s)) = visible s.
Proof.
  rewrite visible_join. change (visible ", ") with (visible ",").
  rewrite <- visible_join, join_split. reflexivity.
Qed.

(** X19. On a line that holds both parentheses, [_break_python_line]
    keeps the text before the first opening parenthesis and the text
    between the first and the second one (up to the end of the line when
    there is no second), drops the rest of the line, and closes with a
    parenthesis of its own.  So the characters that are not white space
    are never those of the line it was given. *)
Theorem break_python_line_shape (line : str) :
  contains "(" line = true -> contains ")" line = true ->
  exists p0 p1 rest,
    line = p0 ++ "(" ++ p1 ++ rest
    /\ ("("%char ∉ p0) /\ ("("%char ∉ p1)
    /\ (rest = [] \/ exists t, rest = "("%char :: t)
    /\ _break_python_line line
       = p0 ++ "(" ++ [newline] ++ spaces (indent_of line + 4)
         ++ join ", " (split "," p1) ++ [newline]
         ++ spaces (indent_of line) ++ ")"
    /\ visible (_break_python_line line) = visible p0 ++ "(" ++ visible p1 ++ ")"
    /\ visible (_break_python_line line) <> visible line.
Proof.
  intros Hopen Hclose.
  destruct (split_two "(" line Hopen) as (p0 & p1 & parts & Hsplit).
  pose proof (join_split "(" line) as Hjoin. rewrite Hsplit in Hjoin.
  rewrite join_cons in Hjoin by congruence.
  set (rest := match parts with [] => [] | _ => "(" ++ join "(" parts end).
  assert (Hline : line = p0 ++ "(" ++ p1 ++ rest).
  { rewrite <- Hjoin at 1. f_equal. f_equal. unfold rest.
    destruct parts as [|q parts]; [cbn [join]; rewrite app_nil_r; reflexivity|].
    apply join_cons. congruence. }
  assert (Hrest : rest = [] \/ exists t, rest = "("%char :: t).
  { unfold rest. destruct parts; [left; reflexivity | right; eexists; reflexivity]. }
  assert (Hbreak : _break_python_line line
                   = p0 ++ "(" ++ [newline] ++ spaces (indent_of line + 4)
                     ++ join ", " (split "," p1) ++ [newline]
                     ++ spaces (indent_of line) ++ ")").
  { unfold _break_python_line. rewrite Hopen, Hclose, Hsplit. reflexivity. }
  assert (Hvis : visible (_break_python_line line)
                 = visible p0 ++ "(" ++ visible p1 ++ ")").
  { rewrite Hbreak. rewrite !visible_app, !visible_spaces, visible_comma_join.
    reflexivity. }
  exists p0, p1, rest.
  split; [exact Hline|].
  split; [apply (split_parts_no_sep "(" line); rewrite Hsplit; left|].
  split; [apply (split_parts_no_sep "(" line); rewrite Hsplit; right; left|].
  split; [exact Hrest|]. split; [exact Hbreak|]. split; [exact Hvis|].
  rewrite Hvis. rewrite Hline at 1. rewrite !visible_app.
  intros H. apply app_inv_head in H. apply app_inv_head in H.
  apply app_inv_head in H.
  destruct Hrest as [E|[t E]]; rewrite E in H; discriminate H.
Qed.

Lemma break_python_line_shape_witness :
  exists p0 p1 rest,
    "    total = compute(first, second) + other(third)"
      = p0 ++ "(" ++ p1 ++ rest
    /\ ("("%char ∉ p0) /\ ("("%char ∉ p1)
    /\ (rest = [] \/ exists t, rest = "("%char :: t)
    /\ _break_python_line "    total = compute(first, second) + other(third)"
       = p0 ++ "(" ++ [newline]
         ++ spaces (indent_of "    total = compute(first, second) + other(third)" + 4)
         ++ join ", " (split "," p1) ++ [newline]
         ++ spaces (indent_of "    total = compute(first, second) + other(third)")
         ++ ")"
    /\ visible (_break_python_line "    total = compute(first, second) + other(third)")
       = visible p0 ++ "(" ++ visible p1 ++ ")"
    /\ visible (_break_python_line "    total = compute(first, second) + other(third)")
       <> visible "    total = compute(first, second) + other(third)".
Proof.
  apply (break_python_line_shape
           "    total = compute(first, second) + other(third)"); reflexivity.
Defined.

(* ================================================================== *)
(** ** Every outcome of [refactor] *)
(* ================================================================== *)

Section RegistryFacts.

Variables fix_naming shorten break_long extract improve remove_comments
  : Refactorer -> Refactorer * outcome.

(** Looking a name up in the dictionary of [_get_all_rules]. *)
Lemma find_rule_registry (rule_name : str) :
  match assoc rule_name rule_methods with
  | Some m =>
      exists rule,
        find_rule
          (_get_all_rules fix_naming shorten break_long extract improve
             remove_comments) rule_name = Some rule
        /\ qualname (apply_function rule) = "CleanCodeRefactorer." ++ m
  | None =>
      find_rule
        (_get_all_rules fix_naming shorten break_long extract improve
           remove_comments) rule_name = None
  end.
Proof.
  unfold find_rule, _get_all_rules, rule_methods.
  cbn [assoc list_find fst].
  repeat match goal with
  | |- context [str_eqb rule_name ?k] =>
      destruct (str_eqb rule_name k) eqn:?;
      [ rewrite decide_True by reflexivity;
        cbn [fmap option_fmap option_map prod_map fst snd];
        eexists; split; reflexivity
      | rewrite decide_False by discriminate ]
  end.
  reflexivity.
Qed.

Lemma apply_named_registry (names : list str) (self : Refactorer) :
  apply_named
    (_get_all_rules fix_naming shorten break_long extract improve
       remove_comments) names self
  = (self, match first_registered names with
           | Some m => Raised (one_argument_too_many m)
           | None => Returned
           end).
Proof.
  induction names as [|n names IH]; [reflexivity|].
  cbn [apply_named first_registered].
  pose proof (find_rule_registry n) as H.
  destruct (assoc n rule_methods) as [m|].
  - destruct H as (rule & -> & Hq). rewrite call_with_argument_raises, Hq.
    unfold one_argument_too_many. rewrite <- !app_assoc. reflexivity.
  - rewrite H. exact IH.
Qed.

End RegistryFacts.

(** X20. Every outcome of [refactor].  A call never changes a file, and
    the buffer is left with the lines of the text that was read.  It fails when the
    file cannot be opened, and when a list of names is given of which
    one is a key of the rule dictionary: the error is then the
    [TypeError] of the method of the first such name, and nothing is
    printed.  A list of unknown names only is accepted without a word:
    the call succeeds with no rule applied.  With no list, or an empty
    one, the call succeeds with no rule applied after seven warnings. *)
Theorem refactor_outcome
    (_fix_naming_conventions _shorten_functions _break_long_lines
     _extract_constants _improve_error_handling _remove_useless_comments
       : Refactorer -> Refactorer * outcome)
    (self : Refactorer) (fs : gmap str str) (file_path : str)
    (rules : option (list str)) (now : str) :
  let (result, w) :=
    refactor _fix_naming_conventions _shorten_functions _break_long_lines
      _extract_constants _improve_error_handling _remove_useless_comments
      self fs file_path rules now in
  w_files w = fs /\ w_writes w = []
  /\ match read_text fs file_path with
     | None =>
         result = Failed ("[Errno 2] No such file or directory: "
                          ++ repr file_path)
                         (elements (rules_applied self))
     | Some text =>
         refactored_lines (w_self w) = readlines text
         /\ match first_registered (default [] rules) with
            | Some m =>
                result = Failed (one_argument_too_many m) []
                /\ w_printed w = []
            | None =>
                result = Succeeded [] None 0
                /\ length (w_printed w)
                   = match rules with Some (_ :: _) => 0 | _ => 7 end
            end
     end.
Proof.
  unfold refactor, refactor_with.
  destruct (read_text fs file_path) as [text|]; [|repeat split].
  set (self0 := mkRefactorer (language self) (readlines text) ∅).
  set (registry := _get_all_rules _ _ _ _ _ _).
  assert (Hall : exists ws, apply_all registry (self0, []) = (self0, ws)
                            /\ length ws = 7).
  { destruct (apply_all_applies_nothing registry self0 []) as (ws & H & Hlen).
    exists ws. split; [exact H | exact Hlen]. }
  destruct Hall as (ws & Hall & Hlen).
  assert (Hempty : bool_decide (rules_applied self0 = ∅) = true)
    by (apply bool_decide_eq_true_2; reflexivity).
  destruct rules as [[|r rs]|].
  - rewrite Hall, Hempty. cbn. repeat split. exact Hlen.
  - unfold registry. rewrite apply_named_registry.
    change (default [] (Some (r :: rs))) with (r :: rs).
    destruct (first_registered (r :: rs)) as [m|].
    + cbn. repeat split.
    + rewrite Hempty. cbn. repeat split.
  - rewrite Hall, Hempty. cbn. repeat split. exact Hlen.
Qed.

(* ================================================================== *)
(** ** The error-handling transformer, brace variant *)
(* ================================================================== *)

Lemma contains_after_console (l : str) :
  contains "catch () {" (console_line ++ l) = contains "catch () {" l.
Proof. reflexivity. Qed.

Lemma replace_after_console (l : str) :
  replace "catch () {" "catch (error) {" (console_line ++ l)
  = console_line ++ replace "catch () {" "catch (error) {" l.
Proof. reflexivity. Qed.

(** [replace] leaves a text without the pattern as it is. *)
Lemma replace_absent (old new s : str) :
  contains old s = false -> replace old new s = s.
Proof.
  unfold replace. induction s as [|c s IH]; [reflexivity|].
  cbn [contains]. intros H. apply orb_false_iff in H as [H1 H2].
  cbn [replace_from]. rewrite H1, (IH H2). reflexivity.
Qed.

Lemma console_prefix_cases (buffer : list str) (j : nat) :
  console_prefix buffer j = [] \/ console_prefix buffer j = console_line.
Proof.
  destruct j as [|j]; [left; reflexivity|]. cbn [console_prefix].
  destruct (buffer !! j) as [prev|]; [|left; reflexivity].
  destruct (contains "catch () {" prev); [right | left]; reflexivity.
Qed.

Lemma contains_after_prefix (buffer : list str) (j : nat) (l : str) :
  contains "catch () {" (console_prefix buffer j ++ l) = contains "catch () {" l.
Proof.
  destruct (console_prefix_cases buffer j) as [-> | ->];
    [reflexivity | apply contains_after_console].
Qed.

Lemma replace_after_prefix (buffer : list str) (j : nat) (l : str) :
  replace "catch () {" "catch (error) {" (console_prefix buffer j ++ l)
  = console_prefix buffer j ++ replace "catch () {" "catch (error) {" l.
Proof.
  destruct (console_prefix_cases buffer j) as [-> | ->];
    [reflexivity | apply replace_after_console].
Qed.

Lemma console_prefix_next (buffer : list str) (k : nat) (line : str) :
  buffer !! k = Some line ->
  console_prefix buffer (S k)
  = if contains "catch () {" line then console_line else [].
Proof. intros H. cbn [console_prefix]. rewrite H. reflexivity. Qed.

Lemma catch_state_start (buffer : list str) : catch_state buffer 0 buffer.
Proof.
  split; [reflexivity|]. intros j line H.
  destruct j as [|j]; exact H.
Qed.

Lemma catch_state_step (buffer buf : list str) (k : nat) :
  catch_state buffer k buf ->
  catch_state buffer (S k) (improve_catch_at buf k).
Proof.
  intros [Hlen Hst]. unfold catch_state, improve_catch_at. unfold str in *.
  destruct (buffer !! k) as [line|] eqn:Hk.
  - pose proof (Hst k line Hk) as Hbk.
    rewrite Nat.ltb_irrefl, Nat.eqb_refl in Hbk. rewrite Hbk.
    rewrite contains_after_prefix, replace_after_prefix.
    assert (Hkl : k < length buf).
    { rewrite Hlen. apply lookup_lt_Some in Hk. exact Hk. }
    pose proof (console_prefix_next buffer k line Hk) as Hnext.
    destruct (contains "catch () {" line) eqn:Hc.
    + destruct (buffer !! (k + 1)) as [next|] eqn:Hk1.
      * pose proof (Hst (k + 1) next Hk1) as Hb1.
        replace (k + 1 <? k) with false in Hb1 by (symmetry; apply Nat.ltb_ge; lia).
        replace (k + 1 =? k) with false in Hb1 by (symmetry; apply Nat.eqb_neq; lia).
        rewrite list_lookup_insert_ne by lia. rewrite Hb1.
        split; [rewrite !length_insert; exact Hlen|].
        intros j l Hj.
        destruct (decide (j = k + 1)) as [->|Hne1].
        -- rewrite list_lookup_insert_eq by (rewrite length_insert;
             apply lookup_lt_Some in Hb1; exact Hb1).
           replace (k + 1 <? S k) with false by (symmetry; apply Nat.ltb_ge; lia).
           replace (k + 1 =? S k) with true by (symmetry; apply Nat.eqb_eq; lia).
           replace (k + 1) with (S k) by lia. rewrite Hnext.
           replace (S k) with (k + 1) in Hj by lia.
           assert (l = next) as -> by congruence. reflexivity.
        -- rewrite list_lookup_insert_ne by lia.
           destruct (decide (j = k)) as [->|Hne].
           ++ rewrite list_lookup_insert_eq by exact Hkl.
              replace (k <? S k) with true by (symmetry; apply Nat.ltb_lt; lia).
              assert (l = line) as -> by congruence. reflexivity.
           ++ rewrite list_lookup_insert_ne by lia. rewrite (Hst j l Hj).
              destruct (Nat.ltb_spec j k), (Nat.ltb_spec j (S k)),
                (Nat.eqb_spec j k), (Nat.eqb_spec j (S k));
                try lia; reflexivity.
      * assert (Hnone : buf !! (k + 1) = None).
        { apply lookup_ge_None_2. rewrite Hlen.
          apply lookup_ge_None_1 in Hk1. exact Hk1. }
        rewrite list_lookup_insert_ne by lia. rewrite Hnone.
        split; [rewrite length_insert; exact Hlen|].
        intros j l Hj.
        assert (j <= k).
        { apply lookup_lt_Some in Hj. apply lookup_ge_None_1 in Hk1. lia. }
        destruct (decide (j = k)) as [->|Hne].
        -- rewrite list_lookup_insert_eq by exact Hkl.
           replace (k <? S k) with true by (symmetry; apply Nat.ltb_lt; lia).
           assert (l = line) as -> by congruence. reflexivity.
        -- rewrite list_lookup_insert_ne by lia. rewrite (Hst j l Hj).
           replace (j <? k) with true by (symmetry; apply Nat.ltb_lt; lia).
           replace (j <? S k) with true by (symmetry; apply Nat.ltb_lt; lia).
           reflexivity.
    + split; [exact Hlen|]. intros j l Hj. rewrite (Hst j l Hj).
      destruct (decide (j = k)) as [->|Hne].
      * rewrite Nat.ltb_irrefl, Nat.eqb_refl.
        replace (k <? S k) with true by (symmetry; apply Nat.ltb_lt; lia).
        assert (l = line) as -> by congruence.
        rewrite (replace_absent _ _ line Hc). reflexivity.
      * destruct (decide (j = S k)) as [->|Hne1].
        -- replace (S k <? k) with false by (symmetry; apply Nat.ltb_ge; lia).
           replace (S k =? k) with false by (symmetry; apply Nat.eqb_neq; lia).
           rewrite Nat.ltb_irrefl, Nat.eqb_refl, Hnext. reflexivity.
        -- destruct (Nat.ltb_spec j k), (Nat.ltb_spec j (S k)),
             (Nat.eqb_spec j k), (Nat.eqb_spec j (S k));
             try lia; reflexivity.
  - assert (Hnone : buf !! k = None).
    { apply lookup_ge_None_2. rewrite Hlen. apply lookup_ge_None_1 in Hk. exact Hk. }
    rewrite Hnone. split; [exact Hlen|]. intros j l Hj. rewrite (Hst j l Hj).
    assert (j < k).
    { apply lookup_lt_Some in Hj. apply lookup_ge_None_1 in Hk. lia. }
    replace (j <? k) with true by (symmetry; apply Nat.ltb_lt; lia).
    replace (j <? S k) with true by (symmetry; apply Nat.ltb_lt; lia).
    reflexivity.
Qed.

Lemma catch_state_fold (buffer : list str) (m k : nat) (buf : list str) :
  catch_state buffer k buf ->
  catch_state buffer (k + m) (fold_left improve_catch_at (seq k m) buf).
Proof.
  revert k buf. induction m as [|m IH]; intros k buf H.
  - rewrite Nat.add_0_r. exact H.
  - cbn [seq fold_left]. replace (k + S m) with (S k + m) by lia.
    apply IH, catch_state_step, H.
Qed.

(** X21. The [js]/[ts] loop of [_improve_error_handling] keeps the
    number of entries of the buffer.  In every line each [catch () {]
    becomes [catch (error) {], and the logging line is put in front of a
    line exactly when the line before it held [catch () {]; an empty
    [catch] on the last line is renamed and gets no logging line. *)
Theorem improve_error_handling_js (language : str) (buffer : list str) :
  is_js language = true ->
  let out := improve_error_handling_lines language buffer in
  length out = length buffer
  /\ forall i line, buffer !! i = Some line ->
       out !! i
       = Some (console_prefix buffer i
               ++ replace "catch () {" "catch (error) {" line).
Proof.
  intros Hjs. cbn zeta. unfold improve_error_handling_lines. rewrite Hjs.
  destruct (catch_state_fold buffer (length buffer) 0 buffer
              (catch_state_start buffer)) as [Hlen Hst].
  split; [exact Hlen|]. intros i line Hi. rewrite (Hst i line Hi).
  apply lookup_lt_Some in Hi.
  replace (i <? 0 + length buffer) with true by (symmetry; apply Nat.ltb_lt; lia).
  reflexivity.
Qed.

Lemma improve_error_handling_js_witness :
  length (improve_error_handling_lines "js" catch_buffer) = length catch_buffer
  /\ forall i line, catch_buffer !! i = Some line ->
       improve_error_handling_lines "js" catch_buffer !! i
       = Some (console_prefix catch_buffer i
               ++ replace "catch () {" "catch (error) {" line).
Proof.
  apply (improve_error_handling_js "js" catch_buffer). reflexivity.
Defined.

(* ================================================================== *)
(** ** The command line of the analyzer *)
(* ================================================================== *)

Lemma analyze_found (language : str) (fs : gmap str str) (path content : str) :
  read_text fs path = Some content ->
  analyze language fs path
  = (Violations (analyze_content language content),
     magic_warning (split newline content)).
Proof.
  intros H. unfold analyze, analyze_with, analyze_content.
  rewrite H, run_rules_collected. reflexivity.
Qed.

Lemma analyze_missing (language : str) (fs : gmap str str) (path : str) :
  read_text fs path = None ->
  analyze language fs path = (FileNotFoundError ("File not found: " ++ path), []).
Proof. intros H. unfold analyze, analyze_with. rewrite H. reflexivity. Qed.

Lemma lookup_app_plus {A} (l k : list A) (i : nat) :
  (l ++ k) !! (length l + i) = k !! i.
Proof. rewrite lookup_app_r by lia. f_equal. lia. Qed.

Lemma magic_warning_length (lines : list str) : length (magic_warning lines) <= 1.
Proof. unfold magic_warning. destruct (snd _); simpl; lia. Qed.

(** A violation with a known severity is printed with three calls. *)
Lemma print_violation_known (v : Violation) :
  severity v ∈ ["error" : str; "warning" : str; "info" : str] ->
  exists texts, print_violation v = Some texts /\ length texts = 3.
Proof.
  intros H. unfold print_violation.
  repeat (apply elem_of_cons in H as [H|H]; [rewrite H; eexists; split; reflexivity|]).
  inversion H.
Qed.

Lemma print_violations_known (violations : list Violation) (printed : list str) :
  Forall (fun v => severity v ∈ ["error" : str; "warning" : str; "info" : str])
         violations ->
  exists more,
    print_violations violations printed = (printed ++ more, Returned)
    /\ length more = 3 * length violations.
Proof.
  intros H. revert printed. induction H as [|v vs Hv _ IH]; intros printed.
  - exists []. rewrite app_nil_r. split; reflexivity.
  - cbn [print_violations].
    destruct (print_violation_known v Hv) as (texts & -> & Hlen).
    destruct (IH (printed ++ texts)) as (more & -> & Hmore).
    exists (texts ++ more). rewrite app_assoc. split; [reflexivity|].
    rewrite length_app, Hlen, Hmore. cbn [length]. lia.
Qed.

(** X22. The exit status of the analyzer says whether the file could be
    read, and nothing about what was found.  When the file is missing
    the run prints nothing, writes [Error: File not found: ...] to the
    error stream and exits with status 1.  When the file is there the
    run exits with status 0 and an empty error stream however many
    violations it reports: every severity the detectors use has an icon,
    so the report loop never fails.  The output starts with what
    [analyze] printed: nothing, or the one warning of the magic-number
    rule when [int] has raised in it.  The JSON report follows as one
    text.  The text report follows as the four header lines, the fourth
    giving the number of violations, then one line when there is none
    and three for each otherwise. *)
Theorem main_exit_status (json_dumps : str -> str -> list Violation -> str)
    (args : Namespace) (fs : gmap str str) :
  let r := main json_dumps args fs in
  match read_text fs (args_file args) with
  | None => r = mkRun [] ["Error: File not found: " ++ args_file args] 1
  | Some content =>
      let violations :=
        analyze_content (language_text (args_language args)) content in
      let warnings := magic_warning (split newline content) in
      stderr r = [] /\ status r = 0
      /\ length warnings <= 1
      /\ take (length warnings) (stdout r) = warnings
      /\ match args_output args with
         | Json =>
             stdout r
             = warnings
               ++ [json_dumps (args_file args)
                     (language_text (args_language args)) violations]
         | Text =>
             length (stdout r)
             = length warnings + 4
               + match violations with [] => 1 | _ => 3 * length violations end
             /\ stdout r !! (length warnings + 3)
                = Some ("Total Violations: " ++ str_of_nat (length violations)
                        ++ [newline])
         end
  end.
Proof.
  cbn zeta. unfold main.
  destruct (read_text fs (args_file args)) as [content|] eqn:Hfile.
  - rewrite (analyze_found _ _ _ _ Hfile).
    pose proof (magic_warning_length (split newline content)) as Hw.
    set (warnings := magic_warning (split newline content)) in *.
    pose proof (analyze_content_severity
                  (language_text (args_language args)) content) as Hsev.
    set (violations :=
           analyze_content (language_text (args_language args)) content) in *.
    destruct (args_output args).
    + destruct violations as [|v vs].
      * cbn [stderr status stdout].
        split; [reflexivity|]. split; [reflexivity|]. split; [exact Hw|].
        split; [apply take_app_length|]. split.
        -- rewrite length_app. cbn [length app]. unfold str. lia.
        -- rewrite (lookup_app_plus warnings _ 3). reflexivity.
      * cbv beta iota zeta.
        match goal with
        | |- context [print_violations (v :: vs) ?p] =>
            destruct (print_violations_known (v :: vs) p)
              as (more & -> & Hmore)
        end.
        { apply Forall_forall. intros x Hx. apply Hsev. exact Hx. }
        cbn [stderr status stdout].
        split; [reflexivity|]. split; [reflexivity|]. split; [exact Hw|].
        split; [rewrite <- app_assoc; apply take_app_length|]. split.
        -- rewrite !length_app, Hmore. cbn [length]. unfold str. lia.
        -- rewrite <- app_assoc, (lookup_app_plus warnings _ 3). reflexivity.
    + cbn [stderr status stdout].
      split; [reflexivity|]. split; [reflexivity|]. split; [exact Hw|].
      split; [apply take_app_length | reflexivity].
  - rewrite (analyze_missing _ _ _ Hfile). reflexivity.
Qed.

(* ================================================================== *)
(** ** The constant extractor *)
(* ================================================================== *)

Lemma contains_app_r (p a b : str) :
  contains p b = true -> contains p (a ++ b) = true.
Proof.
  intros H. induction a as [|c a IH]; [exact H|].
  cbn [app contains]. rewrite IH. apply orb_true_r.
Qed.

Lemma contains_prefix (p b : str) : contains p (p ++ b) = true.
Proof.
  destruct (p ++ b) eqn:E; cbn [contains]; rewrite <- E, startswith_app;
    reflexivity.
Qed.

Lemma declaration_names_constant (language num const_name : str) :
  contains const_name (declaration language num const_name) = true.
Proof.
  unfold declaration. destruct (is_python language).
  - apply contains_prefix.
  - apply contains_app_r, contains_prefix.
Qed.

(** The inner loop, started on a buffer in which [decls] has been
    inserted between [pre] and [post]. *)
Lemma extract_fold_shape (language : str) (table : list (str * str))
    (pre decls post : list str) (line : str) :
  exists more,
    fold_left (extract_step language) table
      (pre ++ decls ++ post, length (pre ++ decls), line)
    = (pre ++ (decls ++ more) ++ post, length (pre ++ decls ++ more),
       fold_left (fun l entry => replace (fst entry) (snd entry) l) table line)
    /\ length more <= length table
    /\ (pre ++ decls = [] -> more = [])
    /\ (decls = [] ->
        forall d, head more = Some d ->
        exists entry,
          entry ∈ table
          /\ d = declaration language (fst entry) (snd entry)
          /\ existsb (contains (snd entry)) pre = false).
Proof.
  revert decls line. induction table as [|[num const_name] table IH];
    intros decls line.
  - exists []. rewrite !app_nil_r. cbn [fold_left].
    split; [reflexivity|]. split; [reflexivity|]. split; [reflexivity|].
    intros _ d H. discriminate H.
  - cbn [fold_left extract_step fst snd].
    destruct (contains num line) eqn:Hc.
    + replace (take (length (pre ++ decls)) (pre ++ decls ++ post))
        with (pre ++ decls)
        by (rewrite app_assoc, take_app_length; reflexivity).
      destruct ((0 <? length (pre ++ decls))
                && negb (existsb (contains const_name) (pre ++ decls))) eqn:Hi.
      * apply andb_true_iff in Hi as [Hpos Hnew].
        apply negb_true_iff in Hnew.
        replace (insert_at (length (pre ++ decls))
                   (declaration language num const_name) (pre ++ decls ++ post))
          with (pre ++ (decls ++ [declaration language num const_name]) ++ post).
        2:{ unfold insert_at. rewrite (app_assoc pre decls post).
            rewrite take_app_length, drop_app_length.
            rewrite <- !app_assoc. reflexivity. }
        replace (S (length (pre ++ decls)))
          with (length (pre ++ decls ++ [declaration language num const_name]))
          by (rewrite !length_app; cbn [length]; lia).
        destruct (IH (decls ++ [declaration language num const_name])
                    (replace num const_name line))
          as (more & Hfold & Hlen & _ & _).
        exists (declaration language num const_name :: more).
        rewrite Hfold. rewrite <- !app_assoc. cbn [app].
        split; [reflexivity|]. split; [cbn [length]; lia|]. split.
        -- intros E. rewrite E in Hpos. discriminate Hpos.
        -- intros -> d [= <-]. exists (num, const_name).
           split; [left|]. split; [reflexivity|].
           rewrite app_nil_r in Hnew. exact Hnew.
      * destruct (IH decls (replace num const_name line))
          as (more & Hfold & Hlen & Hzero & Hhead).
        exists more. rewrite Hfold.
        split; [reflexivity|]. split; [cbn [length]; lia|].
        split; [exact Hzero|].
        intros E d Hd. destruct (Hhead E d Hd) as (entry & Hin & Hrest).
        exists entry. split; [right; exact Hin | exact Hrest].
    + rewrite (replace_absent num const_name line Hc).
      destruct (IH decls line) as (more & Hfold & Hlen & Hzero & Hhead).
      exists more. rewrite Hfold.
      split; [reflexivity|]. split; [cbn [length]; lia|].
      split; [exact Hzero|].
      intros E d Hd. destruct (Hhead E d Hd) as (entry & Hin & Hrest).
      exists entry. split; [right; exact Hin | exact Hrest].
Qed.

(** One turn of the outer loop: declarations are put before the line,
    at most one for each key, and the line is assigned back with its
    numbers replaced. *)
Lemma extract_turn_shape (language : str) (buffer : list str) (k : nat)
    (line : str) :
  buffer !! k = Some line ->
  exists decls,
    extract_turn language buffer k line
    = take k buffer ++ decls ++ replace_numbers line :: drop (S k) buffer
    /\ length decls <= length magic_numbers
    /\ (k = 0 -> decls = [])
    /\ (forall d, head decls = Some d ->
        exists entry,
          entry ∈ magic_numbers
          /\ d = declaration language (fst entry) (snd entry)
          /\ existsb (contains (snd entry)) (take k buffer) = false).
Proof.
  intros Hk. assert (Hlt : k < length buffer) by (apply lookup_lt_Some in Hk; exact Hk).
  destruct (extract_fold_shape language magic_numbers (take k buffer) []
              (drop k buffer) line) as (more & Hfold & Hlen & Hzero & Hhead).
  unfold extract_turn.
  replace (buffer, k, line)
    with (take k buffer ++ [] ++ drop k buffer, length (take k buffer ++ []), line).
  2:{ cbn [app]. rewrite take_drop, app_nil_r, length_take. f_equal. f_equal. lia. }
  rewrite Hfold. cbn [app].
  exists more. split; [|split; [exact Hlen|split]].
  - rewrite (drop_S buffer line k Hk).
    rewrite (app_assoc (take k buffer) more).
    replace (length (take k buffer ++ more))
      with (length (take k buffer ++ more) + 0) by lia.
    rewrite insert_app_r. cbn. rewrite <- app_assoc. reflexivity.
  - intros ->. apply Hzero. reflexivity.
  - intros d Hd. exact (Hhead eq_refl d Hd).
Qed.

Lemma filter_length_le {A : Type} (P Q : A -> Prop)
    `{!forall x, Decision (P x)} `{!forall x, Decision (Q x)} (l : list A) :
  (forall x, P x -> Q x) ->
  length (filter P l) <= length (filter Q l).
Proof.
  intros Himp. induction l as [|x l IH]; [reflexivity|].
  rewrite !filter_cons. destruct (decide (P x)) as [Hp|Hp].
  - rewrite decide_True by (apply Himp, Hp). cbn [length]. lia.
  - destruct (decide (Q x)); cbn [length]; lia.
Qed.

Lemma filter_length_lt {A : Type} (P Q : A -> Prop)
    `{!forall x, Decision (P x)} `{!forall x, Decision (Q x)} (l : list A)
    (e : A) :
  (forall x, P x -> Q x) -> e ∈ l -> Q e -> ~ P e ->
  length (filter P l) < length (filter Q l).
Proof.
  intros Himp Hin Hq Hp. induction l as [|x l IH]; [inversion Hin|].
  rewrite !filter_cons. apply elem_of_cons in Hin as [<-|Hin].
  - rewrite decide_False by exact Hp. rewrite decide_True by exact Hq.
    cbn [length]. pose proof (filter_length_le P Q l Himp). lia.
  - specialize (IH Hin). destruct (decide (P x)) as [Hpx|Hpx].
    + rewrite decide_True by (apply Himp, Hpx). cbn [length]. lia.
    + destruct (decide (Q x)); cbn [length]; lia.
Qed.

Lemma existsb_app_false {A : Type} (f : A -> bool) (l1 l2 : list A) :
  existsb f (l1 ++ l2) = false -> existsb f l1 = false.
Proof.
  rewrite existsb_app. intros H. apply orb_false_iff in H as [H _]. exact H.
Qed.

(** A turn declares no constant anew that was declared before, and one
    more when it inserts a line. *)
Lemma undeclared_after_turn (language : str) (buffer : list str) (k : nat)
    (line : str) (decls : list str) :
  k < length buffer ->
  (forall d, head decls = Some d ->
     exists entry,
       entry ∈ magic_numbers
       /\ d = declaration language (fst entry) (snd entry)
       /\ existsb (contains (snd entry)) (take k buffer) = false) ->
  let buffer' := take k buffer ++ decls ++ line :: drop (S k) buffer in
  length (undeclared (S k) buffer') <= length (undeclared k buffer)
  /\ (decls <> [] ->
      length (undeclared (S k) buffer') < length (undeclared k buffer)).
Proof.
  intros Hk Hhead. cbn zeta.
  assert (Htake : exists x, take (S k) (take k buffer ++ decls ++ line :: drop (S k) buffer)
                            = take k buffer ++ [x]
                            /\ head (decls ++ [line]) = Some x).
  { destruct decls as [|d decls]; eexists; (split; [|reflexivity]);
      cbn [app]; rewrite take_app_ge by (rewrite length_take; lia);
      rewrite length_take; replace (S k - k `min` length buffer) with 1 by lia;
      reflexivity. }
  destruct Htake as (x & Htake & Hx).
  unfold undeclared. rewrite Htake.
  assert (Himp : forall entry : str * str,
            existsb (contains (snd entry)) (take k buffer ++ [x]) = false ->
            existsb (contains (snd entry)) (take k buffer) = false).
  { intros entry. apply existsb_app_false. }
  split; [apply filter_length_le, Himp|].
  intros Hne. destruct decls as [|d decls]; [congruence|].
  cbn [app head] in Hx. injection Hx as <-.
  destruct (Hhead d eq_refl) as (entry & Hin & Hd & Hnew).
  apply (filter_length_lt _ _ _ entry Himp Hin Hnew).
  rewrite existsb_app. cbn [existsb]. rewrite Hd, declaration_names_constant.
  rewrite orb_true_r. discriminate.
Qed.

(** The outer loop comes to its end within the turns counted by the
    lines left and the constants still to declare; it never removes a
    line, adds at most five for each of these constants, and leaves the
    lines before the iterator as they are. *)
Lemma extract_loop_ends (language : str) (fuel k : nat) (buffer : list str) :
  (length buffer - k) + 5 * length (undeclared k buffer) <= fuel ->
  exists out,
    extract_loop language fuel k buffer = Some out
    /\ length buffer <= length out
    /\ length out <= length buffer + 5 * length (undeclared k buffer)
    /\ take k out = take k buffer.
Proof.
  revert k buffer. induction fuel as [|fuel IH]; intros k buffer Hfuel.
  - assert (Hnone : buffer !! k = None) by (apply lookup_ge_None_2; lia).
    exists buffer. destruct buffer; cbn [extract_loop]; rewrite ?Hnone;
      (split; [reflexivity|]); (split; [lia|]); (split; [lia|]); reflexivity.
  - destruct (buffer !! k) as [line|] eqn:Hk.
    + assert (Hlt : k < length buffer) by (apply lookup_lt_Some in Hk; exact Hk).
      destruct (extract_turn_shape language buffer k line Hk)
        as (decls & Hturn & Hlen & _ & Hhead).
      change (length magic_numbers) with 5 in Hlen.
      destruct (undeclared_after_turn language buffer k (replace_numbers line)
                  decls Hlt Hhead) as [Hle Hstrict].
      cbn zeta in Hle, Hstrict. rewrite <- Hturn in Hle, Hstrict.
      assert (Hlen' : length (extract_turn language buffer k line)
                      = length buffer + length decls).
      { rewrite Hturn, !length_app, length_take. cbn [length].
        rewrite length_drop. lia. }
      assert (Hpot : length (extract_turn language buffer k line) - S k
                     + 5 * length (undeclared (S k) (extract_turn language buffer k line))
                     <= fuel
                     /\ length decls
                        + 5 * length (undeclared (S k) (extract_turn language buffer k line))
                        <= 5 * length (undeclared k buffer)).
      { destruct decls as [|d decls].
        - cbn [length] in *. lia.
        - assert (Hs := Hstrict ltac:(discriminate)). lia. }
      destruct Hpot as [Hpot Hadd].
      destruct (IH (S k) (extract_turn language buffer k line) Hpot)
        as (out & Hout & Hlo & Hhi & Hpre).
      exists out. cbn [extract_loop]. rewrite Hk.
      split; [exact Hout|]. split; [lia|]. split; [lia|].
      assert (Hcut : forall l : list str, take k l = take k (take (S k) l)).
      { intros l. rewrite take_take. f_equal. lia. }
      rewrite (Hcut out), Hpre, <- Hcut, Hturn.
      rewrite take_app_le by (rewrite length_take; lia).
      rewrite take_take. f_equal. lia.
    + exists buffer. cbn [extract_loop]. rewrite Hk.
      split; [reflexivity|]. split; [lia|]. split; [lia|]. reflexivity.
Qed.

(** *** Replacing a run of digits by a name *)

Section ReplaceDigits.

Variables old new : str.
Hypothesis new_named : exists n rest, new = n :: rest /\ isdigit n = false.

Lemma startswith_digits_new (p rest : str) (d : ascii) :
  isdigit d = true -> startswith (d :: p) (new ++ rest) = false.
Proof.
  intros Hd. destruct new_named as (n & tl & -> & Hn). cbn [app startswith].
  assert (E : char_eqb d n = false) by (apply char_eqb_neq; intros ->; congruence).
  rewrite E. reflexivity.
Qed.

Hypothesis new_letters : forallb (fun c => negb (isdigit c)) new = true.

Lemma contains_digits_after (p rest : str) (d : ascii) (letters : str) :
  isdigit d = true ->
  forallb (fun c => negb (isdigit c)) letters = true ->
  contains (d :: p) (letters ++ rest) = contains (d :: p) rest.
Proof.
  intros Hd. induction letters as [|n letters IH]; [reflexivity|].
  cbn [forallb]. intros H. apply andb_true_iff in H as [Hn H].
  apply negb_true_iff in Hn.
  cbn [app contains startswith].
  assert (E : char_eqb d n = false) by (apply char_eqb_neq; intros ->; congruence).
  rewrite E. cbn [andb orb]. apply IH, H.
Qed.

(** [replace_from] at a position where the pattern begins, and where it
    does not. *)
Lemma replace_at_match (rest : str) :
  old <> [] ->
  replace_from old new (old ++ rest) 0 = new ++ replace_from old new rest 0.
Proof.
  intros Hne. destruct old as [|c tl] eqn:E; [congruence|].
  cbn [app replace_from]. rewrite <- E.
  pose proof (startswith_app old (rest)) as Hs. rewrite E in Hs at 2.
  cbn [app] in Hs. rewrite Hs. f_equal. rewrite E. cbn [length].
  rewrite Nat.sub_1_r. cbn [Nat.pred]. apply replace_from_skip.
Qed.

Lemma replace_at_other (c : ascii) (s : str) :
  startswith old (c :: s) = false ->
  replace_from old new (c :: s) 0 = c :: replace_from old new s 0.
Proof. intros H. cbn [replace_from]. rewrite H. reflexivity. Qed.

Lemma replace_cases (s : str) :
  old <> [] ->
  s = []
  \/ (exists rest,
        s = old ++ rest /\ length rest < length s
        /\ replace_from old new s 0 = new ++ replace_from old new rest 0)
  \/ (exists c s',
        s = c :: s' /\ startswith old s = false
        /\ replace_from old new s 0 = c :: replace_from old new s' 0).
Proof.
  intros Hne. destruct s as [|c s]; [left; reflexivity|]. right.
  destruct (startswith old (c :: s)) eqn:E.
  - left. apply startswith_spec in E as [rest E]. exists rest.
    split; [exact E|]. rewrite E. split.
    + rewrite length_app. destruct old; [congruence|]. cbn [length]. lia.
    + apply replace_at_match, Hne.
  - right. exists c, s. split; [reflexivity|]. split; [reflexivity|].
    apply replace_at_other, E.
Qed.

Hypothesis old_digits : forallb isdigit old = true.
Hypothesis old_nonempty : old <> [].

Lemma old_shape :
  exists d p, old = d :: p /\ isdigit d = true /\ forallb isdigit p = true.
Proof.
  pose proof old_digits as Hd. pose proof old_nonempty as Hne.
  destruct old as [|d p]; [congruence|].
  cbn [forallb] in Hd. apply andb_true_iff in Hd as [H1 H2]. eauto.
Qed.

(** The digits the result begins with are digits of the text. *)
Lemma startswith_replace (s q : str) :
  forallb isdigit q = true ->
  startswith q (replace_from old new s 0) = true -> startswith q s = true.
Proof.
  revert q. induction s as [|c s IH]; intros q Hq H; [exact H|].
  destruct q as [|d q]; [reflexivity|].
  cbn [forallb] in Hq. apply andb_true_iff in Hq as [Hd Hq].
  destruct (replace_cases (c :: s) old_nonempty)
    as [E | [(rest & E & _ & R) | (c' & s' & E & _ & R)]].
  - discriminate E.
  - rewrite R, startswith_digits_new in H by exact Hd. discriminate H.
  - injection E as <- <-. rewrite R in H. cbn [startswith] in *.
    apply andb_true_iff in H as [H1 H2]. rewrite H1. exact (IH q Hq H2).
Qed.

Lemma contains_nil (p : str) : p <> [] -> contains p [] = false.
Proof. destruct p; [congruence | reflexivity]. Qed.

(** The replacement makes no new run of digits. *)
Lemma contains_replace (n : nat) (s p : str) (d : ascii) :
  length s <= n ->
  forallb isdigit (d :: p) = true ->
  contains (d :: p) (replace_from old new s 0) = true ->
  contains (d :: p) s = true.
Proof.
  revert s. induction n as [|n IH]; intros s Hlen Hp H.
  - destruct s; [exact H | cbn [length] in Hlen; lia].
  - pose proof Hp as Hp'. cbn [forallb] in Hp'.
    apply andb_true_iff in Hp' as [Hd Hq].
    destruct (replace_cases s old_nonempty)
      as [-> | [(rest & -> & Hl & R) | (c & s' & -> & _ & R)]].
    + exact H.
    + rewrite R, (contains_digits_after p _ d new Hd new_letters) in H.
      apply contains_app_r, (IH rest); [lia | exact Hp | exact H].
    + rewrite R in H. cbn [contains] in H. cbn [contains].
      apply orb_true_iff in H as [H|H]; apply orb_true_iff.
      * left. cbn [startswith] in *. apply andb_true_iff in H as [H1 H2].
        rewrite H1. exact (startswith_replace s' p Hq H2).
      * right. apply (IH s'); [cbn [length] in Hlen; lia | exact Hp | exact H].
Qed.

(** The replacement leaves no occurrence of the pattern. *)
Lemma replace_removes (n : nat) (s : str) :
  length s <= n -> contains old (replace_from old new s 0) = false.
Proof.
  revert s. induction n as [|n IH]; intros s Hlen.
  - destruct s; [apply contains_nil, old_nonempty | cbn [length] in Hlen; lia].
  - destruct (replace_cases s old_nonempty)
      as [-> | [(rest & -> & Hl & R) | (c & s' & -> & Hs & R)]].
    + apply contains_nil, old_nonempty.
    + rewrite R. destruct old_shape as (d & p & Eo & Hd & _).
      rewrite Eo at 1.
      rewrite (contains_digits_after p _ d new Hd new_letters).
      rewrite <- Eo. apply IH. lia.
    + rewrite R. cbn [contains].
      rewrite (IH s') by (cbn [length] in Hlen; lia). rewrite orb_false_r.
      destruct (startswith old (c :: replace_from old new s' 0)) eqn:E;
        [|reflexivity].
      destruct old_shape as (d & p & Eo & _ & Hq).
      rewrite Eo in E at 1. rewrite Eo in Hs.
      cbn [startswith] in E, Hs. apply andb_true_iff in E as [E1 E2].
      rewrite E1 in Hs. cbn [andb] in Hs.
      rewrite (startswith_replace s' p Hq E2) in Hs. discriminate Hs.
Qed.

End ReplaceDigits.

Lemma digits_to_name_facts (entry : str * str) :
  digits_to_name entry = true ->
  (exists n rest, snd entry = n :: rest /\ isdigit n = false)
  /\ forallb (fun c => negb (isdigit c)) (snd entry) = true
  /\ forallb isdigit (fst entry) = true
  /\ fst entry <> [].
Proof.
  unfold digits_to_name. intros H.
  apply andb_true_iff in H as [H H4]. apply andb_true_iff in H as [H H3].
  apply andb_true_iff in H as [H1 H2].
  split; [|split; [exact H3|split; [exact H1|]]].
  - destruct (snd entry) as [|n rest]; [discriminate H4|].
    exists n, rest. split; [reflexivity|].
    cbn [forallb] in H3. apply andb_true_iff in H3 as [H3 _].
    apply negb_true_iff in H3. exact H3.
  - intros E. rewrite E in H2. discriminate H2.
Qed.

Lemma magic_numbers_digits_to_name :
  Forall (fun entry => digits_to_name entry = true) magic_numbers.
Proof. repeat constructor. Qed.

Lemma fold_replace_keeps_absent (table : list (str * str)) (p line : str) :
  Forall (fun entry => digits_to_name entry = true) table ->
  p <> [] -> forallb isdigit p = true ->
  contains p line = false ->
  contains p (fold_left (fun l entry => replace (fst entry) (snd entry) l)
                table line) = false.
Proof.
  intros Htable Hne Hp. revert line.
  induction Htable as [|entry t Hentry _ IH]; intros line H; [exact H|].
  cbn [fold_left]. apply IH.
  destruct (digits_to_name_facts entry Hentry) as (H1 & H2 & H3 & H4).
  destruct p as [|d p]; [congruence|].
  destruct (contains (d :: p) (replace (fst entry) (snd entry) line)) eqn:E;
    [|reflexivity].
  unfold replace in E.
  rewrite (contains_replace (fst entry) (snd entry) H1 H2 H4 (length line)
             line p d (le_n _) Hp E) in H.
  discriminate H.
Qed.

Lemma fold_replace_removes (table : list (str * str)) (entry : str * str)
    (line : str) :
  Forall (fun entry => digits_to_name entry = true) table ->
  entry ∈ table ->
  contains (fst entry)
    (fold_left (fun l entry => replace (fst entry) (snd entry) l) table line)
  = false.
Proof.
  intros Htable. revert line.
  induction Htable as [|e t He Ht IH]; intros line Hin; [inversion Hin|].
  cbn [fold_left].
  apply elem_of_cons in Hin as [->|Hin]; [|apply IH, Hin].
  destruct (digits_to_name_facts e He) as (H1 & H2 & H3 & H4).
  apply fold_replace_keeps_absent; [exact Ht | exact H4 | exact H3 |].
  apply (replace_removes (fst e) (snd e) H1 H2 H3 H4 (length line)), le_n.
Qed.

Lemma fold_replace_absent (table : list (str * str)) (line : str) :
  (forall entry, entry ∈ table -> contains (fst entry) line = false) ->
  fold_left (fun l entry => replace (fst entry) (snd entry) l) table line = line.
Proof.
  induction table as [|e t IH]; intros H; [reflexivity|].
  cbn [fold_left]. rewrite replace_absent by (apply H; left).
  apply IH. intros entry Hin. apply H. right. exact Hin.
Qed.

(** No key of the dictionary is left in a line that went through the
    inner loop. *)
Lemma replace_numbers_clean (line : str) :
  no_magic_number (replace_numbers line) = true.
Proof.
  unfold no_magic_number. apply forallb_forall. intros entry Hin.
  apply negb_true_iff. apply fold_replace_removes;
    [exact magic_numbers_digits_to_name | apply list_elem_of_In; exact Hin].
Qed.

Lemma replace_numbers_fixed (line : str) :
  no_magic_number line = true -> replace_numbers line = line.
Proof.
  unfold no_magic_number. intros H. apply fold_replace_absent.
  intros entry Hin. apply list_elem_of_In in Hin.
  rewrite forallb_forall in H. apply negb_true_iff, H, Hin.
Qed.

Lemma replace_numbers_idempotent (line : str) :
  replace_numbers (replace_numbers line) = replace_numbers line.
Proof. apply replace_numbers_fixed, replace_numbers_clean. Qed.

(** The loop leaves what lies before the iterator as it is. *)
Lemma extract_loop_prefix (language : str) (fuel k : nat) (buffer out : list str) :
  extract_loop language fuel k buffer = Some out ->
  take k out = take k buffer /\ length buffer <= length out.
Proof.
  revert k buffer. induction fuel as [|fuel IH]; intros k buffer H.
  - destruct buffer as [|l buffer]; cbn [extract_loop] in H.
    + injection H as <-. split; reflexivity.
    + destruct ((l :: buffer) !! k); [discriminate H|].
      injection H as <-. split; reflexivity.
  - cbn [extract_loop] in H. destruct (buffer !! k) as [line|] eqn:Hk.
    + assert (Hlt : k < length buffer) by (apply lookup_lt_Some in Hk; exact Hk).
      destruct (extract_turn_shape language buffer k line Hk)
        as (decls & Hturn & _).
      destruct (IH _ _ H) as [Hpre Hlen].
      assert (Hcut : forall l : list str, take k l = take k (take (S k) l)).
      { intros l. rewrite take_take. f_equal. lia. }
      split.
      * rewrite (Hcut out), Hpre, <- Hcut, Hturn.
        rewrite take_app_le by (rewrite length_take; lia).
        rewrite take_take. f_equal. lia.
      * rewrite Hturn in Hlen. rewrite !length_app, length_take in Hlen.
        cbn [length] in Hlen. rewrite length_drop in Hlen. lia.
    + injection H as <-. split; reflexivity.
Qed.

(** Every line the iterator has still to yield is in the result, with
    its numbers replaced, and in the same order. *)
Lemma extract_loop_sublist (language : str) (fuel k : nat)
    (buffer out : list str) :
  extract_loop language fuel k buffer = Some out ->
  sublist (map replace_numbers (drop k buffer)) (drop k out).
Proof.
  revert k buffer. induction fuel as [|fuel IH]; intros k buffer H.
  - destruct (buffer !! k) as [line|] eqn:Hk.
    + destruct buffer; cbn [extract_loop] in H; rewrite Hk in H; discriminate H.
    + rewrite drop_ge by (apply lookup_ge_None_1, Hk). apply sublist_nil_l.
  - destruct (buffer !! k) as [line|] eqn:Hk.
    2:{ rewrite drop_ge by (apply lookup_ge_None_1, Hk). apply sublist_nil_l. }
    cbn [extract_loop] in H. rewrite Hk in H.
    assert (Hlt : k < length buffer) by (apply lookup_lt_Some in Hk; exact Hk).
    destruct (extract_turn_shape language buffer k line Hk)
      as (decls & Hturn & _).
    pose proof (IH _ _ H) as Hsub.
    destruct (extract_loop_prefix _ _ _ _ _ H) as [Hpre Hlen].
    rewrite Hturn in Hsub, Hpre, Hlen.
    assert (Hdrop : drop (S k) (take k buffer ++ decls
                                ++ replace_numbers line :: drop (S k) buffer)
                    = drop 1 (decls ++ replace_numbers line :: drop (S k) buffer)).
    { rewrite drop_app_ge by (rewrite length_take; lia).
      rewrite length_take. f_equal. lia. }
    assert (Htake : take (S k) (take k buffer ++ decls
                                ++ replace_numbers line :: drop (S k) buffer)
                    = take k buffer
                      ++ take 1 (decls ++ replace_numbers line :: drop (S k) buffer)).
    { rewrite take_app_ge by (rewrite length_take; lia).
      rewrite length_take. do 2 f_equal. lia. }
    rewrite Hdrop in Hsub. rewrite Htake in Hpre.
    rewrite (drop_S buffer line k Hk). cbn [map].
    assert (Hk' : exists x, out !! k = Some x).
    { apply lookup_lt_is_Some_2.
      rewrite !length_app, length_take in Hlen. cbn [length] in Hlen.
      rewrite length_drop in Hlen. lia. }
    destruct Hk' as [x Hx]. rewrite (drop_S out x k Hx).
    destruct decls as [|d decls].
    + cbn [app take drop] in Hpre, Hsub.
      assert (x = replace_numbers line) as ->.
      { apply (f_equal (fun l => l !! k)) in Hpre.
        rewrite lookup_take_lt in Hpre by lia.
        rewrite lookup_app_r in Hpre by (rewrite length_take; lia).
        rewrite length_take in Hpre.
        replace (k - k `min` length buffer) with 0 in Hpre by lia.
        change (out !! k = Some (replace_numbers line)) in Hpre. congruence. }
      apply sublist_skip. exact Hsub.
    + cbn [app drop] in Hsub. rewrite drop_0 in Hsub. apply sublist_cons.
      etransitivity; [|exact Hsub].
      rewrite map_app. cbn [map]. rewrite replace_numbers_idempotent.
      apply sublist_inserts_l. reflexivity.
Qed.

(** The loop leaves a buffer without numbers as it is. *)
Lemma extract_loop_clean (language : str) (fuel k : nat) (buffer out : list str) :
  Forall (fun line => no_magic_number line = true) buffer ->
  extract_loop language fuel k buffer = Some out -> out = buffer.
Proof.
  intros Hclean. revert k. induction fuel as [|fuel IH]; intros k H.
  - destruct buffer as [|l buffer]; cbn [extract_loop] in H.
    + injection H as <-. reflexivity.
    + destruct ((l :: buffer) !! k); [discriminate H|].
      injection H as <-. reflexivity.
  - cbn [extract_loop] in H. destruct (buffer !! k) as [line|] eqn:Hk.
    + assert (Hline : no_magic_number line = true).
      { rewrite Forall_forall in Hclean. apply Hclean.
        apply list_elem_of_lookup. exists k. exact Hk. }
      assert (Hturn : extract_turn language buffer k line = buffer).
      { unfold extract_turn.
        assert (Hfold : forall table,
                  (forall entry, entry ∈ table ->
                     contains (fst entry) line = false) ->
                  fold_left (extract_step language) table (buffer, k, line)
                  = (buffer, k, line)).
        { induction table as [|[num const_name] table IHt]; intros Ht;
            [reflexivity|].
          cbn [fold_left extract_step].
          pose proof (Ht (num, const_name) ltac:(left)) as E.
          cbn [fst] in E. rewrite E.
          apply IHt. intros entry Hin. apply Ht. right. exact Hin. }
        rewrite Hfold.
        - apply list_insert_id, Hk.
        - intros entry Hin. unfold no_magic_number in Hline.
          rewrite forallb_forall in Hline.
          apply negb_true_iff, Hline, list_elem_of_In, Hin. }
      rewrite Hturn in H. exact (IH _ H).
    + injection H as <-. reflexivity.
Qed.

(** X23. [_extract_constants] comes to an end on every buffer, although
    it inserts into the list it runs over.  It removes no line and adds
    at most 25.  Every line of the input is in the result, in the same
    order, with each [1000], [100], [50], [10] and [5] replaced, in that
    order, by the name of its constant, and none of these numbers is
    left in such a line.  The first line stays the first line: no
    declaration is ever put before it.  A buffer in which no line holds
    one of the numbers is left as it is. *)
Theorem extract_constants_keeps_lines (language : str) (buffer : list str) :
  exists out,
    extract_constants_lines language buffer = Some out
    /\ length buffer <= length out
    /\ length out <= length buffer + 25
    /\ sublist (map replace_numbers buffer) out
    /\ Forall (fun line => no_magic_number line = true)
         (map replace_numbers buffer)
    /\ (forall line, buffer !! 0 = Some line ->
          out !! 0 = Some (replace_numbers line))
    /\ (Forall (fun line => no_magic_number line = true) buffer -> out = buffer).
Proof.
  unfold extract_constants_lines.
  destruct (extract_loop_ends language (length buffer + 5 * length magic_numbers)
              0 buffer) as (out & Hout & Hlo & Hhi & _).
  { change (undeclared 0 buffer) with magic_numbers. lia. }
  change (undeclared 0 buffer) with magic_numbers in Hhi.
  exists out. split; [exact Hout|]. split; [exact Hlo|]. split; [exact Hhi|].
  split; [|split; [|split]].
  - exact (extract_loop_sublist _ _ _ _ _ Hout).
  - apply Forall_forall. intros l Hl.
    apply list_elem_of_fmap in Hl as (line & -> & _).
    apply replace_numbers_clean.
  - intros line H0.
    destruct buffer as [|first rest]; [discriminate H0|].
    injection H0 as ->.
    cbn [length Nat.add extract_loop lookup list_lookup] in Hout.
    destruct (extract_turn_shape language (line :: rest) 0 line eq_refl)
      as (decls & Hturn & _ & Hzero & _).
    rewrite (Hzero eq_refl) in Hturn. cbn [take drop app] in Hturn.
    rewrite Hturn in Hout.
    destruct (extract_loop_prefix _ _ _ _ _ Hout) as [Hpre _].
    apply (f_equal (fun l => l !! 0)) in Hpre.
    rewrite lookup_take_lt in Hpre by lia. exact Hpre.
  - intros Hclean. exact (extract_loop_clean _ _ _ _ _ Hclean Hout).
Qed.

(* ================================================================== *)
(** ** The naming transformer *)
(* ================================================================== *)

Lemma reads_refl (st : mstate) : reads st st [] [].
Proof. repeat split. Qed.

Lemma reads_trans (st st1 st2 : mstate) (t1 t2 : str) (g1 g2 : list (nat * str)) :
  reads st st1 t1 g1 -> reads st1 st2 t2 g2 ->
  reads st st2 (t1 ++ t2) (g2 ++ g1).
Proof.
  intros (R1 & T1 & G1) (R2 & T2 & G2). unfold reads.
  rewrite R1, R2, T2, T1, G2, G1, rev_app_distr, <- !app_assoc. auto.
Qed.

Lemma reads_advance (c : ascii) (rest : str) (st : mstate) :
  ms_rest st = c :: rest -> reads st (advance c rest st) [c] [].
Proof. intros H. unfold reads, advance. cbn. auto. Qed.

Lemma match_lit_reads (s : str) (st st' : mstate) :
  match_lit s st = Some st' -> reads st st' s [].
Proof.
  revert st. induction s as [|x s IH]; intros st H.
  - injection H as <-. apply reads_refl.
  - cbn [match_lit] in H. destruct (ms_rest st) as [|c rest] eqn:E; [discriminate|].
    destruct (char_eqb x c) eqn:Ex; [|discriminate].
    apply char_eqb_eq in Ex as ->.
    apply (reads_trans st (advance c rest st) st' [c] s [] []); [apply reads_advance, E | apply IH, H].
Qed.

Lemma match_star_reads (p : ascii -> bool) (rest : str) (st : mstate)
    (k : mstate -> option mstate) (res : mstate) :
  ms_rest st = rest ->
  match_star p rest st k = Some res ->
  exists text st',
    Forall (fun c => p c = true) text /\ reads st st' text [] /\ k st' = Some res.
Proof.
  revert st. induction rest as [|c rest IH]; intros st Hrest H.
  - exists [], st. split; [constructor|]. split; [apply reads_refl | exact H].
  - cbn [match_star] in H. destruct (p c) eqn:Hp.
    + destruct (match_star p rest (advance c rest st) k) as [r|] eqn:E.
      * injection H as <-.
        destruct (IH (advance c rest st) eq_refl E) as (text & st' & Hall & Hr & Hk).
        exists (c :: text), st'. split; [constructor; assumption|].
        split; [|exact Hk].
        apply (reads_trans st (advance c rest st) st' [c] text [] []);
          [apply reads_advance, Hrest | exact Hr].
      * exists [], st. split; [constructor|]. split; [apply reads_refl | exact H].
    + exists [], st. split; [constructor|]. split; [apply reads_refl | exact H].
Qed.

(** What the matcher accepts, the pattern can match. *)
Lemma rmatch_reads (r : regex) (st : mstate) (k : mstate -> option mstate)
    (res : mstate) :
  rmatch r st k = Some res ->
  exists text groups st',
    matches r text groups /\ reads st st' text groups /\ k st' = Some res.
Proof.
  revert st k res.
  induction r as [|s|p|p|p|r1 IH1 r2 IH2|r1 IH1 r2 IH2|n r IH];
    intros st k res H; cbn [rmatch] in H.
  - destruct (at_boundary st); [|discriminate].
    exists [], [], st. split; [split; reflexivity|].
    split; [apply reads_refl | exact H].
  - destruct (match_lit s st) as [st'|] eqn:E; [|discriminate].
    exists s, [], st'. split; [split; reflexivity|].
    split; [apply match_lit_reads, E | exact H].
  - destruct (ms_rest st) as [|c rest] eqn:E; [discriminate|].
    destruct (p c) eqn:Hp; [|discriminate].
    exists [c], [], (advance c rest st).
    split; [split; [exists c; auto | reflexivity]|].
    split; [apply reads_advance, E | exact H].
  - destruct (match_star_reads p (ms_rest st) st k res eq_refl H)
      as (text & st' & Hall & Hr & Hk).
    exists text, [], st'. split; [split; [exact Hall | reflexivity]|]. auto.
  - destruct (ms_rest st) as [|c rest] eqn:E; [discriminate|].
    destruct (p c) eqn:Hp; [|discriminate].
    destruct (match_star_reads p rest (advance c rest st) k res eq_refl H)
      as (text & st' & Hall & Hr & Hk).
    exists (c :: text), [], st'.
    split; [split; [discriminate | split; [constructor; assumption | reflexivity]]|].
    split; [|exact Hk].
    apply (reads_trans st (advance c rest st) st' [c] text [] []); [apply reads_advance, E | exact Hr].
  - destruct (rmatch r1 st k) as [r|] eqn:E.
    + injection H as <-. destruct (IH1 _ _ _ E) as (text & groups & st' & Hm & Hr & Hk).
      exists text, groups, st'. split; [left; exact Hm | auto].
    + destruct (IH2 _ _ _ H) as (text & groups & st' & Hm & Hr & Hk).
      exists text, groups, st'. split; [right; exact Hm | auto].
  - destruct (IH1 _ _ _ H) as (t1 & g1 & st1 & Hm1 & Hr1 & Hk1).
    destruct (IH2 _ _ _ Hk1) as (t2 & g2 & st2 & Hm2 & Hr2 & Hk2).
    exists (t1 ++ t2), (g2 ++ g1), st2.
    split; [exists t1, g1, t2, g2; auto|].
    split; [exact (reads_trans _ _ _ _ _ _ _ Hr1 Hr2) | exact Hk2].
  - destruct (IH _ _ _ H) as (text & g & st1 & Hm & Hr & Hk).
    destruct Hr as (R & T & G).
    eexists text, ((n, text) :: g), _. split; [exists g; auto|].
    split; [|exact Hk]. unfold reads. cbn [ms_rest ms_taken ms_groups].
    split; [exact R|]. split; [exact T|]. rewrite G, T.
    rewrite length_app, length_rev.
    replace (length text + length (ms_taken st) - length (ms_taken st))
      with (length (rev text)) by (rewrite length_rev; lia).
    rewrite take_app_length, rev_involutive. reflexivity.
Qed.

(** A match found at a position is a prefix of the text there. *)
Lemma match_here_matches (r : regex) (prev : option ascii) (s : str)
    (m : re_match) :
  match_here r prev s = Some m ->
  matches r (m_text m) (m_groups m) /\ exists rest, s = m_text m ++ rest.
Proof.
  unfold match_here. intros H.
  destruct (rmatch r (MState prev s [] []) Some) as [st|] eqn:E; [|discriminate].
  injection H as <-.
  destruct (rmatch_reads _ _ _ _ E) as (text & groups & st' & Hm & (R & T & G) & Hk).
  injection Hk as ->. cbn [ms_rest ms_taken ms_groups] in R, T, G.
  cbn [m_text m_groups]. rewrite T, G, !app_nil_r, rev_involutive.
  split; [exact Hm|]. exists (ms_rest st). exact R.
Qed.

(** *** The text of a line under changes of case, underscores and white
    space *)

Lemma plain_app (a b : str) : plain (a ++ b) = plain a ++ plain b.
Proof.
  unfold plain, lower. rewrite map_app.
  exact (filter_app _ (map lower_char a) (map lower_char b)).
Qed.

Lemma plain_cons (c : ascii) (s : str) : plain (c :: s) = plain [c] ++ plain s.
Proof. exact (plain_app [c] s). Qed.

Lemma plain_char_facts (c : ascii) :
  plain [lower_char c] = plain [c]
  /\ (isspace c = true -> plain [c] = [])
  /\ (isupper c = true -> plain [c] = [lower_char c]).
Proof.
  each_char c; vm_compute; repeat split; intros; try reflexivity; discriminate.
Qed.

(** The title-case form of a character of [a-zA-Z0-9_] is one
    character, which differs from it in case only. *)
Lemma title_ident_char (c : ascii) :
  ident_char c = true ->
  from_option (fun t => str_eqb (plain t) (plain [c])) false (title_char c) = true.
Proof. each_char c; vm_compute; intros H; first [reflexivity | discriminate H]. Qed.

Lemma title_ident (c : ascii) :
  ident_char c = true -> exists t, title_char c = Some t /\ plain t = plain [c].
Proof.
  intros H. apply title_ident_char in H.
  destruct (title_char c) as [t|]; [|discriminate H].
  exists t. split; [reflexivity | apply str_eqb_eq, H].
Qed.

Lemma lower_ident (c : ascii) : is_ascii_lower c = true -> ident_char c = true.
Proof. unfold ident_char. intros ->. reflexivity. Qed.

Lemma upper_ident (c : ascii) : is_ascii_upper c = true -> ident_char c = true.
Proof. unfold ident_char. intros ->. rewrite orb_true_r. reflexivity. Qed.

Lemma plain_underscore : plain "_" = [].
Proof. reflexivity. Qed.

Lemma plain_spaces (ws : str) :
  Forall (fun c => isspace c = true) ws -> plain ws = [].
Proof.
  induction 1 as [|c ws Hc _ IH]; [reflexivity|].
  rewrite plain_cons, IH. rewrite (proj1 (proj2 (plain_char_facts c)) Hc).
  reflexivity.
Qed.

Lemma plain_lower (s : str) : plain (lower s) = plain s.
Proof.
  induction s as [|c s IH]; [reflexivity|].
  change (lower (c :: s)) with (lower_char c :: lower s).
  rewrite (plain_cons (lower_char c)), (plain_cons c), IH.
  rewrite (proj1 (plain_char_facts c)). reflexivity.
Qed.

(** Names of [a-zA-Z0-9_], as the patterns of the transformer match
    them, have their capitalized form in the range. *)
Lemma capitalize_ident (part : str) :
  Forall (fun c => ident_char c = true) part ->
  exists word, capitalize part = Some word /\ plain word = plain part.
Proof.
  intros H. destruct H as [|c part Hc _]; [exists []; split; reflexivity|].
  cbn [capitalize]. destruct (title_ident c Hc) as (t & -> & Ht).
  exists (t ++ lower part). split; [reflexivity|].
  rewrite plain_app, Ht, plain_lower, (plain_cons c part). reflexivity.
Qed.

Lemma mapM_capitalize_ident (parts : list str) :
  Forall (Forall (fun c => ident_char c = true)) parts ->
  exists words, mapM capitalize parts = Some words
                /\ plain (concat words) = plain (concat parts).
Proof.
  induction 1 as [|part parts Hp _ (words & IH & Hw)];
    [exists []; split; reflexivity|].
  destruct (capitalize_ident part Hp) as (word & Hc & Hword).
  exists (word :: words). cbn [mapM mbind option_bind]. rewrite Hc, IH.
  split; [reflexivity|]. cbn [concat]. rewrite !plain_app, Hword, Hw. reflexivity.
Qed.

Lemma plain_snake_from (k : nat) (s : str) : plain (snake_from k s) = plain s.
Proof.
  revert k. induction s as [|c s IH]; intros k; [reflexivity|].
  rewrite snake_from_cons, plain_app, (plain_cons (lower_char c)), IH.
  rewrite (plain_cons c), (proj1 (plain_char_facts c)).
  destruct (isupper c && (0 <? k)); reflexivity.
Qed.

Lemma plain_to_snake_case (s : str) : plain (_to_snake_case s) = plain s.
Proof. rewrite to_snake_case_from. apply plain_snake_from. Qed.

Lemma plain_join_underscore (parts : list str) :
  plain (join "_" parts) = plain (concat parts).
Proof.
  induction parts as [|p ps IH]; [reflexivity|].
  destruct ps as [|q ps].
  - cbn [join concat]. rewrite app_nil_r. reflexivity.
  - rewrite join_cons by discriminate.
    rewrite !plain_app, plain_underscore, IH.
    cbn [concat]. rewrite !plain_app. reflexivity.
Qed.

Lemma plain_to_camel_case (s : str) :
  Forall (fun c => ident_char c = true) s ->
  exists r, _to_camel_case s = Some r /\ plain r = plain s.
Proof.
  intros Hs. rewrite camel_fmap.
  destruct (mapM_capitalize_ident (tl (split "_" s))) as (words & Hm & Hw).
  { apply Forall_forall. intros part Hpart. apply Forall_forall. intros c Hc.
    rewrite Forall_forall in Hs. apply Hs.
    apply (split_parts_elem "_" c s part); [|exact Hc].
    destruct (split "_" s); [inversion Hpart | right; exact Hpart]. }
  rewrite Hm. eexists. split; [reflexivity|].
  rewrite plain_app, Hw.
  assert (E : plain s = plain (concat (split "_" s)))
    by (rewrite <- plain_join_underscore, join_split; reflexivity).
  rewrite E. pose proof (split_nonempty "_" s) as Hne.
  destruct (split "_" s) as [|p ps]; [congruence|].
  cbn [hd tl concat]. rewrite plain_app. reflexivity.
Qed.

(** *** Substitution *)

(** When each match is replaced by a text that differs from it in case,
    underscores and white space only, the substitution returns a text,
    and so does the whole result differ from the text. *)
Lemma sub_scan_plain (r : regex) (repl : re_match -> option str) :
  (forall prev s m, match_here r prev s = Some m ->
     exists text, repl m = Some text /\ plain text = plain (m_text m)) ->
  forall s prev skip,
    exists out, sub_scan r repl prev s skip = Some out
                /\ plain out = plain (drop skip s).
Proof.
  intros Hrepl. induction s as [|c s IH]; intros prev skip.
  - destruct skip as [|n]; cbn [sub_scan drop]; [|exists []; split; reflexivity].
    destruct (match_here r prev []) as [m|] eqn:E; [|exists []; split; reflexivity].
    destruct (Hrepl _ _ _ E) as (text & -> & Ht).
    exists text. split; [reflexivity|]. rewrite Ht.
    destruct (match_here_matches _ _ _ _ E) as [_ [rest Hrest]].
    destruct (m_text m); [reflexivity | discriminate Hrest].
  - destruct skip as [|n]; cbn [sub_scan drop]; [|apply IH].
    destruct (match_here r prev (c :: s)) as [m|] eqn:E.
    + destruct (Hrepl _ _ _ E) as (text & -> & Ht).
      destruct (match_here_matches _ _ _ _ E) as [_ [rest Hrest]].
      destruct (m_text m) as [|x matched] eqn:Em.
      * cbn [length Nat.eqb Nat.sub].
        destruct (IH (Some c) 0) as (out & -> & Hout).
        eexists. split; [reflexivity|].
        rewrite !plain_app, Ht, Hout, (plain_cons c s). reflexivity.
      * cbn [length Nat.eqb Nat.sub]. rewrite Nat.sub_0_r.
        destruct (IH (Some c) (length matched)) as (out & -> & Hout).
        eexists. split; [reflexivity|].
        cbn [app] in Hrest. injection Hrest as -> ->.
        change (plain (x :: matched ++ rest))
          with (plain ((x :: matched) ++ rest)).
        rewrite !plain_app, Ht, Hout, drop_app_length. reflexivity.
    + destruct (IH (Some c) 0) as (out & -> & Hout).
      eexists. split; [reflexivity|].
      rewrite (plain_cons c), Hout, (plain_cons c s). reflexivity.
Qed.

Lemma sub_plain (r : regex) (repl : re_match -> option str) (s : str) :
  (forall prev s m, match_here r prev s = Some m ->
     exists text, repl m = Some text /\ plain text = plain (m_text m)) ->
  exists out, sub r repl s = Some out /\ plain out = plain s.
Proof. intros H. exact (sub_scan_plain r repl H s None 0). Qed.

(** *** The four patterns *)

Lemma keyword_pattern_match (keyword : str) (first : ascii -> bool)
    (prev : option ascii) (s : str) (m : re_match) :
  match_here (keyword_pattern keyword first) prev s = Some m ->
  exists ws name,
    m_text m = keyword ++ ws ++ name
    /\ Forall (fun c => isspace c = true) ws
    /\ group 1 m = name
    /\ exists c rest, name = c :: rest /\ first c = true
                      /\ Forall (fun c => ident_char c = true) rest.
Proof.
  intros H. apply match_here_matches in H as [H _].
  unfold group. destruct m as [text groups]. cbn [m_text m_groups] in *.
  cbn [keyword_pattern matches] in H.
  destruct H as (t0 & g0 & t1 & g1 & -> & -> & [-> ->] & H).
  destruct H as (t2 & g2 & t3 & g3 & -> & -> & [-> ->] & H).
  destruct H as (ws & g4 & name & g5 & -> & -> & (_ & Hws & ->) & H).
  destruct H as (g6 & H & ->).
  destruct H as (t7 & g7 & t8 & g8 & Hname & -> & [(c & -> & Hc) ->] & [Hrest ->]).
  assert (Hshape : exists c rest, name = c :: rest /\ first c = true
                     /\ Forall (fun c => ident_char c = true) rest)
    by (exists c, t8; auto).
  exists ws, name. cbn. rewrite decide_True by reflexivity. cbn. auto.
Qed.

Lemma js_var_pattern_match (prev : option ascii) (s : str) (m : re_match) :
  match_here js_var_pattern prev s = Some m ->
  exists ws name,
    m_text m = group 1 m ++ ws ++ name
    /\ Forall (fun c => isspace c = true) ws
    /\ group 2 m = name
    /\ Forall (fun c => ident_char c = true) name.
Proof.
  intros H. apply match_here_matches in H as [H _].
  unfold group. destruct m as [text groups]. cbn [m_text m_groups] in *.
  cbn [js_var_pattern matches] in H.
  destruct H as (t0 & g0 & t1 & g1 & -> & -> & [-> ->] & H).
  destruct H as (kw & g2 & t3 & g3 & -> & -> & (g2' & _ & ->) & H).
  destruct H as (ws & g4 & name & g5 & -> & -> & (_ & Hws & ->) & H).
  destruct H as (g6 & H & ->).
  destruct H as (t7 & g7 & t8 & g8 & Hname & -> & [(c & -> & Hc) ->] & [Hrest ->]).
  assert (Hid : Forall (fun c => ident_char c = true) name)
    by (rewrite Hname; constructor; [apply lower_ident, Hc | exact Hrest]).
  exists ws, name. cbn [app list_find fst].
  rewrite (decide_False (P := (2 = 1))) by discriminate.
  rewrite (decide_True (P := (1 = 1))) by reflexivity.
  rewrite (decide_True (P := (2 = 2))) by reflexivity.
  cbn. auto.
Qed.

Lemma keyword_pattern_starts (keyword : str) (first : ascii -> bool)
    (prev : option ascii) (s : str) (m : re_match) :
  match_here (keyword_pattern keyword first) prev s = Some m ->
  startswith keyword s = true.
Proof.
  intros H. destruct (keyword_pattern_match _ _ _ _ _ H) as (ws & name & E & _).
  apply match_here_matches in H as [_ [rest ->]]. rewrite E, <- app_assoc.
  apply startswith_app.
Qed.

Lemma js_var_pattern_starts (prev : option ascii) (s : str) (m : re_match) :
  match_here js_var_pattern prev s = Some m ->
  startswith "let" s || startswith "const" s || startswith "var" s = true.
Proof.
  intros H. apply match_here_matches in H as [H [rest ->]].
  destruct m as [text groups]. cbn [m_text m_groups] in *.
  cbn [js_var_pattern matches] in H.
  destruct H as (t0 & g0 & t1 & g1 & -> & _ & [-> _] & H).
  destruct H as (kw & g2 & t3 & g3 & -> & _ & (g2' & Hkw & _) & _).
  cbn [app]. rewrite <- app_assoc.
  destruct Hkw as [[-> _] | [[-> _] | [-> _]]]; rewrite startswith_app;
    rewrite ?orb_true_r; reflexivity.
Qed.

(** A text in which the pattern finds nothing is left as it is. *)
Lemma sub_scan_absent (r : regex) (repl : re_match -> option str) (s : str) :
  (forall prev t, (exists pre, s = pre ++ t) -> match_here r prev t = None) ->
  forall prev, sub_scan r repl prev s 0 = Some s.
Proof.
  induction s as [|c s IH]; intros H prev; cbn [sub_scan].
  - rewrite (H prev []) by (exists []; reflexivity). reflexivity.
  - rewrite (H prev (c :: s)) by (exists []; reflexivity).
    rewrite IH; [reflexivity|].
    intros prev' t [pre ->]. apply H. exists (c :: pre). reflexivity.
Qed.

Lemma not_startswith_suffix (keyword pre t : str) :
  contains keyword (pre ++ t) = false -> startswith keyword t = false.
Proof.
  intros H. destruct (startswith keyword t) eqn:E; [|reflexivity].
  rewrite contains_app_r in H; [discriminate H|].
  destruct t; cbn [contains]; rewrite E; reflexivity.
Qed.

Lemma sub_keyword_absent (keyword : str) (first : ascii -> bool)
    (repl : re_match -> option str) (s : str) :
  contains keyword s = false ->
  sub (keyword_pattern keyword first) repl s = Some s.
Proof.
  intros H. apply sub_scan_absent. intros prev t [pre ->].
  destruct (match_here _ prev t) as [m|] eqn:E; [|reflexivity].
  apply keyword_pattern_starts in E.
  rewrite (not_startswith_suffix _ _ _ H) in E. discriminate E.
Qed.

Lemma sub_js_var_absent (repl : re_match -> option str) (s : str) :
  contains "let" s = false -> contains "const" s = false ->
  contains "var" s = false ->
  sub js_var_pattern repl s = Some s.
Proof.
  intros H1 H2 H3. apply sub_scan_absent. intros prev t [pre ->].
  destruct (match_here _ prev t) as [m|] eqn:E; [|reflexivity].
  apply js_var_pattern_starts in E.
  rewrite (not_startswith_suffix _ _ _ H1), (not_startswith_suffix _ _ _ H2),
    (not_startswith_suffix _ _ _ H3) in E.
  discriminate E.
Qed.

Ltac first_sub line out E H :=
  match goal with
  | |- context [sub ?r ?f line] => destruct (sub_plain r f line) as (out & E & H)
  end.

Lemma fix_js_line_plain (line : str) :
  exists out, fix_js_line line = Some out /\ plain out = plain line.
Proof.
  unfold fix_js_line. first_sub line line1 E1 H1.
  { intros prev s m H.
    destruct (js_var_pattern_match _ _ _ H) as (ws & name & Hm & Hws & Hg & Hid).
    rewrite Hg. destruct (plain_to_camel_case name Hid) as (r & -> & Hr).
    eexists. split; [reflexivity|].
    rewrite Hm, !plain_app, Hr, (plain_spaces ws Hws). reflexivity. }
  rewrite E1. first_sub line1 line2 E2 H2.
  { intros prev s m H.
    destruct (keyword_pattern_match _ _ _ _ _ H)
      as (ws & name & Hm & Hws & Hg & c & rest & Hname & Hc & Hrest).
    assert (Hid : Forall (fun c => ident_char c = true) name)
      by (rewrite Hname; constructor; [apply lower_ident, Hc | exact Hrest]).
    rewrite Hg. destruct (plain_to_camel_case name Hid) as (r & -> & Hr).
    eexists. split; [reflexivity|].
    rewrite Hm, !plain_app, Hr, (plain_spaces ws Hws). reflexivity. }
  exists line2. split; [exact E2 | rewrite H2; exact H1].
Qed.

Lemma fix_python_line_plain (line : str) :
  exists out, fix_python_line line = Some out /\ plain out = plain line.
Proof.
  unfold fix_python_line. first_sub line line1 E1 H1.
  { intros prev s m H.
    destruct (keyword_pattern_match _ _ _ _ _ H) as (ws & name & Hm & Hws & Hg & _).
    eexists. split; [reflexivity|].
    rewrite Hg, Hm, !plain_app, plain_to_snake_case, (plain_spaces ws Hws).
    reflexivity. }
  rewrite E1. first_sub line1 line2 E2 H2.
  { intros prev s m H.
    destruct (keyword_pattern_match _ _ _ _ _ H) as (ws & name & Hm & Hws & Hg & _).
    eexists. split; [reflexivity|].
    rewrite Hg, Hm, !plain_app, plain_to_snake_case, (plain_spaces ws Hws).
    reflexivity. }
  exists line2. split; [exact E2 | rewrite H2; exact H1].
Qed.

(** A rewriting that returns a text for every line returns a buffer. *)
Lemma mapM_lines (f : str -> option str) (buffer : list str) :
  (forall line, exists out, f line = Some out /\ plain out = plain line) ->
  exists outs,
    mapM f buffer = Some outs
    /\ length outs = length buffer
    /\ map plain outs = map plain buffer
    /\ forall i line, buffer !! i = Some line -> outs !! i = f line.
Proof.
  intros Hf.
  induction buffer as [|line buffer (outs & IH & Hlen & Hplain & Hlook)].
  - exists []. repeat split. intros i line H. discriminate H.
  - destruct (Hf line) as (out & Hout & Hp).
    exists (out :: outs). cbn [mapM mbind option_bind]. rewrite Hout, IH.
    split; [reflexivity|]. cbn [length map].
    split; [rewrite Hlen; reflexivity|]. split; [rewrite Hp, Hplain; reflexivity|].
    intros [|i] l Hl; [injection Hl as <-; symmetry; exact Hout | apply Hlook, Hl].
Qed.

(** X24. [_fix_naming_conventions] returns, on any buffer, with a buffer
    that keeps the number of lines and, in each line, changes letter
    case, underscores and white space only: without its white space and
    underscores, and in lower case, a line reads the same before and
    after.  A line that holds none of the keywords of its language
    ([let], [const], [var], [function], or [def], [class]) is left as it
    is, and so is the buffer for any other language. *)
Theorem fix_naming_keeps_text (language : str) (buffer : list str) :
  exists out,
    fix_naming_conventions_lines language buffer = Some out
    /\ length out = length buffer
    /\ map plain out = map plain buffer
    /\ (forall i line,
          buffer !! i = Some line ->
          existsb (fun keyword => contains keyword line) (naming_keywords language)
          = false ->
          out !! i = Some line).
Proof.
  unfold fix_naming_conventions_lines, naming_keywords.
  destruct (is_js language).
  - destruct (mapM_lines fix_js_line buffer fix_js_line_plain)
      as (out & -> & Hlen & Hp & Hlook).
    exists out. split; [reflexivity|]. split; [exact Hlen|]. split; [exact Hp|].
    intros i line Hl Hkw. rewrite (Hlook i line Hl).
    cbn [existsb] in Hkw. rewrite orb_false_r in Hkw.
    apply orb_false_iff in Hkw as [H1 Hkw].
    apply orb_false_iff in Hkw as [H2 Hkw].
    apply orb_false_iff in Hkw as [H3 H4].
    unfold fix_js_line, js_function_pattern.
    rewrite (sub_js_var_absent _ line H1 H2 H3).
    apply (sub_keyword_absent _ _ _ line H4).
  - destruct (is_python language).
    + destruct (mapM_lines fix_python_line buffer fix_python_line_plain)
        as (out & -> & Hlen & Hp & Hlook).
      exists out. split; [reflexivity|]. split; [exact Hlen|]. split; [exact Hp|].
      intros i line Hl Hkw. rewrite (Hlook i line Hl).
      cbn [existsb] in Hkw. rewrite orb_false_r in Hkw.
      apply orb_false_iff in Hkw as [H1 H2].
      unfold fix_python_line, py_def_pattern, py_class_pattern.
      rewrite (sub_keyword_absent _ _ _ line H1).
      apply (sub_keyword_absent _ _ _ line H2).
    + exists buffer. split; [reflexivity|]. split; [reflexivity|].
      split; [reflexivity|]. intros i line Hl _. exact Hl.
Qed.
